(** * spell: a source-based package manager -- verification of the lifecycle engine

    A shallow embedding of [src/spell.py] and the proofs of its specified
    properties.  The file is organised in three parts:

    - Part I embeds the program: the Python built-ins the code relies on
      ([str.split], [str.join], [sorted], [re.sub], [os.path.expandvars]),
      the package registry ([DB], [PackageRecord]), the recipe model
      ([Recipe], [_expand_with]), the dependency resolver ([topo_sort]),
      the fetch stage ([fetch_sources], [verify_hash]), build-root selection
      ([pick_build_root]) and the removal engine ([reverse_deps],
      [uninstall], [find_orphans]), and building and installing
      ([apply_patches], [do_build]).
    - Part II states and proves the specified properties.
    - Part III proves further properties of the same code.

    Conventions.  Python [str] is [string] (a sequence of bytes; UTF-8 keeps
    the code-point order, so [String.le] is Python's [<=] on [str]).  A Python
    [dict] keyed by package name is a [gmap string _] when only its contents
    matter and an association list when its iteration order matters.  A
    Python [set] that the code iterates is a duplicate-free list whose order
    is chosen by an arbitrary function [iter_order], because CPython does not
    fix it.  An exception is a constructor of the result type. *)

From Stdlib Require Import ZArith String Ascii.
From Stdlib Require Import DecimalString.
From stdpp Require Import base list sorting strings gmap.

Local Open Scope string_scope.
Local Open Scope list_scope.

(** String concatenation computes by [simpl] in this file. *)
Local Arguments String.append !_ _ / : simpl nomatch.

(* ===================================================================== *)
(** * Part I.  The embedding                                              *)
(* ===================================================================== *)

(** ** Python built-ins *)

Module Py.

(** [s.split(sep)] for a one-character separator: the pieces between the
    occurrences of [sep]; always at least one piece. *)
Fixpoint split (sep : ascii) (s : string) : list string :=
  match s with
  | EmptyString => [""]
  | String c s' =>
      if Ascii.eqb c sep then "" :: split sep s'
      else match split sep s' with
           | [] => [String c ""]
           | w :: ws => String c w :: ws
           end
  end.

(** [s.split(sep, 1)] for a one-character separator: [None] when [sep]
    does not occur (one piece), else the text before and the text after
    its first occurrence. *)
Fixpoint split_once (sep : ascii) (s : string) : option (string * string) :=
  match s with
  | EmptyString => None
  | String c s' =>
      if Ascii.eqb c sep then Some ("", s')
      else (λ p, (String c p.1, p.2)) <$> split_once sep s'
  end.

(** [sep.join(l)] *)
Fixpoint join (sep : string) (l : list string) : string :=
  match l with
  | [] => ""
  | [x] => x
  | x :: l' => x +:+ sep +:+ join sep l'
  end.

(** [s.startswith(p)] and [s.endswith(p)] *)
Definition startswith (s p : string) : bool := String.prefix p s.
Definition endswith (s p : string) : bool :=
  String.prefix (String.rev p) (String.rev s).

(** [sorted(xs)] on strings.  The elements the code sorts are pairwise
    distinct (they come from a set), so every sorting algorithm returns
    the same list. *)
Definition sorted (l : list string) : list string := merge_sort String.le l.

(** [sorted(xs, key=key, reverse=True)]: Python's sort is stable, also
    with [reverse=True]: elements with equal keys keep their input order.
    [insert_desc] walks past the elements whose key is strictly larger. *)
Fixpoint insert_desc {A} (key : A → nat) (x : A) (l : list A) : list A :=
  match l with
  | [] => [x]
  | y :: l' =>
      if (key x <? key y)%nat then y :: insert_desc key x l'
      else x :: y :: l'
  end.

Definition sorted_key_reverse {A} (key : A → nat) (l : list A) : list A :=
  foldr (insert_desc key) [] l.

(** [pattern.sub(repl, s)] for a pattern that never matches the empty
    string.  [match_at t] tells whether the pattern matches at the start
    of [t]: it gives the length of the match and its group 1.  The string is
    scanned from left to right; where the pattern matches, [repl] of the
    matched text and of group 1 is emitted and the scan resumes behind the
    match ([skip] counts the characters of the match still to pass);
    elsewhere the character is copied.  The replacement is not scanned. *)
Fixpoint re_sub (match_at : string → option (nat * string))
    (repl : string → string → string) (skip : nat) (s : string) : string :=
  match s with
  | EmptyString => ""
  | String c s' =>
      match skip with
      | S skip' => re_sub match_at repl skip' s'
      | O =>
          match match_at s with
          | Some (len, group1) =>
              repl (substring 0 len s) group1
                +:+ re_sub match_at repl (len - 1) s'
          | None => String c (re_sub match_at repl 0 s')
          end
      end
  end.

(** [pattern.findall(s)]: group 1 of every match the scan of [re_sub] finds. *)
Fixpoint re_findall (match_at : string → option (nat * string))
    (skip : nat) (s : string) : list string :=
  match s with
  | EmptyString => []
  | String c s' =>
      match skip with
      | S skip' => re_findall match_at skip' s'
      | O =>
          match match_at s with
          | Some (len, group1) => group1 :: re_findall match_at (len - 1) s'
          | None => re_findall match_at 0 s'
          end
      end
  end.

(** [[^}]*] followed by [}] at the start of [s]: the characters before the
    first closing brace. *)
Fixpoint until_brace (s : string) : option string :=
  match s with
  | EmptyString => None
  | String c s' =>
      if Ascii.eqb c "}" then Some ""
      else String c <$> until_brace s'
  end.

(** [\w] under [re.ASCII]: a letter, a digit or the underscore. *)
Definition is_word (c : ascii) : bool :=
  let n := nat_of_ascii c in
  ((48 <=? n) && (n <=? 57) || (65 <=? n) && (n <=? 90)
   || (97 <=? n) && (n <=? 122) || (n =? 95))%nat.

(** [\w+] at the start of [s], greedy. *)
Fixpoint word_prefix (s : string) : string :=
  match s with
  | EmptyString => ""
  | String c s' => if is_word c then String c (word_prefix s') else ""
  end.

(** The pattern of [posixpath.expandvars], [\$(\w+|\{[^}]*\})]; group 1
    is given without its braces, as [expandvars] strips them. *)
Definition match_shell_var (s : string) : option (nat * string) :=
  match s with
  | String c rest =>
      if Ascii.eqb c "$" then
        match word_prefix rest with
        | String _ _ as name => Some (S (String.length name), name)
        | EmptyString =>
            match rest with
            | String c' rest' =>
                if Ascii.eqb c' "{" then
                  (λ name, (String.length name + 3, name)%nat)
                    <$> until_brace rest'
                else None
            | EmptyString => None
            end
        end
      else None
  | EmptyString => None
  end.

(** [os.path.expandvars(path)] with the process environment [environ]:
    [$name] and [${name}] are replaced by the value of [name]; a reference
    to a variable that is not set is left unchanged; values are not
    expanded again. *)
Definition expandvars (environ : gmap string string) (path : string) : string :=
  re_sub match_shell_var (λ text name, default text (environ !! name)) 0 path.

End Py.

(** ** The package registry *)

Module PackageRecord.
Record t := mk {
  name : string;
  version : string;
  files : list string;
  runtime_deps : list string;
  build_deps : list string;
  provides : list string;
}.
End PackageRecord.

(** The registry is [DBI.data["installed"]]: name -> record.  Every mutating
    method ends with [self.save()], so the stored document always equals
    this map. *)
Abbreviation registry := (gmap string PackageRecord.t) (only parsing).

Definition DB_get (db : registry) (name : string) : option PackageRecord.t :=
  db !! name.

Definition DB_set (rec : PackageRecord.t) (db : registry) : registry :=
  <[PackageRecord.name rec := rec]> db.

Definition DB_remove (name : string) (db : registry) : registry :=
  delete name db.

(** [DBI.all().items()] *)
Definition DB_all (db : registry) : list (string * PackageRecord.t) :=
  map_to_list db.

(** ** Reverse dependencies, removal and orphans *)

(** [rev[d].add(pkg)] guarded by [if d in rev]: [alter] leaves the map alone
    when [d] is not a key. *)
Definition add_dependent (pkg : string) (rev : gmap string (gset string))
    (d : string) : gmap string (gset string) :=
  alter (λ s, s ∪ {[pkg]}) d rev.

Definition reverse_deps (db : registry) (targets : list string)
    : gmap string (gset string) :=
  let rev0 : gmap string (gset string) := (λ _, ∅) <$> db in
  let rev :=
    foldl (λ rev kv, foldl (add_dependent kv.1) rev
                           (PackageRecord.runtime_deps kv.2))
          rev0 (DB_all db) in
  list_to_map ((λ t, (t, default ∅ (rev !! t))) <$> targets).

(** Number of path segments, [len(x.split('/'))]. *)
Definition depth (f : string) : nat := length (Py.split "/" f).

(** What the program prints ([warn], [info], [ok]). *)
Inductive event :=
  | Warn (msg : string)
  | Info (msg : string)
  | Ok (msg : string).

(** How a command ends: it returns, or [SystemExit] is raised. *)
Inductive exit :=
  | Returned
  | SystemExit (msg : string).

Definition blocked_message (name : string) (rev : gset string) : string :=
  "Não é possível remover " +:+ name +:+ ": requerido por "
    +:+ Py.join ", " (Py.sorted (elements rev))
    +:+ ". Use --force para forçar.".

Section Uninstall.
(** The file system is outside the program.  [remove_file f] is the body
    of the loop of [uninstall] for one recorded path: unlink the file or
    symlink, then remove the empty ancestor directories; every exception
    is caught there ([except Exception], [contextlib.suppress]) and at
    most printed as a warning, so the step never aborts the loop. *)
Context {FS : Type}.
Variable remove_file : string → FS → FS * list event.

Fixpoint remove_files (fs : FS) (paths : list string) : FS * list event :=
  match paths with
  | [] => (fs, [])
  | f :: rest =>
      let '(fs1, ev1) := remove_file f fs in
      let '(fs2, ev2) := remove_files fs1 rest in
      (fs2, ev1 ++ ev2)
  end.

(** The order in which the recorded paths are processed. *)
Definition removal_order (files : list string) : list string :=
  Py.sorted_key_reverse depth files.

Definition uninstall (name : string) (force : bool) (db : registry) (fs : FS)
    : exit * list event * registry * FS :=
  match DB_get db name with
  | None => (Returned, [Warn (name +:+ " não está instalado")], db, fs)
  | Some rec =>
      let rev := reverse_deps db [name] !!! name in
      if bool_decide (rev ≠ ∅) && negb force then
        (SystemExit (blocked_message name rev), [], db, fs)
      else
        let '(fs', evs) :=
          remove_files fs (removal_order (PackageRecord.files rec)) in
        (Returned,
         [Info ("Removendo " +:+ name)] ++ evs ++ [Ok ("Removido " +:+ name)],
         DB_remove name db, fs')
  end.
End Uninstall.

Definition find_orphans (db : registry) : list string :=
  let installed := DB_all db in
  let required : gset string :=
    foldl (λ req kv, req ∪ list_to_set (PackageRecord.runtime_deps kv.2))
          ∅ installed in
  let orphans : gset string := list_to_set installed.*1 ∖ required in
  Py.sorted (elements orphans).

(** ** Build-root selection *)

(** A [Path] is its list of components; [p / name] appends one. *)
Abbreviation Path := (list string) (only parsing).

(** One entry of [srcdir.iterdir()]: its [name] and what [is_dir()] says. *)
Record dir_entry := { entry_name : string; entry_is_dir : bool }.

Definition pick_build_root (srcdir : Path) (listing : list dir_entry) : Path :=
  let subs :=
    filter (λ p, entry_is_dir p && negb (Py.startswith (entry_name p) "."))
           listing in
  match subs with
  | [p] => srcdir ++ [entry_name p]
  | _ => srcdir
  end.

(** ** Recipes *)

(** A fetch descriptor, a mapping [{type, url, hash?, ref?, dir?, filename?}];
    an absent key is [None]. *)
Record source := {
  src_type : option string;
  src_url : string;
  src_filename : option string;
  src_hash : option string;
  src_ref : option string;
  src_dir : option string;
}.

Inductive patch :=
  | PatchUrl (url : string)
  | PatchDir (dir : string)
  | PatchFile (path : string).

Module Recipe.
Record t := mk {
  name : string;
  version : string;
  vars : gmap string string;
  source : list source;
  patches : list patch;
  build : list string;
  install : list string;
  runtime_deps : list string;
  build_deps : list string;
  provides : list string;
  path : Path;
}.
End Recipe.

(** ** Variable expansion *)

(** The pattern of [_expand_with], [\${([^}]+)}]: a dollar, an opening
    brace, one or more characters other than a closing brace (group 1),
    a closing brace. *)
Definition match_reference (s : string) : option (nat * string) :=
  match s with
  | String c (String c' rest) =>
      if Ascii.eqb c "$" && Ascii.eqb c' "{" then
        match Py.until_brace rest with
        | Some (String _ _ as key) => Some (String.length key + 3, key)%nat
        | _ => None
        end
      else None
  | _ => None
  end.

(** [repl]: [str(env.get(k, m.group(0)))] *)
Definition repl (env : gmap string string) (group0 k : string) : string :=
  default group0 (env !! k).

Definition _expand_with (env : gmap string string) (s : string) : string :=
  Py.re_sub match_reference (repl env) 0 s.

(** [base_vars] and [env = {**os.environ, **base_vars, **data['vars']}] of
    [Recipe.load]: in a dict display a later entry replaces an earlier one. *)
Definition base_vars (name version : string) : gmap string string :=
  <["version" := version]> (<["name" := name]> ∅).

Definition load_env (environ : gmap string string) (name version : string)
    (vars : gmap string string) : gmap string string :=
  vars ∪ (base_vars name version ∪ environ).

(** The parsed recipe document, as far as expansion looks at it: strings,
    lists, mappings, and every other scalar. *)
Inductive yaml :=
  | YStr (s : string)
  | YList (items : list yaml)
  | YDict (items : list (string * yaml))
  | YScalar (repr : string).

(** The nested function [expand] of [Recipe.load]. *)
Fixpoint expand (environ env : gmap string string) (obj : yaml) : yaml :=
  match obj with
  | YStr s => YStr (Py.expandvars environ (_expand_with env s))
  | YList items => YList (expand environ env <$> items)
  | YDict items => YDict ((λ kv, (kv.1, expand environ env kv.2)) <$> items)
  | YScalar repr => YScalar repr
  end.

(** The recipe map [dict[str, Recipe]] in insertion order.  A Python dict
    has no two entries with the same key, and [load_all_recipes] stores
    every recipe under its own name. *)
Abbreviation recipe_map := (list (string * Recipe.t)) (only parsing).

Definition wf_recipes (recipes : recipe_map) : Prop :=
  NoDup recipes.*1 ∧ ∀ k r, (k, r) ∈ recipes → Recipe.name r = k.

(** [n in recipes] *)
Definition has_recipe (recipes : recipe_map) (n : string) : bool :=
  bool_decide (n ∈ recipes.*1).

(** ** The fetch stage *)

(** What a stage does to the world, in order. *)
Inductive action :=
  | MkDir (dir : list string)
  | Download (url : string) (dest : list string)
  | HashFile (algo : string) (file : list string)
  | Extract (archive dest : list string)
  | GitClone (url : string) (dest : list string) (ref : option string).

(** The exceptions that end a stage. *)
Inductive error :=
  | ExitStatus (code : Z)
  | ExitMessage (msg : string)
  | ValueError (msg : string).

(** The world a stage runs in: the exit status of [curl] and of [git], the
    digest of what [curl] wrote ([None] when [hashlib] does not know the
    algorithm), and how extraction ends. *)
Record world := {
  curl_status : string → list string → Z;
  git_status : string → list string → option string → Z;
  downloaded_digest : string → string → option string;
  extract_error : list string → list string → option error;
}.

(** A computation that acts on the world and may raise: the actions done
    so far, and the error or the result. *)
Definition stage (A : Type) : Type := list action * (error + A).

Definition stage_ret {A} (a : A) : stage A := ([], inr a).
Definition stage_raise {A} (e : error) : stage A := ([], inl e).
Definition stage_do (a : action) : stage unit := ([a], inr tt).

Definition stage_bind {A B} (k : A → stage B) (m : stage A) : stage B :=
  match m with
  | (done, inl e) => (done, inl e)
  | (done, inr a) => (done ++ (k a).1, (k a).2)
  end.

#[local] Instance stage_mbind : MBind stage := @stage_bind.

(** A [for] loop whose body may raise. *)
Fixpoint stage_for {A} (body : A → stage unit) (l : list A) : stage unit :=
  match l with
  | [] => stage_ret tt
  | x :: l' => body x ;; stage_for body l'
  end.

(** [run] of a command line: [SystemExit] with the status when it is not 0. *)
Definition check_status (rc : Z) : stage unit :=
  if (rc =? 0)%Z then stage_ret tt else stage_raise (ExitStatus rc).

Definition download_to (w : world) (url : string) (dest : list string)
    : stage unit :=
  stage_do (MkDir (removelast dest)) ;;
  stage_do (Download url dest) ;;
  check_status (curl_status w url dest).

Definition git_clone (w : world) (url : string) (dest : list string)
    (ref : option string) : stage unit :=
  stage_do (GitClone url dest ref) ;;
  check_status (git_status w url dest ref).

(** [extract]: the archive formats and their fall-backs are the world's. *)
Definition extract (w : world) (archive dest : list string) : stage unit :=
  stage_do (MkDir dest) ;;
  stage_do (Extract archive dest) ;;
  match extract_error w archive dest with
  | None => stage_ret tt
  | Some e => stage_raise e
  end.

Definition hash_mismatch_message (file expected got : string) : string :=
  "Hash incorreta para " +:+ file +:+ ": esperado " +:+ expected
    +:+ ", obtido " +:+ got.

(** [verify_hash(path, spec)], for the file fetched from [url]. *)
Definition verify_hash (w : world) (url : string) (path : list string)
    (spec : string) : stage unit :=
  match Py.split_once ":" spec with
  | None => stage_raise (ValueError "not enough values to unpack")
  | Some (algo, expected) =>
      match downloaded_digest w algo url with
      | None => stage_raise (ValueError ("unsupported hash type " +:+ algo))
      | Some got =>
          stage_do (HashFile algo path) ;;
          if bool_decide (got ≠ expected)
          then stage_raise
                 (ExitMessage
                    (hash_mismatch_message (default "" (last path)) expected got))
          else stage_ret tt
      end
  end.

Definition archive_suffixes : list string :=
  [".tar.gz"; ".tar.xz"; ".tar.bz2"; ".zip"; ".tar"; ".tgz"; ".tbz"; ".txz";
   ".7z"; ".gz"; ".bz2"; ".xz"; ".zst"].

(** [any(fn.endswith(x) for x in [...])] *)
Definition is_archive_name (fn : string) : bool :=
  existsb (Py.endswith fn) archive_suffixes.

(** [x or y] on strings, [x] possibly absent. *)
Definition or_else (x : option string) (y : string) : string :=
  match x with
  | Some (String _ _ as s) => s
  | _ => y
  end.

Section Fetch.
(** [Path(url).name] and [Path(url).stem] are [pathlib]'s. *)
Variable path_name : string → string.
Variable path_stem : string → string.

(** The file name under which a [curl] source is stored; [srcdir/fn] takes
    it as one path component. *)
Definition source_filename (src : source) : string :=
  or_else (src_filename src) (path_name (src_url src)).

(** The body of the loop of [fetch_sources]. *)
Definition fetch_source (w : world) (srcdir : list string) (src : source)
    : stage unit :=
  let t := default "curl" (src_type src) in
  if String.eqb t "curl" then
    let url := src_url src in
    let fn := source_filename src in
    let dest := srcdir ++ [fn] in
    download_to w url dest ;;
    (match src_hash src with
     | Some (String _ _ as h) => verify_hash w url dest h
     | _ => stage_ret tt
     end) ;;
    (if is_archive_name fn then extract w dest srcdir else stage_ret tt)
  else if String.eqb t "git" then
    let repo := src_url src in
    let gdest := srcdir ++ [or_else (src_dir src) (path_stem repo)] in
    git_clone w repo gdest (src_ref src)
  else stage_raise (ExitMessage ("Fonte desconhecida: " +:+ t)).

Definition fetch_sources (w : world) (recipe : Recipe.t) (srcdir : list string)
    : stage unit :=
  stage_do (MkDir srcdir) ;;
  stage_for (fetch_source w srcdir) (Recipe.source recipe).
End Fetch.

(** ** The dependency resolver *)

Section Resolver.
(** The order in which CPython iterates a set is not specified:
    [iter_order l] is the order chosen for the set with the elements [l]. *)
Variable iter_order : list string → list string.

(** [set(xs)] *)
Definition pyset (xs : list string) : list string :=
  iter_order (remove_dups xs).

(** [graph[r.name] = set(r.runtime_deps or []) | set(r.build_deps or [])]
    for every recipe, in the order of [recipes.values()]; a later
    assignment to the same name replaces the earlier one. *)
Definition build_graph (recipes : recipe_map) : gmap string (list string) :=
  foldl (λ graph r,
           <[Recipe.name r :=
               pyset (Recipe.runtime_deps r ++ Recipe.build_deps r)]> graph)
        ∅ recipes.*2.

(** [graph.get(n, [])] *)
Definition graph_get (graph : gmap string (list string)) (n : string)
    : list string :=
  default [] (graph !! n).

(** The nested function [dfs], which adds to the set [needed] (here in
    insertion order).  [fuel] bounds the depth of the recursion; the
    interpreter's own recursion limit is not modelled. *)
Fixpoint dfs (fuel : nat) (graph : gmap string (list string))
    (recipes : recipe_map) (n : string) (needed : list string)
    : list string :=
  match fuel with
  | 0 => needed
  | S fuel' =>
      if bool_decide (n ∈ needed) then needed
      else
        foldl (λ needed d,
                 if has_recipe recipes d
                 then dfs fuel' graph recipes d needed
                 else needed)
              (needed ++ [n]) (graph_get graph n)
  end.

(** [for n in reqs: if n in recipes: dfs(n)]; [reqs] lists the requested
    set in the order it is iterated.  No call chain is longer than the
    number of recipes plus one. *)
Definition compute_needed (graph : gmap string (list string))
    (recipes : recipe_map) (reqs : list string) : list string :=
  foldl (λ needed n,
           if has_recipe recipes n
           then dfs (S (length recipes)) graph recipes n needed
           else needed)
        [] reqs.

(** [subg = {n: graph.get(n, set()) & needed for n in needed}] *)
Definition build_subg (graph : gmap string (list string))
    (needed : list string) : list (string * list string) :=
  (λ n, (n, filter (λ d, d ∈ needed) (graph_get graph n)))
    <$> iter_order needed.

(** [indeg = {n: 0 for n in needed}], then one increment of [indeg[n]]
    for each [d] in [subg[n]].  The keys of [indeg] are those of [subg],
    so no lookup below can miss. *)
Definition init_indeg (needed : list string)
    (subg : list (string * list string)) : gmap string Z :=
  foldl (λ indeg nds,
           foldl (λ indeg _, alter (λ v, v + 1)%Z nds.1 indeg) indeg nds.2)
        (list_to_map ((λ n, (n, 0%Z)) <$> iter_order needed)) subg.

(** The [for m in subg] loop run after [n] was popped. *)
Definition relax (n : string) (subg : list (string * list string))
    (indeg : gmap string Z) (q : list string)
    : gmap string Z * list string :=
  foldl (λ st mds,
           if bool_decide (n ∈ mds.2) then
             let indeg' := alter (λ v, v - 1)%Z mds.1 st.1 in
             if bool_decide (indeg' !! mds.1 = Some 0%Z)
             then (indeg', st.2 ++ [mds.1])
             else (indeg', st.2)
           else st)
        (indeg, q) subg.

(** The [while q] loop; [None] only when [fuel] iterations were not
    enough to empty the queue. *)
Fixpoint kahn (fuel : nat) (subg : list (string * list string))
    (indeg : gmap string Z) (q out : list string) : option (list string) :=
  match fuel with
  | 0 => None
  | S fuel' =>
      match q with
      | [] => Some out
      | n :: q' =>
          let '(indeg', q'') := relax n subg indeg q' in
          kahn fuel' subg indeg' q'' (out ++ [n])
      end
  end.

Definition topo_sort (reqs : list string) (recipes : recipe_map)
    : option (list string) :=
  let graph := build_graph recipes in
  let needed := compute_needed graph recipes reqs in
  let subg := build_subg graph needed in
  let indeg := init_indeg needed subg in
  let q := filter (λ n, indeg !! n = Some 0%Z) (iter_order needed) in
  kahn (S (length needed)) subg indeg q [].
End Resolver.

(** The recipes of the examples: only the name and the dependencies matter. *)
Definition simple_recipe (name : string) (runtime_deps build_deps : list string)
    : Recipe.t :=
  Recipe.mk name "1" ∅ [] [] [] [] runtime_deps build_deps [] [].

Definition recipes_of (rs : list Recipe.t) : recipe_map :=
  (λ r, (Recipe.name r, r)) <$> rs.

Definition insertion_order (l : list string) : list string := l.

(** ** Vocabulary of the properties *)

(** Descending keys: every element is followed only by elements whose key
    is not larger. *)
Definition descending {A} (key : A → nat) : list A → Prop :=
  StronglySorted (λ a b, (key b ≤ key a)%nat).

(** [q] is an installed package whose recorded runtime dependencies name [p]. *)
Definition is_dependent (db : gmap string PackageRecord.t) (p q : string) : Prop :=
  ∃ rq, db !! q = Some rq ∧ p ∈ PackageRecord.runtime_deps rq.

(** [a] is a dependency of [b]: [b]'s recipe lists [a] in [runtime_deps] or
    [build_deps]. *)
Definition dep_of (recipes : list (string * Recipe.t)) (a b : string) : Prop :=
  ∃ r, (b, r) ∈ recipes ∧
       (a ∈ Recipe.runtime_deps r ∨ a ∈ Recipe.build_deps r).

(** An edge of the dependency graph the resolver follows: from [b] to a
    dependency [a] that has a recipe. *)
Definition edge (recipes : list (string * Recipe.t)) (b a : string) : Prop :=
  dep_of recipes a b ∧ a ∈ recipes.*1.

(** [m] is needed for [reqs]: reachable from a requested name with a recipe. *)
Definition needed_for (recipes : list (string * Recipe.t)) (reqs : list string)
    (m : string) : Prop :=
  ∃ t, t ∈ reqs ∧ t ∈ recipes.*1 ∧ rtc (edge recipes) t m.

(** [m] lies on a dependency cycle. *)
Definition on_cycle (recipes : list (string * Recipe.t)) (m : string) : Prop :=
  tc (edge recipes) m m.

(** [m] can be ordered: every chain of dependencies from [m] ends. *)
Inductive resolvable (recipes : list (string * Recipe.t)) : string → Prop :=
  | resolvable_intro b :
      (∀ a, edge recipes b a → resolvable recipes a) → resolvable recipes b.

(** [a] occurs in [out] at an earlier position than [b]. *)
Definition strictly_before (out : list string) (a b : string) : Prop :=
  ∃ i j, out !! i = Some a ∧ out !! j = Some b ∧ (i < j)%nat.

(** An edge as the code sees it: through [graph.get] and [in recipes]. *)
Definition graph_edge (graph : gmap string (list string))
    (recipes : list (string * Recipe.t)) (b a : string) : Prop :=
  a ∈ graph_get graph b ∧ a ∈ recipes.*1.

(** The recipe names not yet in [needed]: what bounds the recursion of [dfs]. *)
Definition unvisited_recipes (recipes : list (string * Recipe.t))
    (needed : list string) : nat :=
  length (filter (λ k, k ∉ needed) recipes.*1).

(** [gray] are the names whose dependencies [dfs] is still visiting; every
    other name in [needed] has all its edges inside [needed]. *)
Definition closed_except_for (graph : gmap string (list string))
    (recipes : list (string * Recipe.t)) (gray : string → Prop)
    (V : list string) : Prop :=
  ∀ b a, b ∈ V → ¬ gray b → graph_edge graph recipes b a → a ∈ V.

(** [subg[m]]: the dependencies of [m] inside [needed]. *)
Definition sub_deps (graph : gmap string (list string)) (needed : list string)
    (m : string) : list string :=
  filter (λ d, d ∈ needed) (graph_get graph m).

(** The invariant of the [while q] loop of [topo_sort]: no name is queued
    or emitted twice; [indeg[m]] counts the dependencies of [m] not yet
    emitted; the names with count zero are exactly those queued or
    emitted; every emitted name comes after all its dependencies. *)
Record kahn_invariant (order : list string) (sdeps : string → list string)
    (indeg : gmap string Z) (q out : list string) : Prop := {
  ki_nodup : NoDup (out ++ q);
  ki_known : ∀ m, m ∈ out ++ q → m ∈ order;
  ki_indeg : ∀ m, m ∈ order →
    indeg !! m = Some (Z.of_nat (length (filter (λ d, d ∉ out) (sdeps m))));
  ki_ready : ∀ m, m ∈ order → (m ∈ out ++ q ↔ indeg !! m = Some 0%Z);
  ki_sorted : ∀ i m, out !! i = Some m →
    ∀ d, d ∈ sdeps m → ∃ j, (j < i)%nat ∧ out !! j = Some d;
}.

(** [c] occurs in [s]. *)
Fixpoint has_char (c : ascii) (s : string) : bool :=
  match s with
  | EmptyString => false
  | String c' s' => Ascii.eqb c' c || has_char c s'
  end.

(** The text [${k}] of a reference to [k]. *)
Definition reference (k : string) : string := "${" +:+ k +:+ "}".

(** A string value written as plain text and references. *)
Inductive piece :=
  | Text (t : string)
  | Ref (k : string).

Definition render_piece (p : piece) : string :=
  match p with
  | Text t => t
  | Ref k => reference k
  end.

Fixpoint render (ps : list piece) : string :=
  match ps with
  | [] => ""
  | p :: ps' => render_piece p +:+ render ps'
  end.

(** A key can be referred to when it is not empty and has no closing brace. *)
Definition valid_key (k : string) : Prop :=
  k ≠ "" ∧ has_char "}" k = false.

(** Every dollar sign of [t] is followed, inside [t], by a character that
    does not satisfy [trigger]. *)
Fixpoint dollars_not_before (trigger : ascii → bool) (t : string) : bool :=
  match t with
  | EmptyString => true
  | String c t' =>
      (if Ascii.eqb c "$"
       then match t' with
            | String c' _ => negb (trigger c')
            | EmptyString => false
            end
       else true)
      && dollars_not_before trigger t'
  end.

(** What can start a reference after a dollar sign: an opening brace for
    [_expand_with]; an opening brace or a word character for
    [os.path.expandvars]. *)
Definition brace (c : ascii) : bool := Ascii.eqb c "{".
Definition brace_or_word (c : ascii) : bool := brace c || Py.is_word c.

(** Text in which no reference can start, whatever follows it. *)
Definition wf_piece (trigger : ascii → bool) (p : piece) : Prop :=
  match p with
  | Text t => dollars_not_before trigger t = true
  | Ref k => valid_key k
  end.

(** What expansion is specified to do with a piece: text stays; a reference
    to a defined key becomes its value; a reference to an undefined key
    stays as it is written. *)
Definition substitute_piece (env : gmap string string) (p : piece) : string :=
  match p with
  | Text t => t
  | Ref k =>
      match env !! k with
      | Some v => v
      | None => reference k
      end
  end.

Fixpoint substitute (env : gmap string string) (ps : list piece) : string :=
  match ps with
  | [] => ""
  | p :: ps' => substitute_piece env p +:+ substitute env ps'
  end.

(** Any string cut into pieces where the pattern of [_expand_with]
    matches, scanning as [re.sub] does: each match is a reference, each
    character outside a match is a text of its own. *)
Fixpoint tokenize (skip : nat) (s : string) : list piece :=
  match s with
  | EmptyString => []
  | String c s' =>
      match skip with
      | S skip' => tokenize skip' s'
      | O =>
          match match_reference s with
          | Some (len, k) => Ref k :: tokenize (len - 1) s'
          | None => Text (String c "") :: tokenize 0 s'
          end
      end
  end.

Definition scanned_piece (p : piece) : Prop :=
  match p with
  | Text t => String.length t = 1%nat
  | Ref k => valid_key k
  end.

(** [s] begins with an opening brace. *)
Definition starts_with_brace (s : string) : bool :=
  match s with
  | String c _ => brace c
  | EmptyString => false
  end.

(** Every dollar sign of [v] is followed, inside [v], by a character, and
    every dollar sign with an opening brace behind it by a closing brace
    further on: [v] does not end in a dollar sign and no [${] of it is left
    open. *)
Fixpoint dollars_closed (v : string) : bool :=
  match v with
  | EmptyString => true
  | String c v' =>
      (if Ascii.eqb c "$"
       then match v' with
            | String c' rest => if brace c' then has_char "}" rest else true
            | EmptyString => false
            end
       else true)
      && dollars_closed v'
  end.

(** The keys referred to in [s], as the pattern of [_expand_with] finds them. *)
Definition references (s : string) : list string :=
  Py.re_findall match_reference 0 s.

(** A value that expansion leaves as it is and that cannot form a reference
    with the text around it: it is not empty, does not begin with an
    opening brace, does not end in a dollar sign, leaves no [${] open, and
    refers to no key of the environment. *)
Definition stable_value (env : gmap string string) (v : string) : Prop :=
  v ≠ ""
  ∧ starts_with_brace v = false
  ∧ dollars_closed v = true
  ∧ ∀ k, k ∈ references v → env !! k = None.

(** The string values of a document, in document order. *)
Fixpoint strings_of (obj : yaml) : list string :=
  match obj with
  | YStr s => [s]
  | YList items => mjoin (strings_of <$> items)
  | YDict items => mjoin ((λ kv, strings_of kv.2) <$> items)
  | YScalar _ => []
  end.

(** A directory entry that counts for the build root: a directory whose
    name does not begin with a dot. *)
Definition visible_dir (e : dir_entry) : Prop :=
  entry_is_dir e = true ∧ ∀ rest, entry_name e ≠ String "." rest.

(** ** Example data *)

(** A file system that only records which paths were processed, in order. *)
Definition log_removal (f : string) (fs : list string)
    : list string * list event :=
  (fs ++ [f], []).

Definition rec_p : PackageRecord.t :=
  PackageRecord.mk "p" "1.0"
    ["/usr/bin/p"; "/usr/share/doc/p/README"; "/usr/lib/libp.so"] [] [] [].

Definition rec_q : PackageRecord.t :=
  PackageRecord.mk "q" "2.1" ["/usr/bin/q"] ["p"] [] [].

(** [p] then [q] installed, [q] depending on [p] at run time. *)
Definition db_pq : gmap string PackageRecord.t :=
  DB_set rec_q (DB_set rec_p ∅).

(** The recipes of the specification's ordering example: [a] without
    dependencies, [b] on [a], [c] on [a] and [b]. *)
Definition recipes_abc : list (string * Recipe.t) :=
  recipes_of [ simple_recipe "a" [] [];
               simple_recipe "b" ["a"] [];
               simple_recipe "c" ["a"; "b"] [] ].

(** A cycle [x -> y -> x] beside a leaf [a]; [c] needs both. *)
Definition recipes_cyclic : list (string * Recipe.t) :=
  recipes_of [ simple_recipe "c" ["a"; "x"] [];
               simple_recipe "a" [] [];
               simple_recipe "x" ["y"] [];
               simple_recipe "y" [] ["x"] ].

(** The environment of the specification's expansion example, [A] also set
    (differently) in the process environment, [B] set nowhere. *)
Definition environ_example : gmap string string :=
  <["A" := "from the shell"]> (<["HOME" := "/root"]> ∅).

Definition vars_example : gmap string string := <["A" := "x"]> ∅.

(** Two values without any reference that form one when put side by side. *)
Definition env_dollar : gmap string string :=
  <["A" := "$"]> (<["B" := "y"]> ∅).

(** A recipe with one [curl] source that declares a hash, and two worlds:
    in the first the downloaded file has another digest, in the second the
    declared one. *)
Definition zlib_source : source :=
  {| src_type := Some "curl";
     src_url := "https://zlib.net/zlib-1.3.1.tar.xz";
     src_filename := Some "zlib-1.3.1.tar.xz";
     src_hash := Some "sha256:38ef96b8";
     src_ref := None;
     src_dir := None |}.

Definition zlib_recipe : Recipe.t :=
  Recipe.mk "zlib" "1.3.1" ∅ [zlib_source] [] [] [] [] [] ["zlib"] [].

Definition world_with_digest (digest : string) : world :=
  {| curl_status := λ _ _, 0%Z;
     git_status := λ _ _ _, 0%Z;
     downloaded_digest :=
       λ algo _, if String.eqb algo "sha256" then Some digest else None;
     extract_error := λ _ _, None |}.

(** Three listings of a source directory: one visible subdirectory beside
    a hidden one and a file; only a hidden directory and a file; two visible
    subdirectories. *)
Definition listing_one : list dir_entry :=
  [ {| entry_name := ".git"; entry_is_dir := true |};
    {| entry_name := "zlib-1.3.1.tar.xz"; entry_is_dir := false |};
    {| entry_name := "zlib-1.3.1"; entry_is_dir := true |} ].

Definition listing_none : list dir_entry :=
  [ {| entry_name := ".cache"; entry_is_dir := true |};
    {| entry_name := "notes.txt"; entry_is_dir := false |} ].

Definition listing_two : list dir_entry :=
  [ {| entry_name := "a"; entry_is_dir := true |};
    {| entry_name := ".hidden"; entry_is_dir := true |};
    {| entry_name := "b"; entry_is_dir := true |} ].

(** ** Further vocabulary and example data *)

(** The four components of what [uninstall] yields. *)
Definition exit_of {FS} (r : exit * list event * gmap string PackageRecord.t * FS)
    : exit := r.1.1.1.
Definition registry_of {FS}
    (r : exit * list event * gmap string PackageRecord.t * FS)
    : gmap string PackageRecord.t := r.1.2.
Definition files_of {FS} (r : exit * list event * gmap string PackageRecord.t * FS)
    : FS := r.2.

(** A package that records itself among its runtime dependencies. *)
Definition rec_self : PackageRecord.t :=
  PackageRecord.mk "s" "0.1" ["/usr/bin/s"] ["s"] [] [].

Definition db_self : gmap string PackageRecord.t := DB_set rec_self ∅.

(** Consecutive names of [l] are joined by dependency edges. *)
Fixpoint chain (recipes : list (string * Recipe.t)) (l : list string) : Prop :=
  match l with
  | b :: ((a :: _) as l') => edge recipes b a ∧ chain recipes l'
  | _ => True
  end.

(** Every character of [s] is a word character. *)
Fixpoint all_word (s : string) : bool :=
  match s with
  | EmptyString => true
  | String c s' => Py.is_word c && all_word s'
  end.

(** A value that refers to a key the environment does not define, beside
    text with dollar signs that start no reference. *)
Definition env_open_reference : gmap string string :=
  <["A" := "${Z}/$(nproc) $x ${}"]> (<["B" := "y"]> ∅).

(** A value that itself refers to another defined key. *)
Definition env_chained : gmap string string :=
  <["A" := "${B}"]> (<["B" := "y"]> ∅).

(** A source of a type the code does not know, a [curl] source whose hash
    names no algorithm, and one whose algorithm [hashlib] does not have. *)
Definition svn_source : source :=
  {| src_type := Some "svn";
     src_url := "svn://example.org/tool/trunk";
     src_filename := None;
     src_hash := None;
     src_ref := None;
     src_dir := None |}.



(** A recipe whose second source is of the unknown type. *)
Definition mixed_recipe : Recipe.t :=
  Recipe.mk "tool" "2.0" ∅ [zlib_source; svn_source; zlib_source]
    [] [] [] [] [] [] [].


(** The last component of a URL, for the examples. *)
Definition url_basename (url : string) : string :=
  default "" (last (Py.split "/" url)).

(** A recipe document in which no string has a dollar sign, but a key has. *)
Definition plain_document : yaml :=
  YDict [("name", YStr "zlib");
         ("version", YScalar "1.3");
         ("${name}-steps", YList [YStr "./configure --prefix=/usr"; YStr "make"])].

(** ** Building and installing *)

(** The directories of the tool, fixed when the module is loaded. *)
Record dirs := {
  BASE : Path;
  RECIPES_DIR : Path;
  WORK_DIR : Path;
  PKG_DIR : Path;
  LOG_DIR : Path;
}.

(** The command lines [do_build] has [run] execute: a line of the recipe's
    [build] or [install] list, run by the shell in [cwd] with [env] added to
    the environment and the output written to [log]; [patch -p1 < patch] in
    [cwd]; and [tar -C destdir -I 'zstd -19 -T0' -cf pkgpath .]. *)
Inductive command :=
  | RecipeLine (cmd : string) (cwd log : Path) (env : list (string * string))
  | PatchP1 (patch cwd : Path)
  | TarPackage (destdir pkgpath : Path).

(** What a build does to the world, in order: an action of the fetch stage
    (also the download of a patch), [mkdir(parents=True, exist_ok=True)],
    [shutil.rmtree] or the clean-up of a temporary directory, a [run], and
    [shutil.copy2].  Console output is left out, and so are the errors of
    the operating system, as in the fetch stage. *)
Inductive step :=
  | Fetching (a : action)
  | MakeDirs (dir : Path)
  | RemoveTree (dir : Path)
  | Run (c : command)
  | Copy (src dst : Path).

(** The world a build runs in: the world of the fetch stage; what
    [work.exists()] says; what [srcdir.iterdir()] lists once the sources are
    fetched; the names of the files [d.glob('*.patch')] yields; the
    directory [tempfile.TemporaryDirectory()] hands out and the return code
    of a command, which may depend on everything done before; and what
    [os.walk(destdir)] yields, each walked directory given relative to
    [destdir] (the empty path for [destdir] itself, where [relroot] is
    a single dot). *)
Record build_world := {
  fetch_world : world;
  path_exists : Path → bool;
  iterdir : Path → list dir_entry;
  glob_patch : Path → list string;
  mkdtemp : list step → Path;
  returncode : list step → command → Z;
  os_walk : Path → list (Path * list string * list string);
}.

(** The steps done so far and the registry. *)
Record build_state := {
  steps : list step;
  installed : gmap string PackageRecord.t;
}.

(** A computation that acts on the world and the registry, and may raise. *)
Definition builder (A : Type) : Type := build_state → build_state * (error + A).

Definition builder_ret {A} (a : A) : builder A := λ st, (st, inr a).

Definition builder_bind {A B} (k : A → builder B) (m : builder A) : builder B :=
  λ st,
    match m st with
    | (st1, inl e) => (st1, inl e)
    | (st1, inr a) => k a st1
    end.

#[local] Instance builder_mret : MRet builder := @builder_ret.
#[local] Instance builder_mbind : MBind builder := @builder_bind.

Definition builder_do (s : step) : builder unit :=
  λ st, ({| steps := steps st ++ [s]; installed := installed st |}, inr tt).

(** A stage of fetching, run inside a build. *)
Definition builder_stage {A} (m : stage A) : builder A :=
  λ st,
    ({| steps := steps st ++ (Fetching <$> m.1); installed := installed st |},
     m.2).

(** [try: body finally: cleanup], for a [cleanup] that does not raise. *)
Definition builder_finally {A} (body : builder A) (cleanup : builder unit)
    : builder A :=
  λ st, let '(st1, r) := body st in ((cleanup st1).1, r).

(** A [for] loop whose body may raise. *)
Fixpoint builder_for {A} (body : A → builder unit) (l : list A) : builder unit :=
  match l with
  | [] => mret tt
  | x :: l' => body x ;; builder_for body l'
  end.

(** A loop that collects what each round appends to a list. *)
Fixpoint builder_collect {A B} (body : A → builder (list B)) (l : list A)
    : builder (list B) :=
  match l with
  | [] => mret []
  | x :: l' =>
      here ← body x; rest ← builder_collect body l'; mret (here ++ rest)
  end.

(** [DBI.set(rec)] *)
Definition builder_set (rec : PackageRecord.t) : builder unit :=
  λ st, ({| steps := steps st; installed := DB_set rec (installed st) |}, inr tt).

(** [str] of an absolute path [Path('/')/...]. *)
Definition path_str (p : Path) : string :=
  match p with
  | "/" :: rest => "/" +:+ Py.join "/" rest
  | _ => Py.join "/" p
  end.

(** [f"{kind}-{i:02d}.log"] *)
Definition log_name (kind : string) (i : nat) : string :=
  kind +:+ "-" +:+ (if (i <? 10)%nat then "0" else "")
    +:+ NilZero.string_of_uint (Nat.to_uint i) +:+ ".log".

(** [enumerate(l)] *)
Definition enumerate {A} (l : list A) : list (nat * A) := imap (λ i x, (i, x)) l.

Section Build.
(** [Path(s)], [Path(url).name] and [Path(url).stem] are [pathlib]'s. *)
Variable path_of : string → Path.
Variable path_name : string → string.
Variable path_stem : string → string.
Variable D : dirs.
Variable w : build_world.

Definition ensure_dirs : builder unit :=
  builder_for (λ d, builder_do (MakeDirs d))
    [BASE D; RECIPES_DIR D; WORK_DIR D; PKG_DIR D; LOG_DIR D].

Definition stage_paths (name version : string)
    : Path * Path * Path * Path * Path :=
  let work := WORK_DIR D ++ [name +:+ "-" +:+ version] in
  (work, work ++ ["src"], work ++ ["build"], work ++ ["destdir"],
   LOG_DIR D ++ [name]).

(** [run]: [SystemExit] with the return code when it is not 0. *)
Definition run (c : command) : builder unit :=
  λ st,
    let rc := returncode w (steps st) c in
    builder_bind
      (λ _, if (rc =? 0)%Z then builder_ret tt
            else λ st', (st', inl (ExitStatus rc)))
      (builder_do (Run c)) st.

Definition apply_patch_file (patch cwd : Path) : builder unit :=
  run (PatchP1 patch cwd).

(** [with tempfile.TemporaryDirectory() as td: body] *)
Definition with_temporary_directory {A} (body : Path → builder A) : builder A :=
  λ st,
    let td := mkdtemp w (steps st) in
    builder_bind
      (λ _, builder_finally (body td) (builder_do (RemoveTree td)))
      (builder_do (MakeDirs td)) st.

Definition apply_patch (cwd : Path) (p : patch) : builder unit :=
  match p with
  | PatchUrl url =>
      with_temporary_directory (λ td,
        let tmp := td ++ [path_name url] in
        builder_stage (download_to (fetch_world w) url tmp) ;;
        apply_patch_file tmp cwd)
  | PatchDir dir =>
      let d := path_of (_expand_with ∅ dir) in
      builder_for (λ f, apply_patch_file (d ++ [f]) cwd)
        (Py.sorted (glob_patch w d))
  | PatchFile p => apply_patch_file (path_of p) cwd
  end.

Definition apply_patches (patches : list patch) (cwd : Path) : builder unit :=
  builder_for (apply_patch cwd) patches.

(** The numbered runs of a list of recipe lines. *)
Definition run_lines (kind : string) (lines : list string)
    (root logdir : Path) (env : list (string * string)) : builder unit :=
  builder_for
    (λ ic, run (RecipeLine ic.2 root (logdir ++ [log_name kind ic.1]) env))
    (enumerate lines).

(** One round of the [os.walk] loop: [relroot] is the walked directory
    relative to [destdir], empty for [destdir] itself. *)
Definition install_walked (destdir : Path)
    (walked : Path * list string * list string) : builder (list string) :=
  let '(relroot, dirs, files) := walked in
  builder_for (λ d, builder_do (MakeDirs (["/"] ++ relroot ++ [d]))) dirs ;;
  builder_collect
    (λ f,
       let src := destdir ++ relroot ++ [f] in
       let dst := ["/"] ++ relroot ++ [f] in
       builder_do (MakeDirs (removelast dst)) ;;
       builder_do (Copy src dst) ;;
       mret [path_str dst])
    files.

(** The record [do_build] stores for a recipe. *)
Definition record_of (recipe : Recipe.t) (filelist : list string)
    : PackageRecord.t :=
  PackageRecord.mk (Recipe.name recipe) (Recipe.version recipe) filelist
    (Recipe.runtime_deps recipe) (Recipe.build_deps recipe)
    (Recipe.provides recipe).

(** [do_build] after the build commands, when [install] is set. *)
Definition install_built (recipe : Recipe.t) (root destdir logdir : Path)
    (env : list (string * string)) : builder unit :=
  run_lines "install" (Recipe.install recipe) root logdir env ;;
  run (TarPackage destdir
         (PKG_DIR D
            ++ [Recipe.name recipe +:+ "-" +:+ Recipe.version recipe
                  +:+ ".tar.zst"])) ;;
  filelist ← builder_collect (install_walked destdir) (os_walk w destdir);
  builder_set (record_of recipe filelist).

Definition do_build (recipe : Recipe.t) (install : bool) : builder unit :=
  let '(work, srcdir, builddir, destdir, logdir) :=
    stage_paths (Recipe.name recipe) (Recipe.version recipe) in
  let root := pick_build_root srcdir (iterdir w srcdir) in
  let env :=
    [("DESTDIR", path_str destdir); ("PREFIX", "/usr");
     ("PKG_CONFIG_PATH", "/usr/lib/pkgconfig:/usr/share/pkgconfig")] in
  ensure_dirs ;;
  (if path_exists w work then builder_do (RemoveTree work) else mret tt) ;;
  builder_do (MakeDirs srcdir) ;;
  builder_stage
    (fetch_sources path_name path_stem (fetch_world w) recipe srcdir) ;;
  apply_patches (Recipe.patches recipe) root ;;
  builder_do (MakeDirs builddir) ;;
  run_lines "build" (Recipe.build recipe) root logdir env ;;
  if install then install_built recipe root destdir logdir env else mret tt.
End Build.

(** The files a list of steps copied into the system, as [str] of where
    each went. *)
Definition copied_files (new : list step) : list string :=
  omap (λ s, match s with Copy _ dst => Some (path_str dst) | _ => None end) new.

(** A computation that leaves the registry alone and copies nothing into
    the system. *)
Definition quiet {A} (m : builder A) : Prop :=
  ∀ st,
    installed (m st).1 = installed st
    ∧ ∃ new, steps (m st).1 = steps st ++ new ∧ copied_files new = [].

(** A computation that leaves the registry alone, does not raise, and
    yields the files it copied. *)
Definition copying (m : builder (list string)) : Prop :=
  ∀ st,
    installed (m st).1 = installed st
    ∧ ∃ new, steps (m st).1 = steps st ++ new ∧ (m st).2 = inr (copied_files new).

(** What a build leaves behind: either it was to install and returned,
    and the registry holds the recipe's record with the files copied; or it
    was not to install or raised, and registry and system are as before. *)
Definition build_outcome (recipe : Recipe.t) (install : bool)
    (m : builder unit) : Prop :=
  ∀ st,
    ∃ new,
      steps (m st).1 = steps st ++ new
      ∧ ((install = true
          ∧ (m st).2 = inr tt
          ∧ installed (m st).1
            = DB_set (record_of recipe (copied_files new)) (installed st))
         ∨ ((install = false ∨ ∃ e, (m st).2 = inl e)
            ∧ installed (m st).1 = installed st
            ∧ copied_files new = [])).

(** A build world for the examples: nothing exists yet, the sources unpack
    into one directory, [make] fails when [make_status] is not 0, and the
    staged tree holds one program. *)
Definition build_world_example (make_status : Z) : build_world :=
  {| fetch_world := world_with_digest "38ef96b8";
     path_exists := λ _, false;
     iterdir := λ _, listing_one;
     glob_patch := λ _, [];
     mkdtemp := λ _, ["/"; "tmp"; "tmpq1w2e3"];
     returncode :=
       λ _ c, match c with
              | RecipeLine "make" _ _ _ => make_status
              | _ => 0%Z
              end;
     os_walk :=
       λ _, [([], ["usr"], []); (["usr"], ["bin"], []);
             (["usr"; "bin"], [], ["zlib-demo"])] |}.

Definition dirs_example : dirs :=
  {| BASE := ["/"; "var"; "spell"];
     RECIPES_DIR := ["/"; "var"; "spell"; "recipes"];
     WORK_DIR := ["/"; "var"; "spell"; "work"];
     PKG_DIR := ["/"; "var"; "spell"; "pkgs"];
     LOG_DIR := ["/"; "var"; "spell"; "logs"] |}.

Definition zlib_build_recipe : Recipe.t :=
  Recipe.mk "zlib" "1.3.1" ∅ [zlib_source] []
    ["./configure --prefix=/usr"; "make"] ["make install"] [] [] ["zlib"] [].

Definition state_pq : build_state := {| steps := []; installed := db_pq |}.

(** The same world with a staged tree that holds a file at its top and a
    program two directories down. *)
Definition build_world_two_files (make_status : Z) : build_world :=
  {| fetch_world := fetch_world (build_world_example make_status);
     path_exists := path_exists (build_world_example make_status);
     iterdir := iterdir (build_world_example make_status);
     glob_patch := glob_patch (build_world_example make_status);
     mkdtemp := mkdtemp (build_world_example make_status);
     returncode := returncode (build_world_example make_status);
     os_walk :=
       λ _, [([], ["usr"], ["README"]); (["usr"], ["bin"], []);
             (["usr"; "bin"], [], ["zlib-demo"])] |}.

(** A registry in which [zlib] is not installed. *)
Definition state_empty : build_state := {| steps := []; installed := ∅ |}.



(** The number of path segments as the specification counts them: one
    more than the number of slashes. *)
Fixpoint slashes (f : string) : nat :=
  match f with
  | EmptyString => 0
  | String c f' => (if Ascii.eqb c "/" then 1 else 0) + slashes f'
  end.

Definition segment_count (f : string) : nat := S (slashes f).

(* ===================================================================== *)
(** * Part II.  Properties                                                *)
(* ===================================================================== *)

(** ** Python built-ins *)

Lemma elem_of_sorted (x : string) (l : list string) : x ∈ Py.sorted l ↔ x ∈ l.
Proof. unfold Py.sorted. by rewrite merge_sort_Permutation. Qed.

Lemma sorted_Sorted (l : list string) : Sorted String.le (Py.sorted l).
Proof. apply (Sorted_merge_sort String.le). Qed.

Lemma NoDup_sorted (l : list string) : NoDup l → NoDup (Py.sorted l).
Proof. unfold Py.sorted. by rewrite merge_sort_Permutation. Qed.

Lemma insert_desc_Permutation {A} (key : A → nat) x l :
  Py.insert_desc key x l ≡ₚ x :: l.
Proof.
  induction l as [|y l IH]; simpl; [done|].
  destruct (key x <? key y)%nat; [|done].
  rewrite IH. apply Permutation_swap.
Qed.

Lemma sorted_key_reverse_Permutation {A} (key : A → nat) l :
  Py.sorted_key_reverse key l ≡ₚ l.
Proof.
  induction l as [|x l IH]; simpl; [done|].
  by rewrite insert_desc_Permutation, IH.
Qed.

Lemma insert_desc_descending {A} (key : A → nat) x l :
  descending key l → descending key (Py.insert_desc key x l).
Proof.
  unfold descending. induction l as [|y l IH]; simpl; intros Hl.
  { repeat constructor. }
  apply StronglySorted_cons in Hl as [Hy Hl].
  destruct (key x <? key y)%nat eqn:Hlt.
  - apply Nat.ltb_lt in Hlt. apply StronglySorted_cons. split; [|by apply IH].
    rewrite insert_desc_Permutation. constructor; [lia|done].
  - apply Nat.ltb_ge in Hlt. apply StronglySorted_cons. split.
    + constructor; [done|]. eapply Forall_impl; [exact Hy|]. simpl. lia.
    + by apply StronglySorted_cons.
Qed.

Lemma sorted_key_reverse_descending {A} (key : A → nat) l :
  descending key (Py.sorted_key_reverse key l).
Proof.
  induction l as [|x l IH]; simpl; [constructor|].
  by apply insert_desc_descending.
Qed.

Lemma descending_lookup {A} (key : A → nat) l i j a b :
  descending key l → l !! i = Some a → l !! j = Some b →
  (key b < key a)%nat → (i < j)%nat.
Proof.
  unfold descending. revert i j. induction l as [|x l IH]; intros i j Hs Hi Hj Hk.
  { by rewrite lookup_nil in Hi. }
  apply StronglySorted_cons in Hs as [Hx Hs].
  destruct i as [|i], j as [|j]; simpl in *.
  - simplify_eq. lia.
  - lia.
  - simplify_eq. rewrite Forall_forall in Hx.
    assert (key a ≤ key b)%nat by (apply Hx; by eapply list_elem_of_lookup_2).
    lia.
  - apply Nat.succ_lt_mono with (n:=i) (m:=j). eauto.
Qed.

(** ** The registry: reverse dependencies *)

Lemma add_dependent_fold pkg (ds : list string) (rev : gmap string (gset string)) t :
  foldl (add_dependent pkg) rev ds !! t =
    (λ s, if decide (t ∈ ds) then s ∪ {[pkg]} else s) <$> rev !! t.
Proof.
  revert rev. induction ds as [|d ds IH]; intros rev; simpl.
  { by destruct (rev !! t). }
  rewrite IH. unfold add_dependent. rewrite lookup_alter.
  destruct (decide (d = t)) as [->|Hne];
    destruct (rev !! t) as [s|]; simpl; try done; f_equal;
    repeat case_decide; set_solver.
Qed.

Lemma reverse_index_fold (items : list (string * PackageRecord.t))
    (rev : gmap string (gset string)) t s :
  rev !! t = Some s →
  ∃ s', foldl (λ rev kv, foldl (add_dependent kv.1) rev
                               (PackageRecord.runtime_deps kv.2)) rev items !! t
        = Some s' ∧
    ∀ q, q ∈ s' ↔ q ∈ s ∨ ∃ rq, (q, rq) ∈ items ∧ t ∈ PackageRecord.runtime_deps rq.
Proof.
  revert rev s. induction items as [|[k r] items IH]; intros rev s Hrev; simpl.
  { exists s. split; [done|]. intros q. split; [by left|].
    intros [?|(rq & Hin & _)]; [done|]. by apply elem_of_nil in Hin. }
  destruct (IH (foldl (add_dependent k) rev (PackageRecord.runtime_deps r))
              (if decide (t ∈ PackageRecord.runtime_deps r) then s ∪ {[k]} else s))
    as (s' & Hs' & Hmem).
  { rewrite add_dependent_fold, Hrev. done. }
  exists s'. split; [done|]. intros q. rewrite Hmem. split.
  - intros [Hq|(rq & Hin & Ht)].
    + destruct (decide (t ∈ PackageRecord.runtime_deps r)); [|by left].
      apply elem_of_union in Hq as [Hq|Hq]; [by left|].
      apply elem_of_singleton in Hq as ->. right. exists r. split; [left|done].
    + right. exists rq. split; [by right|done].
  - intros [Hq|(rq & Hin & Ht)].
    + left. destruct (decide _); set_solver.
    + apply elem_of_cons in Hin as [Heq|Hin].
      * simplify_eq. left. rewrite decide_True by done. set_solver.
      * right. by exists rq.
Qed.

Lemma reverse_deps_spec (db : gmap string PackageRecord.t) p q :
  is_Some (db !! p) →
  q ∈ (reverse_deps db [p] !!! p : gset string) ↔ is_dependent db p q.
Proof.
  intros [rec Hp]. unfold reverse_deps, DB_all. simpl.
  rewrite lookup_total_insert_eq.
  destruct (reverse_index_fold (map_to_list db) ((λ _, ∅) <$> db) p ∅)
    as (s' & -> & Hmem).
  { by rewrite lookup_fmap, Hp. }
  simpl. rewrite Hmem. unfold is_dependent. split.
  - intros [Hq|(rq & Hin & Ht)]; [set_solver|].
    exists rq. by apply elem_of_map_to_list in Hin.
  - intros (rq & Hq & Ht). right. exists rq. by rewrite elem_of_map_to_list.
Qed.

Lemma required_fold (items : list (string * PackageRecord.t)) (acc : gset string) x :
  x ∈ foldl (λ req kv, req ∪ list_to_set (PackageRecord.runtime_deps kv.2))
            acc items
  ↔ x ∈ acc ∨ ∃ kv, kv ∈ items ∧ x ∈ PackageRecord.runtime_deps kv.2.
Proof.
  revert acc. induction items as [|kv items IH]; intros acc; simpl.
  { split; [by left|]. intros [?|(kv & Hin & _)]; [done|].
    by apply elem_of_nil in Hin. }
  rewrite IH, elem_of_union, elem_of_list_to_set. split.
  - intros [[?|?]|(kv' & ? & ?)]; [by left| |].
    + right. exists kv. split; [left|done].
    + right. exists kv'. split; [by right|done].
  - intros [?|(kv' & Hin & ?)]; [by left; left|].
    apply elem_of_cons in Hin as [->|Hin]; [by left; right|].
    right. by exists kv'.
Qed.

(** ** Removal *)

Section UninstallFacts.
Context {FS : Type} (remove_file : string → FS → FS * list event).

Lemma uninstall_forced name rec (db : gmap string PackageRecord.t) (fs : FS) :
  db !! name = Some rec →
  uninstall remove_file name true db fs =
    (Returned,
     [Info ("Removendo " +:+ name)]
       ++ (remove_files remove_file fs
             (removal_order (PackageRecord.files rec))).2
       ++ [Ok ("Removido " +:+ name)],
     delete name db,
     (remove_files remove_file fs
        (removal_order (PackageRecord.files rec))).1).
Proof.
  intros Hrec. unfold uninstall, DB_get, DB_remove. rewrite Hrec.
  rewrite andb_false_r. by destruct (remove_files _ _ _).
Qed.

Lemma uninstall_blocked name rec (db : gmap string PackageRecord.t) (fs : FS) q :
  db !! name = Some rec → is_dependent db name q →
  uninstall remove_file name false db fs =
    (SystemExit (blocked_message name (reverse_deps db [name] !!! name)),
     [], db, fs).
Proof.
  intros Hrec Hq. unfold uninstall, DB_get. rewrite Hrec.
  rewrite bool_decide_true; [done|].
  apply (reverse_deps_spec db name q) in Hq; [|by eexists]. set_solver.
Qed.

Lemma uninstall_unblocked name rec (db : gmap string PackageRecord.t) (fs : FS) force :
  db !! name = Some rec →
  force = true ∨ (∀ q, ¬ is_dependent db name q) →
  uninstall remove_file name force db fs =
    (Returned,
     [Info ("Removendo " +:+ name)]
       ++ (remove_files remove_file fs
             (removal_order (PackageRecord.files rec))).2
       ++ [Ok ("Removido " +:+ name)],
     delete name db,
     (remove_files remove_file fs
        (removal_order (PackageRecord.files rec))).1).
Proof.
  intros Hrec [->|Hnone]; [by apply uninstall_forced|].
  unfold uninstall, DB_get, DB_remove. rewrite Hrec.
  rewrite bool_decide_false.
  - by destruct (remove_files _ _ _).
  - intros Hne. apply Hne. apply set_eq. intros q.
    rewrite reverse_deps_spec by (by eexists). set_solver.
Qed.
End UninstallFacts.

(** C3.  For an installed package [p]: when another installed package [q]
    records [p] among its runtime dependencies and [force] is false,
    [uninstall] raises [SystemExit] with a message that names exactly the
    installed dependents of [p] (so [q] among them), and registry and file
    system are unchanged; when [force] is true, [uninstall] returns, [p]'s
    entry is deleted and the entry of every other package, so of every
    dependent, is unchanged. *)
Theorem uninstall_guard {FS} (remove_file : string → FS → FS * list event)
    (db : gmap string PackageRecord.t) (fs : FS) (p : string)
    (rec : PackageRecord.t) :
  db !! p = Some rec →
  (∀ q, q ≠ p → is_dependent db p q →
     ∃ names,
       uninstall remove_file p false db fs =
         (SystemExit ("Não é possível remover " +:+ p +:+ ": requerido por "
                        +:+ Py.join ", " names
                        +:+ ". Use --force para forçar."),
          [], db, fs)
       ∧ q ∈ names
       ∧ ∀ q', q' ∈ names ↔ is_dependent db p q') ∧
  (∃ evs fs',
     uninstall remove_file p true db fs = (Returned, evs, delete p db, fs')
     ∧ delete p db !! p = None
     ∧ ∀ q, q ≠ p → delete p db !! q = db !! q).
Proof.
  intros Hrec. split.
  - intros q _ Hq.
    exists (Py.sorted (elements (reverse_deps db [p] !!! p : gset string))).
    assert (∀ q', q' ∈ Py.sorted (elements (reverse_deps db [p] !!! p : gset string))
                  ↔ is_dependent db p q') as Hnames.
    { intros q'. rewrite elem_of_sorted, elem_of_elements.
      apply reverse_deps_spec. by eexists. }
    split; [|split; [by apply Hnames|done]].
    by apply (uninstall_blocked remove_file p rec db fs q).
  - eexists _, _. split; [by apply uninstall_forced|]. split.
    + apply lookup_delete_eq.
    + intros q Hne. by apply lookup_delete_ne.
Qed.

Lemma uninstall_guard_witness :
  db_pq !! "p" = Some rec_p ∧
  (∃ names,
     uninstall log_removal "p" false db_pq [] =
       (SystemExit ("Não é possível remover " +:+ "p" +:+ ": requerido por "
                      +:+ Py.join ", " names
                      +:+ ". Use --force para forçar."),
        [], db_pq, [])
     ∧ "q" ∈ names
     ∧ ∀ q', q' ∈ names ↔ is_dependent db_pq "p" q') ∧
  (∃ evs fs',
     uninstall log_removal "p" true db_pq [] = (Returned, evs, delete "p" db_pq, fs')
     ∧ delete "p" db_pq !! "p" = None
     ∧ ∀ q, q ≠ "p" → delete "p" db_pq !! q = db_pq !! q).
Proof.
  split; [reflexivity|].
  destruct (uninstall_guard log_removal db_pq [] "p" rec_p eq_refl) as [Hblocked Hforced].
  split; [|exact Hforced].
  apply (Hblocked "q").
  - discriminate.
  - exists rec_q. split; [reflexivity|]. constructor.
Defined.

(** C7.  [find_orphans] returns exactly the installed names that occur in no
    installed record's [runtime_deps]. *)
Theorem find_orphans_exact (db : gmap string PackageRecord.t) (n : string) :
  n ∈ find_orphans db ↔
    is_Some (db !! n) ∧
    ∀ q rq, db !! q = Some rq → n ∉ PackageRecord.runtime_deps rq.
Proof.
  unfold find_orphans, DB_all.
  rewrite elem_of_sorted, elem_of_elements, elem_of_difference,
    elem_of_list_to_set, required_fold.
  split.
  - intros [Hin Hreq]. split.
    + apply list_elem_of_fmap in Hin as ([k r] & -> & Hkr).
      apply elem_of_map_to_list in Hkr. by eexists.
    + intros q rq Hq Hn. apply Hreq. right. exists (q, rq).
      split; [by apply elem_of_map_to_list|done].
  - intros [[r Hr] Hnone]. split.
    + apply list_elem_of_fmap. exists (n, r). split; [done|].
      by apply elem_of_map_to_list.
    + intros [Hempty|([q rq] & Hin & Hn)]; [set_solver|].
      apply elem_of_map_to_list in Hin. by apply (Hnone q rq).
Qed.

Lemma find_orphans_exact_witness :
  "q" ∈ find_orphans db_pq ∧ "p" ∉ find_orphans db_pq.
Proof.
  split.
  - apply (find_orphans_exact db_pq "q"). split; [by exists rec_q|].
    intros q rq Hq.
    destruct (decide (q = "q")) as [->|Hq1].
    { vm_compute in Hq. injection Hq as <-.
      refine (bool_decide_unpack _ _). vm_compute. exact I. }
    destruct (decide (q = "p")) as [->|Hq2].
    { vm_compute in Hq. injection Hq as <-.
      refine (bool_decide_unpack _ _). vm_compute. exact I. }
    unfold db_pq, DB_set in Hq. simpl in Hq.
    rewrite lookup_insert_ne, lookup_insert_ne, lookup_empty in Hq; congruence.
  - intros Hp. apply (find_orphans_exact db_pq "p") in Hp as [_ Hp].
    apply (Hp "q" rec_q); [reflexivity|constructor].
Defined.

(** [len(x.split('/'))] is the number of segments. *)
Lemma depth_segment_count (f : string) : depth f = segment_count f.
Proof.
  unfold depth, segment_count. induction f as [|c f IH]; [done|]. simpl.
  destruct (Ascii.eqb c "/"); simpl; [by rewrite IH|].
  destruct (Py.split "/" f) as [|w ws]; [done|]. exact IH.
Qed.

(** The loop of [uninstall] handles the paths one after the other, from
    the first to the last, each in the file system the one before left. *)
Lemma remove_files_foldl {FS} (remove_file : string → FS → FS * list event)
    (fs : FS) (paths : list string) :
  remove_files remove_file fs paths
  = foldl (λ acc f, ((remove_file f acc.1).1, acc.2 ++ (remove_file f acc.1).2))
          (fs, []) paths.
Proof.
  assert (∀ evs,
            foldl (λ acc f, ((remove_file f acc.1).1,
                               acc.2 ++ (remove_file f acc.1).2))
                  (fs, evs) paths
            = ((remove_files remove_file fs paths).1,
               evs ++ (remove_files remove_file fs paths).2)) as Hgen.
  { revert fs. induction paths as [|f paths IH]; intros fs evs; simpl.
    { by rewrite app_nil_r. }
    rewrite IH. destruct (remove_file f fs) as [fs1 ev1]. simpl.
    destruct (remove_files remove_file fs1 paths) as [fs2 ev2]. simpl.
    by rewrite app_assoc. }
  rewrite (Hgen []). simpl. by destruct (remove_files remove_file fs paths).
Qed.

(** The order of removal: the recorded paths, rearranged so that a path
    with more segments stands before every path with fewer. *)
Lemma removal_order_deepest_first (files : list string) :
  removal_order files ≡ₚ files
  ∧ ∀ i j f g,
      removal_order files !! i = Some f → removal_order files !! j = Some g →
      (segment_count g < segment_count f)%nat → (i < j)%nat.
Proof.
  split; [apply sorted_key_reverse_Permutation|].
  intros i j f g Hi Hj Hd. rewrite <- !depth_segment_count in Hd.
  by apply (descending_lookup depth (removal_order files) i j f g
              (sorted_key_reverse_descending depth _)).
Qed.

(** C8.  When [uninstall] removes an installed package (nothing depends on
    it, or [force]), the recorded paths are handled one after the other,
    each exactly once, in an order that is a rearrangement of the recorded
    list in which a path with more segments -- more slashes -- always comes
    strictly before a path with fewer. *)
Theorem uninstall_deepest_first {FS}
    (remove_file : string → FS → FS * list event)
    (db : gmap string PackageRecord.t) (fs : FS) (name : string) (force : bool)
    (rec : PackageRecord.t) :
  db !! name = Some rec →
  force = true ∨ (∀ q, ¬ is_dependent db name q) →
  ∃ order,
    order ≡ₚ PackageRecord.files rec
    ∧ (∀ i j f g, order !! i = Some f → order !! j = Some g →
                  (segment_count g < segment_count f)%nat → (i < j)%nat)
    ∧ uninstall remove_file name force db fs =
        let handled :=
          foldl (λ acc f, ((remove_file f acc.1).1,
                             acc.2 ++ (remove_file f acc.1).2))
                (fs, []) order in
        (Returned,
         [Info ("Removendo " +:+ name)] ++ handled.2
           ++ [Ok ("Removido " +:+ name)],
         delete name db,
         handled.1).
Proof.
  intros Hrec Hgo. exists (removal_order (PackageRecord.files rec)).
  destruct (removal_order_deepest_first (PackageRecord.files rec))
    as [Hperm Hdeep].
  split; [done|]. split; [done|].
  cbv zeta. rewrite <- remove_files_foldl. by apply uninstall_unblocked.
Qed.

Lemma uninstall_deepest_first_witness :
  (∃ order,
     order ≡ₚ PackageRecord.files rec_p
     ∧ (∀ i j f g, order !! i = Some f → order !! j = Some g →
                   (segment_count g < segment_count f)%nat → (i < j)%nat)
     ∧ uninstall log_removal "p" true db_pq [] =
         let handled :=
           foldl (λ acc f, ((log_removal f acc.1).1,
                              acc.2 ++ (log_removal f acc.1).2))
                 ([], []) order in
         (Returned,
          [Info ("Removendo " +:+ "p")] ++ handled.2
            ++ [Ok ("Removido " +:+ "p")],
          delete "p" db_pq,
          handled.1))
  ∧ PackageRecord.files rec_p
    = ["/usr/bin/p"; "/usr/share/doc/p/README"; "/usr/lib/libp.so"]
  ∧ (uninstall log_removal "p" true db_pq []).2
    = ["/usr/share/doc/p/README"; "/usr/bin/p"; "/usr/lib/libp.so"].
Proof.
  split; [|split; reflexivity].
  apply (uninstall_deepest_first log_removal db_pq [] "p" true rec_p).
  - reflexivity.
  - left. reflexivity.
Defined.

(** The order of the example: the deepest path first; the two paths of
    equal depth keep the order in which they were recorded. *)
Example removal_order_example :
  (uninstall log_removal "p" true db_pq []).2 =
    ["/usr/share/doc/p/README"; "/usr/bin/p"; "/usr/lib/libp.so"].
Proof. vm_compute. reflexivity. Qed.

(** ** Build-root selection *)

Lemma startswith_dot (s : string) :
  Py.startswith s "." = true ↔ ∃ rest, s = String "." rest.
Proof.
  unfold Py.startswith. destruct s as [|c s].
  { split; [done|]. by intros [rest ?]. }
  change (String.prefix "." (String c s))
    with (if ascii_dec "." c then String.prefix "" s else false).
  destruct (ascii_dec "." c) as [<-|Hne].
  - split; [by eexists|]. by destruct s.
  - split; [done|]. intros [rest Heq]. by injection Heq as Hc _.
Qed.

Lemma visible_dir_filter (e : dir_entry) :
  Is_true (entry_is_dir e && negb (Py.startswith (entry_name e) "."))
  ↔ visible_dir e.
Proof.
  unfold visible_dir. rewrite andb_True, negb_True, Is_true_true. split.
  - intros [Hd Hs]. split; [done|]. intros rest Heq. apply Hs.
    apply Is_true_true, startswith_dot. by exists rest.
  - intros [Hd Hs]. split; [done|]. intros Hp.
    apply Is_true_true, startswith_dot in Hp as [rest Hp]. by apply (Hs rest).
Qed.

Lemma filter_none_visible (l : list dir_entry) :
  (∀ e, e ∈ l → ¬ visible_dir e) →
  filter (λ p, entry_is_dir p && negb (Py.startswith (entry_name p) ".")) l = [].
Proof.
  intros Hnone. induction l as [|e l IH]; [done|].
  rewrite filter_cons_False.
  - apply IH. intros e' He'. apply Hnone. by right.
  - rewrite visible_dir_filter. apply Hnone. left.
Qed.

(** C10.  Build-root selection looks only at the entries that are
    directories with a name not starting with a dot: with exactly one such
    entry the root is that subdirectory; with none, or with two or more,
    it is the source directory itself -- whatever other entries exist. *)
Theorem pick_build_root_spec (srcdir : list string) (listing : list dir_entry) :
  (∀ l1 d l2,
     listing = l1 ++ d :: l2 → visible_dir d →
     (∀ e, e ∈ l1 ++ l2 → ¬ visible_dir e) →
     pick_build_root srcdir listing = srcdir ++ [entry_name d]) ∧
  ((∀ e, e ∈ listing → ¬ visible_dir e) →
     pick_build_root srcdir listing = srcdir) ∧
  (∀ l1 d1 l2 d2 l3,
     listing = l1 ++ d1 :: l2 ++ d2 :: l3 → visible_dir d1 → visible_dir d2 →
     pick_build_root srcdir listing = srcdir).
Proof.
  unfold pick_build_root. split; [|split].
  - intros l1 d l2 -> Hd Hothers.
    rewrite filter_app, filter_cons_True by (by apply visible_dir_filter).
    rewrite !filter_none_visible; [done|..];
      intros e He; apply Hothers; set_solver.
  - intros Hnone. by rewrite filter_none_visible.
  - intros l1 d1 l2 d2 l3 -> Hd1 Hd2.
    rewrite filter_app, filter_cons_True by (by apply visible_dir_filter).
    rewrite filter_app, filter_cons_True by (by apply visible_dir_filter).
    destruct (filter _ l1) as [|? [|? ?]]; simpl; [|done..].
    by destruct (filter _ l2).
Qed.

Lemma pick_build_root_spec_witness :
  pick_build_root ["work"; "src"] listing_one = ["work"; "src"; "zlib-1.3.1"]
  ∧ pick_build_root ["work"; "src"] listing_none = ["work"; "src"]
  ∧ pick_build_root ["work"; "src"] listing_two = ["work"; "src"].
Proof.
  split; [|split].
  - apply (proj1 (pick_build_root_spec ["work"; "src"] listing_one)
             [ {| entry_name := ".git"; entry_is_dir := true |};
               {| entry_name := "zlib-1.3.1.tar.xz"; entry_is_dir := false |} ]
             {| entry_name := "zlib-1.3.1"; entry_is_dir := true |} []).
    + reflexivity.
    + split; [reflexivity|]. intros rest. discriminate.
    + intros e He [Hdir Hname].
      apply list_elem_of_In in He. simpl in He.
      destruct He as [<-|[<-|[]]].
      * apply (Hname "git"). reflexivity.
      * discriminate Hdir.
  - apply (proj1 (proj2 (pick_build_root_spec ["work"; "src"] listing_none))).
    intros e He [Hdir Hname].
    apply list_elem_of_In in He. simpl in He.
    destruct He as [<-|[<-|[]]].
    + apply (Hname "cache"). reflexivity.
    + discriminate Hdir.
  - apply (proj2 (proj2 (pick_build_root_spec ["work"; "src"] listing_two))
             [] {| entry_name := "a"; entry_is_dir := true |}
             [ {| entry_name := ".hidden"; entry_is_dir := true |} ]
             {| entry_name := "b"; entry_is_dir := true |} []).
    + reflexivity.
    + split; [reflexivity|]. intros rest. discriminate.
    + split; [reflexivity|]. intros rest. discriminate.
Defined.

(** ** Counting with [filter] *)

Lemma length_filter_weaken {A} (P Q : A → Prop)
    `{∀ x, Decision (P x)} `{∀ x, Decision (Q x)} (l : list A) :
  (∀ x, P x → Q x) → (length (filter P l) ≤ length (filter Q l))%nat.
Proof.
  intros HPQ. induction l as [|x l IH]; [done|].
  rewrite !filter_cons. repeat case_decide; simpl; try lia.
  exfalso. auto.
Qed.

Lemma filter_all {A} (P : A → Prop) `{∀ x, Decision (P x)} (l : list A) :
  (∀ x, x ∈ l → P x) → filter P l = l.
Proof.
  intros HP. induction l as [|x l IH]; [done|].
  rewrite filter_cons_True by (apply HP; left).
  f_equal. apply IH. intros y Hy. apply HP. by right.
Qed.

(** A loop whose body does nothing on the elements outside [P] can skip them. *)
Lemma foldl_skip {A B} (step : A → B → A) (P : B → Prop)
    `{∀ x, Decision (P x)} (l : list B) (acc : A) :
  (∀ a x, ¬ P x → step a x = a) →
  foldl step acc l = foldl step acc (filter P l).
Proof.
  intros Hskip. revert acc. induction l as [|x l IH]; intros acc; [done|].
  rewrite filter_cons. simpl. case_decide as Hx; simpl.
  - apply IH.
  - rewrite Hskip by done. apply IH.
Qed.

Lemma length_filter_strict {A} (P Q : A → Prop)
    `{∀ x, Decision (P x)} `{∀ x, Decision (Q x)} (l : list A) (y : A) :
  (∀ x, P x → Q x) → y ∈ l → Q y → ¬ P y →
  (length (filter P l) < length (filter Q l))%nat.
Proof.
  intros HPQ Hy HQ HP. induction l as [|x l IH]; [by apply elem_of_nil in Hy|].
  pose proof (length_filter_weaken P Q l HPQ).
  rewrite !filter_cons. apply elem_of_cons in Hy as [<-|Hy].
  - rewrite decide_False, decide_True by done. simpl. lia.
  - specialize (IH Hy). repeat case_decide; simpl; try lia. exfalso. auto.
Qed.

(** ** The dependency resolver: the closure computed by [dfs] *)

Section DfsFacts.
Variable graph : gmap string (list string).
Variable recipes : list (string * Recipe.t).

Local Abbreviation gedge := (graph_edge graph recipes).
Local Abbreviation unvisited := (unvisited_recipes recipes).
Local Abbreviation closed_except := (closed_except_for graph recipes).

Lemma has_recipe_true n : has_recipe recipes n = true ↔ n ∈ recipes.*1.
Proof. unfold has_recipe. apply bool_decide_eq_true. Qed.

Lemma unvisited_mono V V' : V ⊆ V' → (unvisited V' ≤ unvisited V)%nat.
Proof. intros Hsub. apply length_filter_weaken. set_solver. Qed.

Lemma unvisited_snoc V n :
  n ∈ recipes.*1 → n ∉ V → (unvisited (V ++ [n]) < unvisited V)%nat.
Proof.
  intros Hn HnV. apply (length_filter_strict _ _ _ n); [set_solver|done..|set_solver].
Qed.

(** Whatever holds of [needed] and survives one insertion survives [dfs]. *)
Lemma dfs_preserves (P : list string → Prop) :
  (∀ V n, n ∈ recipes.*1 → n ∉ V → P V → P (V ++ [n])) →
  ∀ fuel n V, n ∈ recipes.*1 → P V → P (dfs fuel graph recipes n V).
Proof.
  intros Hstep fuel. induction fuel as [|fuel IH]; intros n V Hn HV; simpl; [done|].
  case_bool_decide as HnV; [done|].
  assert (P (V ++ [n])) as HV1 by auto.
  generalize (graph_get graph n). intros ds. revert HV1.
  generalize (V ++ [n]). clear V HV HnV.
  induction ds as [|d ds IHds]; intros V HV; simpl; [done|].
  apply IHds. destruct (has_recipe recipes d) eqn:Hd; [|done].
  apply IH; [by apply has_recipe_true|done].
Qed.

Lemma dfs_subseteq fuel n V : V ⊆ dfs fuel graph recipes n V.
Proof.
  revert n V. induction fuel as [|fuel IH]; intros n V; simpl; [done|].
  case_bool_decide as HnV; [done|].
  transitivity (V ++ [n]); [set_solver|].
  generalize (graph_get graph n). intros ds.
  generalize (V ++ [n]). clear V HnV.
  induction ds as [|d ds IHds]; intros V; simpl; [done|].
  etransitivity; [|apply IHds].
  destruct (has_recipe recipes d); [apply IH|done].
Qed.

Lemma dfs_NoDup fuel n V :
  n ∈ recipes.*1 → NoDup V → NoDup (dfs fuel graph recipes n V).
Proof.
  apply (dfs_preserves NoDup). intros V' n' _ Hn' HV'.
  apply NoDup_app. split; [done|]. split; [|apply NoDup_singleton].
  intros x Hx Hx'. apply list_elem_of_singleton in Hx' as ->. done.
Qed.

Lemma dfs_recipes fuel n V :
  n ∈ recipes.*1 → V ⊆ recipes.*1 → dfs fuel graph recipes n V ⊆ recipes.*1.
Proof.
  apply (dfs_preserves (λ V, V ⊆ recipes.*1)). intros V' n' Hn' _ HV'.
  set_solver.
Qed.

(** Soundness: [dfs n] adds only names reachable from [n]. *)
Lemma dfs_sound fuel n V x :
  x ∈ dfs fuel graph recipes n V → x ∈ V ∨ rtc gedge n x.
Proof.
  revert n V x. induction fuel as [|fuel IH]; intros n V x; simpl; [by left|].
  case_bool_decide as HnV; [by left|].
  assert (∀ ds V', ds ⊆ graph_get graph n →
            x ∈ foldl (λ needed d, if has_recipe recipes d
                                   then dfs fuel graph recipes d needed
                                   else needed) V' ds →
            x ∈ V' ∨ rtc gedge n x) as Hfold.
  { intros ds. induction ds as [|d ds IHds]; intros V' Hds; simpl; [by left|].
    intros Hx. apply IHds in Hx as [Hx|Hx]; [|by right|set_solver].
    destruct (has_recipe recipes d) eqn:Hd; [|by left].
    apply IH in Hx as [Hx|Hx]; [by left|]. right.
    eapply rtc_l; [|exact Hx]. split; [set_solver|by apply has_recipe_true]. }
  intros Hx. apply Hfold in Hx as [Hx|Hx]; [|by right|done].
  apply elem_of_app in Hx as [Hx|Hx]; [by left|].
  apply list_elem_of_singleton in Hx as ->. by right.
Qed.

(** Closure. *)
Lemma dfs_closed fuel n V gray :
  (unvisited V < fuel)%nat → n ∈ recipes.*1 → closed_except gray V →
  n ∈ dfs fuel graph recipes n V
  ∧ closed_except gray (dfs fuel graph recipes n V).
Proof.
  revert n V gray.
  induction fuel as [|fuel IH]; intros n V gray Hfuel Hn Hclosed; [lia|].
  simpl. case_bool_decide as HnV; [done|].
  assert (∀ ds V',
            V ++ [n] ⊆ V' → closed_except (λ b, gray b ∨ b = n) V' →
            let V'' := foldl (λ needed d, if has_recipe recipes d
                                          then dfs fuel graph recipes d needed
                                          else needed) V' ds in
            V' ⊆ V'' ∧ closed_except (λ b, gray b ∨ b = n) V''
            ∧ ∀ d, d ∈ ds → d ∈ recipes.*1 → d ∈ V'') as Hfold.
  { intros ds. induction ds as [|d ds IHds]; intros V' Hsub Hcl; simpl.
    { split; [done|]. split; [done|]. intros d Hd. by apply elem_of_nil in Hd. }
    destruct (has_recipe recipes d) eqn:Hd.
    - apply has_recipe_true in Hd.
      destruct (IH d V' (λ b, gray b ∨ b = n)) as [Hd' Hcl']; [|done|done|].
      { pose proof (unvisited_mono _ _ Hsub).
        pose proof (unvisited_snoc V n Hn HnV). lia. }
      pose proof (dfs_subseteq fuel d V') as Hsub'.
      destruct (IHds (dfs fuel graph recipes d V')) as (H1 & H2 & H3);
        [set_solver|done|].
      split; [set_solver|]. split; [done|].
      intros d' Hd'' Hrec. apply elem_of_cons in Hd'' as [->|Hd'']; [|by apply H3].
      by apply H1.
    - destruct (IHds V') as (H1 & H2 & H3); [done..|].
      split; [done|]. split; [done|].
      intros d' Hd'' Hrec. apply elem_of_cons in Hd'' as [->|Hd'']; [|by apply H3].
      apply has_recipe_true in Hrec. congruence. }
  destruct (Hfold (graph_get graph n) (V ++ [n])) as (H1 & H2 & H3); [done| |].
  { intros b a Hb Hgray Hedge. apply elem_of_app in Hb as [Hb|Hb].
    - apply elem_of_app. left. apply (Hclosed b a); [done| |done]. tauto.
    - apply list_elem_of_singleton in Hb. tauto. }
  split; [set_solver|].
  intros b a Hb Hgray Hedge. destruct (decide (b = n)) as [->|Hbn].
  - destruct Hedge as [Ha Hrec]. by apply H3.
  - apply (H2 b a); [done| |done]. tauto.
Qed.

(** The set computed for the request. *)
Lemma compute_needed_spec reqs :
  let N := compute_needed graph recipes reqs in
  NoDup N ∧ N ⊆ recipes.*1
  ∧ (∀ t, t ∈ reqs → t ∈ recipes.*1 → t ∈ N)
  ∧ (∀ b a, b ∈ N → gedge b a → a ∈ N)
  ∧ (∀ x, x ∈ N → ∃ t, t ∈ reqs ∧ t ∈ recipes.*1 ∧ rtc gedge t x).
Proof.
  unfold compute_needed.
  assert (∀ reqs V,
    NoDup V → V ⊆ recipes.*1 → closed_except (λ _, False) V →
    let N := foldl (λ needed n, if has_recipe recipes n
                                then dfs (S (length recipes)) graph recipes n needed
                                else needed) V reqs in
    NoDup N ∧ N ⊆ recipes.*1 ∧ V ⊆ N
    ∧ (∀ t, t ∈ reqs → t ∈ recipes.*1 → t ∈ N)
    ∧ closed_except (λ _, False) N
    ∧ (∀ x, x ∈ N → x ∈ V ∨ ∃ t, t ∈ reqs ∧ t ∈ recipes.*1 ∧ rtc gedge t x))
    as Hfold.
  { clear reqs. intros reqs.
    induction reqs as [|t reqs IH]; intros V Hnd Hrec Hcl; simpl.
    { repeat split; try done. - intros t Ht. by apply elem_of_nil in Ht.
      - by left. }
    destruct (has_recipe recipes t) eqn:Ht.
    - apply has_recipe_true in Ht.
      destruct (dfs_closed (S (length recipes)) t V (λ _, False)) as [Ht' Hcl'];
        [|done|done|].
      { unfold unvisited_recipes.
        pose proof (length_filter (λ k, k ∉ V) recipes.*1) as Hle.
        rewrite length_fmap in Hle. lia. }
      destruct (IH (dfs (S (length recipes)) graph recipes t V))
        as (H1 & H2 & H3 & H4 & H5 & H6);
        [by apply dfs_NoDup|by apply dfs_recipes|done|].
      pose proof (dfs_subseteq (S (length recipes)) t V).
      repeat split; try done.
      + set_solver.
      + intros t' Ht'' Hrec'. apply elem_of_cons in Ht'' as [->|?]; [|by apply H4].
        by apply H3.
      + intros x Hx. apply H6 in Hx as [Hx|(t' & ? & ? & ?)].
        * apply dfs_sound in Hx as [Hx|Hx]; [by left|].
          right. exists t. split; [left|done].
        * right. exists t'. split; [by right|done].
    - destruct (IH V) as (H1 & H2 & H3 & H4 & H5 & H6); [done..|].
      repeat split; try done.
      + intros t' Ht'' Hrec'. apply elem_of_cons in Ht'' as [->|?]; [|by apply H4].
        apply has_recipe_true in Hrec'. congruence.
      + intros x Hx. apply H6 in Hx as [Hx|(t' & ? & ? & ?)]; [by left|].
        right. exists t'. split; [by right|done]. }
  destruct (Hfold reqs []) as (H1 & H2 & H3 & H4 & H5 & H6).
  { constructor. } { set_solver. } { intros b a Hb. by apply elem_of_nil in Hb. }
  split; [done|]. split; [done|]. split; [done|]. split.
  - intros b a Hb Hedge. apply (H5 b a); [done|tauto|done].
  - intros x Hx. apply H6 in Hx as [Hx|?]; [by apply elem_of_nil in Hx|done].
Qed.
End DfsFacts.

(** ** The dependency resolver: Kahn's loop *)

Lemma filter_ext_elem_of {A} (P Q : A → Prop)
    `{∀ x, Decision (P x)} `{∀ x, Decision (Q x)} (l : list A) :
  (∀ x, x ∈ l → (P x ↔ Q x)) → filter P l = filter Q l.
Proof.
  intros HPQ. induction l as [|x l IH]; [done|].
  rewrite !filter_cons, IH by (intros y Hy; apply HPQ; by right).
  destruct (HPQ x) as [H1 H2]; [left|]. repeat case_decide; tauto.
Qed.

Lemma pending_zero (out ds : list string) :
  length (filter (λ d, d ∉ out) ds) = 0%nat ↔ ∀ d, d ∈ ds → d ∈ out.
Proof.
  induction ds as [|d ds IH]; [split; [intros _ d Hd; by apply elem_of_nil in Hd|done]|].
  rewrite filter_cons. case_decide as Hd; simpl.
  - split; [done|]. intros Hall. exfalso. apply Hd, Hall. left.
  - rewrite IH. split.
    + intros Hall d' Hd'. apply elem_of_cons in Hd' as [->|?]; [|by apply Hall].
      by destruct (decide (d ∈ out)).
    + intros Hall d' Hd'. apply Hall. by right.
Qed.

(** Emitting [n] lowers the count of a duplicate-free list by one exactly
    when [n] is in it. *)
Lemma pending_snoc (out ds : list string) (n : string) :
  NoDup ds → n ∉ out →
  length (filter (λ d, d ∉ out) ds) =
    (length (filter (λ d, d ∉ out ++ [n]) ds)
     + (if decide (n ∈ ds) then 1 else 0))%nat.
Proof.
  intros Hnd Hn. induction ds as [|d ds IH]; [done|].
  apply NoDup_cons in Hnd as [Hd Hnd]. specialize (IH Hnd).
  rewrite !filter_cons. destruct (decide (d = n)) as [->|Hdn].
  - rewrite decide_True by done.
    rewrite (decide_False (P := n ∉ out ++ [n])) by set_solver.
    rewrite (decide_True (P := n ∈ n :: ds)) by set_solver.
    rewrite (decide_False (P := n ∈ ds)) in IH by done. simpl. lia.
  - destruct (decide (d ∈ out)) as [Hdo|Hdo].
    + rewrite (decide_False (P := d ∉ out)) by tauto.
      rewrite (decide_False (P := d ∉ out ++ [n])) by set_solver.
      rewrite IH. repeat case_decide; set_solver.
    + rewrite (decide_True (P := d ∉ out)) by done.
      rewrite (decide_True (P := d ∉ out ++ [n])) by set_solver.
      simpl. rewrite IH. repeat case_decide; set_solver.
Qed.

Lemma indeg_increments (k : string) (ds : list string) (indeg : gmap string Z) m :
  foldl (λ indeg _, alter (λ v, v + 1)%Z k indeg) indeg ds !! m =
    if decide (k = m) then (λ v, v + Z.of_nat (length ds))%Z <$> indeg !! m
    else indeg !! m.
Proof.
  revert indeg. induction ds as [|d ds IH]; intros indeg; simpl.
  { case_decide; [|done]. destruct (indeg !! m); simpl; [|done]. f_equal. lia. }
  rewrite IH. case_decide as Hkm; [subst k|].
  - rewrite lookup_alter_eq. destruct (indeg !! m); simpl; [|done]. f_equal. lia.
  - by rewrite lookup_alter_ne.
Qed.

Lemma indeg_counts (f : string → list string) (l : list string)
    (indeg : gmap string Z) m :
  NoDup l →
  foldl (λ indeg nds,
           foldl (λ indeg _, alter (λ v, v + 1)%Z nds.1 indeg) indeg nds.2)
        indeg ((λ n, (n, f n)) <$> l) !! m =
    if decide (m ∈ l) then (λ v, v + Z.of_nat (length (f m)))%Z <$> indeg !! m
    else indeg !! m.
Proof.
  revert indeg. induction l as [|n l IH]; intros indeg Hnd; simpl.
  { done. }
  apply NoDup_cons in Hnd as [Hn Hnd]. rewrite IH by done.
  rewrite indeg_increments. destruct (decide (n = m)) as [->|Hnm].
  - rewrite decide_False by done. by rewrite decide_True by left.
  - destruct (decide (m ∈ l)).
    + by rewrite decide_True by (by right).
    + by rewrite decide_False by set_solver.
Qed.

Lemma relax_spec (f : string → list string) (n : string) (l : list string)
    (indeg : gmap string Z) (q : list string) :
  NoDup l →
  (relax n ((λ m, (m, f m)) <$> l) indeg q).2 =
    q ++ filter (λ m, n ∈ f m ∧ indeg !! m = Some 1%Z) l
  ∧ ∀ m, (relax n ((λ m, (m, f m)) <$> l) indeg q).1 !! m =
      if decide (m ∈ l ∧ n ∈ f m) then (λ v, v - 1)%Z <$> indeg !! m
      else indeg !! m.
Proof.
  unfold relax. revert indeg q. induction l as [|m0 l IH]; intros indeg q Hnd.
  { simpl. split; [by rewrite app_nil_r|done]. }
  apply NoDup_cons in Hnd as [Hm0 Hnd]. rewrite fmap_cons. simpl foldl.
  rewrite filter_cons. case_bool_decide as Hn; simpl.
  - set (indeg1 := alter (λ v, (v - 1)%Z) m0 indeg).
    assert (∀ m, m ∈ l → indeg1 !! m = indeg !! m) as Hsame.
    { intros m Hm. unfold indeg1. apply lookup_alter_ne. set_solver. }
    assert (indeg1 !! m0 = Some 0%Z ↔ indeg !! m0 = Some 1%Z) as Hzero.
    { unfold indeg1. rewrite lookup_alter_eq.
      destruct (indeg !! m0) as [v|]; simpl; [|done].
      split; intros Heq; simplify_eq; f_equal; lia. }
    assert (filter (λ m, n ∈ f m ∧ indeg1 !! m = Some 1%Z) l
            = filter (λ m, n ∈ f m ∧ indeg !! m = Some 1%Z) l) as Hfilter.
    { apply filter_ext_elem_of. intros m Hm. by rewrite Hsame. }
    assert (∀ q1 m,
      (foldl (λ st mds,
                if bool_decide (n ∈ mds.2) then
                  if bool_decide (alter (λ v, (v - 1)%Z) mds.1 st.1 !! mds.1
                                  = Some 0%Z)
                  then (alter (λ v, (v - 1)%Z) mds.1 st.1, st.2 ++ [mds.1])
                  else (alter (λ v, (v - 1)%Z) mds.1 st.1, st.2)
                else st) (indeg1, q1) ((λ m, (m, f m)) <$> l)).1 !! m =
      if decide (m ∈ m0 :: l ∧ n ∈ f m) then (λ v, v - 1)%Z <$> indeg !! m
      else indeg !! m) as Hlookup.
    { intros q1 m. destruct (IH indeg1 q1 Hnd) as [_ ->].
      destruct (decide (m = m0)) as [->|Hmm0].
      - rewrite decide_False by tauto. rewrite decide_True by (split; [left|done]).
        unfold indeg1. by rewrite lookup_alter_eq.
      - unfold indeg1. rewrite lookup_alter_ne by done.
        repeat case_decide; set_solver. }
    case_bool_decide as Hz.
    + destruct (IH indeg1 (q ++ [m0]) Hnd) as [-> _]. split; [|apply Hlookup].
      rewrite decide_True by (split; [done|by apply Hzero]).
      by rewrite Hfilter, <- app_assoc.
    + destruct (IH indeg1 q Hnd) as [-> _]. split; [|apply Hlookup].
      rewrite decide_False by (intros [_ ?]; by apply Hz, Hzero).
      by rewrite Hfilter.
  - destruct (IH indeg q Hnd) as [-> Hl]. split.
    + by rewrite decide_False by tauto.
    + intros m. rewrite Hl. repeat case_decide; set_solver.
Qed.

Section KahnFacts.
Variable order : list string.
Variable sdeps : string → list string.
Hypothesis order_NoDup : NoDup order.
Hypothesis sdeps_NoDup : ∀ m, NoDup (sdeps m).

Local Abbreviation subg := ((λ m, (m, sdeps m)) <$> order).

Lemma kahn_init (indeg : gmap string Z) :
  (∀ m, m ∈ order → indeg !! m = Some (Z.of_nat (length (sdeps m)))) →
  kahn_invariant order sdeps indeg
    (filter (λ n, indeg !! n = Some 0%Z) order) [].
Proof.
  intros Hindeg. split; simpl.
  - by apply NoDup_filter.
  - intros m Hm. by apply list_elem_of_filter in Hm as [_ ?].
  - intros m Hm. rewrite Hindeg by done. do 3 f_equal.
    symmetry. apply filter_all. intros d _. apply not_elem_of_nil.
  - intros m Hm. rewrite list_elem_of_filter. tauto.
  - intros i m Hi. by rewrite lookup_nil in Hi.
Qed.

Lemma kahn_step (indeg : gmap string Z) (n : string) (q out : list string) :
  kahn_invariant order sdeps indeg (n :: q) out →
  kahn_invariant order sdeps
    (relax n subg indeg q).1 (relax n subg indeg q).2 (out ++ [n]).
Proof.
  intros [Hnd Hknown Hindeg Hready Hsorted].
  destruct (relax_spec sdeps n order indeg q order_NoDup) as [-> Hlookup].
  assert (n ∉ out) as Hn_out.
  { apply NoDup_app in Hnd as (_ & Hdisj & _). intros Hn.
    apply (Hdisj n Hn). left. }
  assert (n ∈ order) as Hn_order by (apply Hknown; set_solver).
  assert (∀ m, m ∈ order → n ∈ sdeps m → indeg !! m ≠ Some 0%Z) as Hpos.
  { intros m Hm Hnm. rewrite Hindeg by done.
    rewrite (pending_snoc out (sdeps m) n) by done.
    rewrite decide_True by done. intros Heq. simplify_eq. lia. }
  assert (∀ m, m ∈ order →
            (relax n subg indeg q).1 !! m =
              Some (Z.of_nat (length (filter (λ d, d ∉ out ++ [n]) (sdeps m)))))
    as Hindeg'.
  { intros m Hm. rewrite Hlookup, Hindeg by done.
    rewrite (pending_snoc out (sdeps m) n) by done.
    destruct (decide (n ∈ sdeps m)).
    - rewrite decide_True by done. simpl. f_equal. lia.
    - rewrite decide_False by tauto. f_equal. lia. }
  split.
  - rewrite <- app_assoc. simpl. rewrite app_comm_cons, app_assoc.
    apply NoDup_app. split; [done|]. split; [|by apply NoDup_filter].
    intros m Hm Hm'. apply list_elem_of_filter in Hm' as [[Hnm Hone] Hmo].
    apply Hready in Hm; [|done]. congruence.
  - intros m Hm. rewrite <- app_assoc in Hm. simpl in Hm.
    rewrite app_comm_cons, app_assoc in Hm.
    apply elem_of_app in Hm as [Hm|Hm]; [by apply Hknown|].
    by apply list_elem_of_filter in Hm as [_ ?].
  - exact Hindeg'.
  - intros m Hm. rewrite Hlookup.
    rewrite <- app_assoc. simpl. rewrite app_comm_cons, app_assoc.
    rewrite elem_of_app, list_elem_of_filter, (Hready m Hm).
    pose proof (Hpos m Hm) as Hpos_m.
    destruct (decide (n ∈ sdeps m)).
    + rewrite decide_True by done.
      destruct (indeg !! m) as [v|]; simpl.
      * split.
        -- intros [?|[[_ Heq] _]]; [by destruct Hpos_m|]. by simplify_eq.
        -- intros Heq. right. split; [|done]. split; [done|].
           simplify_eq. f_equal. lia.
      * split; [|done]. intros [?|[[_ ?] _]]; done.
    + rewrite decide_False by tauto. tauto.
  - intros i m Hi d Hd. apply lookup_snoc_Some in Hi as [[Hlt Hi]|[-> ->]].
    + destruct (Hsorted i m Hi d Hd) as (j & Hj & Hlook).
      exists j. split; [done|]. rewrite lookup_app_l; [done|].
      by eapply lookup_lt_Some.
    + assert (d ∈ out) as Hd_out.
      { assert (indeg !! m = Some 0%Z) as Hzero
          by (apply Hready; [done|set_solver]).
        rewrite Hindeg in Hzero by done.
        assert (length (filter (λ d, d ∉ out) (sdeps m)) = 0%nat) as Hlen
          by (simplify_eq; lia).
        by apply (proj1 (pending_zero out (sdeps m)) Hlen). }
      apply list_elem_of_lookup_1 in Hd_out as [j Hj]. exists j. split.
      * by eapply lookup_lt_Some.
      * rewrite lookup_app_l; [done|]. by eapply lookup_lt_Some.
Qed.

(** The loop empties the queue within the given number of iterations. *)
Lemma kahn_runs (fuel : nat) (indeg : gmap string Z) (q out : list string) :
  kahn_invariant order sdeps indeg q out →
  (length order < fuel + length out)%nat →
  ∃ out' indeg', kahn fuel subg indeg q out = Some out'
                 ∧ kahn_invariant order sdeps indeg' [] out'.
Proof.
  revert indeg q out. induction fuel as [|fuel IH]; intros indeg q out Hinv Hfuel.
  - exfalso. destruct Hinv as [Hnd Hknown _ _ _].
    assert (length (out ++ q) ≤ length order)%nat as Hle.
    { apply submseteq_length, NoDup_submseteq; done. }
    rewrite length_app in Hle. lia.
  - destruct q as [|n q]; simpl; [by eauto|].
    pose proof (kahn_step indeg n q out Hinv) as Hinv'.
    destruct (relax n subg indeg q) as [indeg' q'] eqn:Hrelax. simpl in Hinv'.
    apply IH; [done|]. rewrite length_app. simpl.
    destruct Hinv as [Hnd Hknown _ _ _].
    assert (length (out ++ n :: q) ≤ length order)%nat as Hle.
    { apply submseteq_length, NoDup_submseteq; done. }
    rewrite length_app in Hle. simpl in Hle. lia.
Qed.
End KahnFacts.

(** ** The dependency resolver: the graph and the result *)

Section ResolverFacts.
Variable iter_order : list string → list string.
Hypothesis iter_order_perm : ∀ l, iter_order l ≡ₚ l.

Lemma elem_of_pyset (x : string) (l : list string) :
  x ∈ pyset iter_order l ↔ x ∈ l.
Proof. unfold pyset. by rewrite iter_order_perm, elem_of_remove_dups. Qed.

Lemma NoDup_pyset (l : list string) : NoDup (pyset iter_order l).
Proof. unfold pyset. rewrite iter_order_perm. apply NoDup_remove_dups. Qed.

Lemma graph_fold_lookup (rs : list Recipe.t) (acc : gmap string (list string)) n ds :
  foldl (λ graph r,
           <[Recipe.name r :=
               pyset iter_order (Recipe.runtime_deps r ++ Recipe.build_deps r)]>
             graph) acc rs !! n = Some ds →
  acc !! n = Some ds
  ∨ ∃ r, r ∈ rs ∧ Recipe.name r = n
         ∧ ds = pyset iter_order (Recipe.runtime_deps r ++ Recipe.build_deps r).
Proof.
  revert acc. induction rs as [|r rs IH]; intros acc; simpl; [by left|].
  intros Hl. apply IH in Hl as [Hl|(r' & ? & ? & ?)].
  - apply lookup_insert_Some in Hl as [[<- <-]|[_ ?]]; [|by left].
    right. exists r. split; [left|done].
  - right. exists r'. split; [by right|done].
Qed.

Lemma graph_fold_other (rs : list Recipe.t) (acc : gmap string (list string)) n :
  n ∉ Recipe.name <$> rs →
  foldl (λ graph r,
           <[Recipe.name r :=
               pyset iter_order (Recipe.runtime_deps r ++ Recipe.build_deps r)]>
             graph) acc rs !! n = acc !! n.
Proof.
  revert acc. induction rs as [|r rs IH]; intros acc Hn; simpl; [done|].
  rewrite fmap_cons in Hn. apply not_elem_of_cons in Hn as [Hne Hn].
  rewrite IH by done. by apply lookup_insert_ne.
Qed.

Lemma graph_fold_found (rs : list Recipe.t) (acc : gmap string (list string)) r :
  NoDup (Recipe.name <$> rs) → r ∈ rs →
  foldl (λ graph r,
           <[Recipe.name r :=
               pyset iter_order (Recipe.runtime_deps r ++ Recipe.build_deps r)]>
             graph) acc rs !! Recipe.name r
  = Some (pyset iter_order (Recipe.runtime_deps r ++ Recipe.build_deps r)).
Proof.
  revert acc. induction rs as [|r0 rs IH]; intros acc Hnd Hr; simpl.
  { by apply elem_of_nil in Hr. }
  rewrite fmap_cons in Hnd. apply NoDup_cons in Hnd as [Hr0 Hnd].
  apply elem_of_cons in Hr as [->|Hr]; [|by apply IH].
  rewrite graph_fold_other by done. apply lookup_insert_eq.
Qed.

Lemma build_graph_NoDup (recipes : list (string * Recipe.t)) n :
  NoDup (graph_get (build_graph iter_order recipes) n).
Proof.
  unfold graph_get, build_graph.
  destruct (foldl _ _ _ !! n) as [ds|] eqn:Hl; simpl; [|constructor].
  apply graph_fold_lookup in Hl as [Hl|(r & _ & _ & ->)].
  - by rewrite lookup_empty in Hl.
  - apply NoDup_pyset.
Qed.

Lemma wf_recipes_names (recipes : list (string * Recipe.t)) :
  wf_recipes recipes → Recipe.name <$> recipes.*2 = recipes.*1.
Proof.
  intros [_ Hname]. induction recipes as [|[k r] rs IH]; [done|].
  simpl. f_equal.
  - apply Hname. left.
  - apply IH. intros k' r' Hin. apply Hname. by right.
Qed.

(** On a well-formed recipe map the edges the code follows are the edges of
    the dependency graph. *)
Lemma graph_edge_iff (recipes : list (string * Recipe.t)) b a :
  wf_recipes recipes →
  graph_edge (build_graph iter_order recipes) recipes b a ↔ edge recipes b a.
Proof.
  intros Hwf. pose proof (wf_recipes_names recipes Hwf) as Hnames.
  destruct Hwf as [Hnd Hname].
  unfold graph_edge, edge, dep_of, graph_get, build_graph. split.
  - intros [Ha Hrec]. split; [|done].
    destruct (foldl _ _ _ !! b) as [ds|] eqn:Hl; simpl in Ha;
      [|by apply elem_of_nil in Ha].
    apply graph_fold_lookup in Hl as [Hl|(r & Hr & <- & ->)].
    { by rewrite lookup_empty in Hl. }
    apply elem_of_pyset, elem_of_app in Ha.
    apply list_elem_of_fmap in Hr as ([k r'] & -> & Hkr). simpl.
    exists r'. split; [|done]. by rewrite (Hname k r' Hkr).
  - intros [(r & Hbr & Ha) Hrec]. split; [|done].
    assert (r ∈ recipes.*2) as Hr.
    { apply list_elem_of_fmap. by exists (b, r). }
    rewrite <- (Hname b r Hbr).
    rewrite graph_fold_found; [|by rewrite Hnames|done].
    simpl. apply elem_of_pyset, elem_of_app. done.
Qed.

Lemma zero_indeg_lookup (l : list string) (m : string) :
  (list_to_map ((λ n, (n, 0%Z)) <$> l) : gmap string Z) !! m =
    if decide (m ∈ l) then Some 0%Z else None.
Proof.
  induction l as [|n l IH]; [done|].
  rewrite fmap_cons, list_to_map_cons.
  destruct (decide (n = m)) as [->|Hne].
  - rewrite lookup_insert_eq. by rewrite decide_True by left.
  - rewrite lookup_insert_ne, IH by done. repeat case_decide; set_solver.
Qed.

(** [topo_sort] returns, and its result satisfies the loop invariant with
    an empty queue. *)
Lemma topo_sort_invariant (reqs : list string) (recipes : list (string * Recipe.t)) :
  let graph := build_graph iter_order recipes in
  let needed := compute_needed graph recipes reqs in
  ∃ out indeg,
    topo_sort iter_order reqs recipes = Some out
    ∧ kahn_invariant (iter_order needed) (sub_deps graph needed) indeg [] out.
Proof.
  intros graph needed. unfold topo_sort. fold graph. fold needed.
  destruct (compute_needed_spec graph recipes reqs) as (Hnd & _).
  fold needed in Hnd.
  assert (NoDup (iter_order needed)) as Hord by (by rewrite iter_order_perm).
  assert (∀ m, NoDup (sub_deps graph needed m)) as Hsd.
  { intros m. apply NoDup_filter, build_graph_NoDup. }
  apply (kahn_runs _ (sub_deps graph needed) Hord Hsd).
  - apply (kahn_init _ (sub_deps graph needed) Hord).
    intros m Hm. unfold init_indeg, build_subg.
    rewrite (indeg_counts (sub_deps graph needed)) by done.
    rewrite decide_True by done. rewrite zero_indeg_lookup.
    rewrite decide_True by done. done.
  - simpl. rewrite iter_order_perm. lia.
Qed.

(** What the result of [topo_sort] is, in terms of the dependency graph. *)
Lemma topo_sort_result (reqs : list string) (recipes : list (string * Recipe.t)) :
  wf_recipes recipes →
  ∃ out,
    topo_sort iter_order reqs recipes = Some out
    ∧ NoDup out
    ∧ (∀ m, m ∈ out → needed_for recipes reqs m)
    ∧ (∀ m, needed_for recipes reqs m →
            (m ∈ out ↔ ∀ a, edge recipes m a → a ∈ out))
    ∧ (∀ a b, b ∈ out → edge recipes b a → strictly_before out a b).
Proof.
  intros Hwf.
  destruct (topo_sort_invariant reqs recipes) as (out & indeg & Hout & Hinv).
  set (graph := build_graph iter_order recipes) in *.
  set (N := compute_needed graph recipes reqs) in *.
  destruct (compute_needed_spec graph recipes reqs)
    as (HNnd & HNrec & HNreq & HNclosed & HNsound).
  fold N in HNnd, HNrec, HNreq, HNclosed, HNsound.
  assert (∀ b a, graph_edge graph recipes b a ↔ edge recipes b a) as Hedge.
  { intros b a. by apply graph_edge_iff. }
  assert (∀ m, m ∈ N ↔ needed_for recipes reqs m) as Hneeded.
  { intros m. split.
    - intros Hm. destruct (HNsound m Hm) as (t & ? & ? & Hrtc).
      exists t. split; [done|]. split; [done|].
      eapply rtc_subrel; [|exact Hrtc]. intros ??. by apply Hedge.
    - intros (t & Ht & Hrec & Hrtc). specialize (HNreq t Ht Hrec).
      clear Ht Hrec. induction Hrtc as [|x y z Hxy _ IH]; [done|].
      apply IH. apply (HNclosed x y); [done|]. by apply Hedge. }
  assert (∀ m d, m ∈ N → d ∈ sub_deps graph N m ↔ edge recipes m d) as Hsub.
  { intros m d Hm. unfold sub_deps. rewrite list_elem_of_filter, <- Hedge. split.
    - intros [HdN Hd]. split; [done|]. by apply HNrec.
    - intros Hmd. split; [|by destruct Hmd]. by apply (HNclosed m d). }
  destruct Hinv as [Hnd Hknown Hindeg Hready Hsorted].
  rewrite app_nil_r in Hnd. setoid_rewrite app_nil_r in Hknown.
  setoid_rewrite app_nil_r in Hready.
  assert (∀ m, m ∈ out → m ∈ N) as HoutN.
  { intros m Hm. rewrite <- (iter_order_perm N). by apply Hknown. }
  exists out. split; [done|]. split; [done|]. split; [|split].
  - intros m Hm. by apply Hneeded, HoutN.
  - intros m Hm. apply Hneeded in Hm.
    assert (m ∈ iter_order N) as Hmo by (by rewrite iter_order_perm).
    rewrite (Hready m Hmo), (Hindeg m Hmo). split.
    + intros Hz a Ha.
      assert (length (filter (λ d, d ∉ out) (sub_deps graph N m)) = 0%nat) as Hlen
        by (simplify_eq; lia).
      apply (proj1 (pending_zero out _) Hlen). by apply Hsub.
    + intros Hall. f_equal.
      rewrite (proj2 (pending_zero out (sub_deps graph N m))); [done|].
      intros d Hd. apply Hall. by apply Hsub.
  - intros a b Hb Hba.
    apply list_elem_of_lookup_1 in Hb as Hi. destruct Hi as [i Hi].
    destruct (Hsorted i b Hi a) as (j & Hlt & Hj).
    { apply Hsub; [by apply HoutN|done]. }
    by exists j, i.
Qed.
End ResolverFacts.

Lemma wf_recipes_of (rs : list Recipe.t) :
  NoDup (Recipe.name <$> rs) → wf_recipes (recipes_of rs).
Proof.
  intros Hnd. unfold wf_recipes, recipes_of. split.
  - by rewrite <- list_fmap_compose.
  - intros k r Hkr. apply list_elem_of_fmap in Hkr as (r' & Heq & _).
    by simplify_eq.
Qed.

Lemma resolvable_edge (recipes : list (string * Recipe.t)) b a :
  resolvable recipes b → edge recipes b a → resolvable recipes a.
Proof. intros [b' Hall] Hedge. by apply Hall. Qed.

Lemma resolvable_rtc (recipes : list (string * Recipe.t)) b a :
  resolvable recipes b → rtc (edge recipes) b a → resolvable recipes a.
Proof.
  intros Hb Hrtc. induction Hrtc as [|x y z Hxy _ IH]; [done|].
  apply IH. by apply (resolvable_edge recipes x y).
Qed.

Lemma resolvable_not_on_cycle (recipes : list (string * Recipe.t)) c :
  resolvable recipes c → ¬ on_cycle recipes c.
Proof.
  unfold on_cycle. induction 1 as [c _ IH]. intros Hcycle.
  assert (∃ a, edge recipes c a ∧ rtc (edge recipes) a c) as (a & Hca & Hac).
  { inversion Hcycle as [x y Hxy|x y z Hxy Hyz]; simplify_eq.
    - exists c. split; [done|apply rtc_refl].
    - exists y. split; [done|]. by apply tc_rtc. }
  apply (IH a Hca). eapply tc_rtc_l; [exact Hac|]. by apply tc_once.
Qed.

Lemma iter_insertion_order (l : list string) : insertion_order l ≡ₚ l.
Proof. reflexivity. Qed.

Lemma wf_recipes_abc : wf_recipes recipes_abc.
Proof.
  apply wf_recipes_of. refine (bool_decide_unpack _ _). vm_compute. exact I.
Qed.

Lemma wf_recipes_cyclic : wf_recipes recipes_cyclic.
Proof.
  apply wf_recipes_of. refine (bool_decide_unpack _ _). vm_compute. exact I.
Qed.

(** C1.  For every requested set and every recipe map (acyclic or not),
    [topo_sort] returns, and in the returned sequence every dependency of
    a listed package that has a recipe stands at a strictly earlier
    position than that package. *)
Theorem topo_sort_dependencies_first (iter_order : list string → list string)
    (reqs : list string) (recipes : list (string * Recipe.t)) :
  (∀ l, iter_order l ≡ₚ l) → wf_recipes recipes →
  ∃ out,
    topo_sort iter_order reqs recipes = Some out
    ∧ ∀ a b, b ∈ out → dep_of recipes a b → a ∈ recipes.*1 →
             strictly_before out a b.
Proof.
  intros Hperm Hwf.
  destruct (topo_sort_result iter_order Hperm reqs recipes Hwf)
    as (out & Hout & _ & _ & _ & Hbefore).
  exists out. split; [done|]. intros a b Hb Hdep Ha. by apply Hbefore.
Qed.

Lemma topo_sort_dependencies_first_witness :
  topo_sort insertion_order ["c"] recipes_abc = Some ["a"; "b"; "c"]
  ∧ strictly_before ["a"; "b"; "c"] "a" "b"
  ∧ strictly_before ["a"; "b"; "c"] "b" "c".
Proof.
  destruct (topo_sort_dependencies_first insertion_order ["c"] recipes_abc
              iter_insertion_order wf_recipes_abc) as (out & Hout & Hbefore).
  assert (out = ["a"; "b"; "c"]) as ->.
  { vm_compute in Hout. by injection Hout as <-. }
  split; [reflexivity|]. split.
  - apply Hbefore.
    + right. left.
    + exists (simple_recipe "b" ["a"] []). split; [right; left|left; left].
    + left.
  - apply Hbefore.
    + right. right. left.
    + exists (simple_recipe "c" ["a"; "b"] []).
      split; [right; right; left|left; right; left].
    + right. left.
Defined.

(** C2, as the code behaves.  [topo_sort] has no failure: it returns for
    every request, and its result holds exactly the needed packages all of
    whose dependency chains end, so no package that lies on a cycle or that
    reaches one is listed, and the packages free of cycles still are. *)
Theorem topo_sort_omits_cycles (iter_order : list string → list string)
    (reqs : list string) (recipes : list (string * Recipe.t)) :
  (∀ l, iter_order l ≡ₚ l) → wf_recipes recipes →
  ∃ out,
    topo_sort iter_order reqs recipes = Some out
    ∧ (∀ m, m ∈ out ↔ needed_for recipes reqs m ∧ resolvable recipes m)
    ∧ (∀ m c, m ∈ out → rtc (edge recipes) m c → ¬ on_cycle recipes c).
Proof.
  intros Hperm Hwf.
  destruct (topo_sort_result iter_order Hperm reqs recipes Hwf)
    as (out & Hout & Hnd & Hneeded & Hready & Hbefore).
  assert (∀ i m, out !! i = Some m → resolvable recipes m) as Hres.
  { intros i. induction (lt_wf i) as [i _ IH]. intros m Hi.
    constructor. intros a Hma.
    destruct (Hbefore a m) as (i' & j' & Hi' & Hj' & Hlt);
      [by eapply list_elem_of_lookup_2|done|].
    assert (j' = i) as -> by (by eapply NoDup_lookup).
    by apply (IH i'). }
  assert (∀ m, resolvable recipes m → needed_for recipes reqs m → m ∈ out)
    as Hin.
  { induction 1 as [m _ IH]. intros Hm. apply (Hready m Hm).
    intros a Hma. apply (IH a Hma).
    destruct Hm as (t & ? & ? & Hrtc). exists t. split; [done|]. split; [done|].
    by eapply rtc_r. }
  assert (∀ m, m ∈ out ↔ needed_for recipes reqs m ∧ resolvable recipes m)
    as Hexact.
  { intros m. split.
    - intros Hm. split; [by apply Hneeded|].
      apply list_elem_of_lookup_1 in Hm as [i Hi]. by apply (Hres i).
    - intros [? ?]. by apply Hin. }
  exists out. split; [done|]. split; [done|].
  intros m c Hm Hrtc. apply resolvable_not_on_cycle.
  apply (resolvable_rtc recipes m c); [|done]. by apply Hexact.
Qed.

Lemma topo_sort_omits_cycles_witness :
  topo_sort insertion_order ["c"] recipes_cyclic = Some ["a"]
  ∧ ¬ resolvable recipes_cyclic "c"
  ∧ resolvable recipes_cyclic "a".
Proof.
  destruct (topo_sort_omits_cycles insertion_order ["c"] recipes_cyclic
              iter_insertion_order wf_recipes_cyclic) as (out & Hout & Hexact & _).
  assert (out = ["a"]) as ->.
  { vm_compute in Hout. by injection Hout as <-. }
  split; [reflexivity|]. split.
  - intros Hc.
    assert ("c" ∈ ["a"]) as Hin.
    { apply Hexact. split; [|done].
      exists "c". split; [left|]. split; [left|apply rtc_refl]. }
    apply list_elem_of_In in Hin. simpl in Hin. destruct Hin as [Hin|[]].
    discriminate Hin.
  - apply Hexact. left.
Defined.

(** C2, as stated, fails: [x] and [y] depend on each other and the target
    [c] reaches them, yet [topo_sort] raises nothing and returns the partial
    order [a]. *)
Lemma topo_sort_cycle_returns_partial_order :
  on_cycle recipes_cyclic "x"
  ∧ needed_for recipes_cyclic ["c"] "x"
  ∧ topo_sort insertion_order ["c"] recipes_cyclic = Some ["a"].
Proof.
  assert (edge recipes_cyclic "x" "y") as Hxy.
  { split; [|do 3 right; left].
    exists (simple_recipe "x" ["y"] []). split; [do 2 right; left|left; left]. }
  assert (edge recipes_cyclic "y" "x") as Hyx.
  { split; [|do 2 right; left].
    exists (simple_recipe "y" [] ["x"]). split; [do 3 right; left|right; left]. }
  assert (edge recipes_cyclic "c" "x") as Hcx.
  { split; [|do 2 right; left].
    exists (simple_recipe "c" ["a"; "x"] []). split; [left|left; right; left]. }
  split; [|split].
  - eapply tc_l; [exact Hxy|]. by apply tc_once.
  - exists "c". split; [left|]. split; [left|]. by apply rtc_once.
  - vm_compute. reflexivity.
Qed.

(** C9.  A requested name without a recipe is dropped silently: [topo_sort]
    returns, every name it lists has a recipe, and the result is the one for
    the request without the names that have no recipe -- in particular
    inserting such a name anywhere in the request changes nothing. *)
Theorem topo_sort_ignores_unknown (iter_order : list string → list string)
    (reqs : list string) (recipes : list (string * Recipe.t)) :
  (∀ l, iter_order l ≡ₚ l) →
  (∃ out, topo_sort iter_order reqs recipes = Some out
          ∧ ∀ n, n ∈ out → n ∈ recipes.*1)
  ∧ topo_sort iter_order reqs recipes
    = topo_sort iter_order (filter (λ n, n ∈ recipes.*1) reqs) recipes
  ∧ ∀ l1 t l2, reqs = l1 ++ t :: l2 → t ∉ recipes.*1 →
      topo_sort iter_order reqs recipes = topo_sort iter_order (l1 ++ l2) recipes.
Proof.
  intros Hperm.
  assert (∀ reqs, topo_sort iter_order reqs recipes
                  = topo_sort iter_order (filter (λ n, n ∈ recipes.*1) reqs) recipes)
    as Hfilter.
  { intros reqs'. unfold topo_sort, compute_needed.
    rewrite <- (foldl_skip _ (λ n, n ∈ recipes.*1)); [done|].
    intros V n Hn. unfold has_recipe. by rewrite bool_decide_false. }
  split; [|split].
  - destruct (topo_sort_invariant iter_order Hperm reqs recipes)
      as (out & indeg & Hout & Hinv).
    exists out. split; [done|]. intros n Hn.
    destruct (compute_needed_spec (build_graph iter_order recipes) recipes reqs)
      as (_ & Hrec & _).
    apply Hrec. rewrite <- (Hperm (compute_needed _ _ _)).
    apply (ki_known _ _ _ _ _ Hinv). by rewrite app_nil_r.
  - apply Hfilter.
  - intros l1 t l2 -> Ht. rewrite Hfilter, (Hfilter (l1 ++ l2)).
    by rewrite !filter_app, filter_cons_False.
Qed.

Lemma topo_sort_ignores_unknown_witness :
  topo_sort insertion_order ["ghost"; "b"; "phantom"] recipes_abc = Some ["a"; "b"]
  ∧ topo_sort insertion_order ["ghost"; "b"; "phantom"] recipes_abc
    = topo_sort insertion_order ["b"] recipes_abc
  ∧ topo_sort insertion_order ["ghost"] recipes_abc = Some [].
Proof.
  destruct (topo_sort_ignores_unknown insertion_order ["ghost"; "b"; "phantom"]
              recipes_abc iter_insertion_order) as (_ & Hfilter & _).
  split; [vm_compute; reflexivity|]. split.
  - rewrite Hfilter. reflexivity.
  - vm_compute. reflexivity.
Defined.

(** ** Strings *)

Lemma append_assoc (s1 s2 s3 : string) :
  (s1 +:+ s2) +:+ s3 = s1 +:+ (s2 +:+ s3).
Proof. induction s1 as [|c s1 IH]; simpl; [done|]. by f_equal. Qed.

Lemma append_nil_r (s : string) : s +:+ "" = s.
Proof. induction s as [|c s IH]; simpl; [done|]. by f_equal. Qed.

Lemma length_append (s1 s2 : string) :
  String.length (s1 +:+ s2) = (String.length s1 + String.length s2)%nat.
Proof. induction s1 as [|c s1 IH]; simpl; [done|]. by f_equal. Qed.

Lemma substring_append (s1 s2 : string) :
  substring 0 (String.length s1) (s1 +:+ s2) = s1.
Proof.
  induction s1 as [|c s1 IH]; simpl; [by destruct s2|]. by f_equal.
Qed.

Lemma has_char_append (c : ascii) (s1 s2 : string) :
  has_char c (s1 +:+ s2) = has_char c s1 || has_char c s2.
Proof.
  induction s1 as [|c' s1 IH]; simpl; [done|]. by rewrite IH, orb_assoc.
Qed.

Lemma until_brace_append (k rest : string) :
  has_char "}" k = false →
  Py.until_brace (k +:+ String "}" rest) = Some k.
Proof.
  induction k as [|c k IH]; simpl; [done|]. intros Hk.
  apply orb_false_iff in Hk as [Hc Hk]. by rewrite Hc, IH.
Qed.

Lemma until_brace_Some (s k : string) :
  Py.until_brace s = Some k →
  has_char "}" k = false ∧ ∃ rest, s = k +:+ String "}" rest.
Proof.
  revert k. induction s as [|c s IH]; intros k; simpl; [done|].
  destruct (Ascii.eqb c "}") eqn:Hc.
  - intros [= <-]. split; [done|]. apply Ascii.eqb_eq in Hc as ->. by exists s.
  - destruct (Py.until_brace s) as [k'|]; simpl; [|done]. intros [= <-].
    destruct (IH k' eq_refl) as (Hk' & rest & ->).
    split; [simpl; by rewrite Hc|]. by exists rest.
Qed.

Lemma until_brace_None (s : string) :
  Py.until_brace s = None ↔ has_char "}" s = false.
Proof.
  induction s as [|c s IH]; simpl; [done|].
  destruct (Ascii.eqb c "}"); simpl; [done|].
  rewrite <- IH. by destruct (Py.until_brace s).
Qed.

(** ** Substitution of the matches of a pattern *)

Section ReSub.
Variable match_at : string → option (nat * string).
Variable rp : string → string → string.

Lemma re_sub_skip (u v : string) :
  Py.re_sub match_at rp (String.length u) (u +:+ v) = Py.re_sub match_at rp 0 v.
Proof. induction u as [|c u IH]; [done|]. exact IH. Qed.

(** The scan at a match whose text is [u]. *)
Lemma re_sub_match (u v g : string) :
  u ≠ "" → match_at (u +:+ v) = Some (String.length u, g) →
  Py.re_sub match_at rp 0 (u +:+ v) = rp u g +:+ Py.re_sub match_at rp 0 v.
Proof.
  intros Hu Hm. pose proof (substring_append u v) as Hsub.
  destruct u as [|c u]; [done|].
  change (Py.re_sub match_at rp 0 (String c u +:+ v))
    with (match match_at (String c u +:+ v) with
          | Some (len, group1) =>
              rp (substring 0 len (String c u +:+ v)) group1
                +:+ Py.re_sub match_at rp (len - 1) (u +:+ v)
          | None => String c (Py.re_sub match_at rp 0 (u +:+ v))
          end).
  rewrite Hm, Hsub. f_equal.
  replace (String.length (String c u) - 1)%nat with (String.length u)
    by (simpl; lia).
  apply re_sub_skip.
Qed.

Lemma re_sub_no_match (c : ascii) (s : string) :
  match_at (String c s) = None →
  Py.re_sub match_at rp 0 (String c s) = String c (Py.re_sub match_at rp 0 s).
Proof. intros Hm. simpl. by rewrite Hm. Qed.

(** A pattern that needs a dollar sign and then a [trigger] character
    copies text in which no dollar sign is followed by one. *)
Variable trigger : ascii → bool.
Hypothesis dollar_only : ∀ c s, c ≠ "$"%char → match_at (String c s) = None.
Hypothesis trigger_only :
  ∀ c s, trigger c = false → match_at (String "$" (String c s)) = None.

Lemma re_sub_text (t v : string) :
  dollars_not_before trigger t = true →
  Py.re_sub match_at rp 0 (t +:+ v) = t +:+ Py.re_sub match_at rp 0 v.
Proof.
  induction t as [|c t IH]; [done|]. intros Ht. simpl in Ht.
  apply andb_true_iff in Ht as [Hc Ht].
  change (String c t +:+ v) with (String c (t +:+ v)).
  rewrite re_sub_no_match, IH; [done..|].
  destruct (Ascii.eqb c "$") eqn:Hd.
  - apply Ascii.eqb_eq in Hd as ->. destruct t as [|c' t]; [done|].
    apply trigger_only. by apply negb_true_iff.
  - apply dollar_only. by apply Ascii.eqb_neq.
Qed.
End ReSub.

(** ** Variable expansion *)

Local Arguments reference : simpl never.
Local Arguments Py.re_sub : simpl never.

Lemma dollars_not_before_weaken (t1 t2 : ascii → bool) (t : string) :
  (∀ c, t1 c = true → t2 c = true) →
  dollars_not_before t2 t = true → dollars_not_before t1 t = true.
Proof.
  intros Hsub. induction t as [|c t IH]; [done|]. simpl.
  rewrite !andb_true_iff. intros [Hc Ht]. split; [|by apply IH].
  destruct (Ascii.eqb c "$"); [|done]. destruct t as [|c' t]; [done|].
  apply negb_true_iff. apply negb_true_iff in Hc.
  destruct (t1 c') eqn:H1; [|done]. by rewrite (Hsub c' H1) in Hc.
Qed.

Lemma length_reference (k : string) :
  String.length (reference k) = (String.length k + 3)%nat.
Proof. unfold reference. simpl. rewrite length_append. simpl. lia. Qed.

Lemma match_reference_dollar_only (c : ascii) (s : string) :
  c ≠ "$"%char → match_reference (String c s) = None.
Proof.
  intros Hc. apply Ascii.eqb_neq in Hc. unfold match_reference.
  destruct s as [|c' s]; [done|]. by rewrite Hc.
Qed.

Lemma match_reference_brace_only (c : ascii) (s : string) :
  brace c = false → match_reference (String "$" (String c s)) = None.
Proof. unfold brace, match_reference. intros ->. by rewrite andb_false_r. Qed.

Lemma match_reference_dollar_brace (s : string) :
  match_reference (String "$" (String "{" s)) =
    match Py.until_brace s with
    | Some (String _ _ as key) => Some (String.length key + 3, key)%nat
    | _ => None
    end.
Proof. done. Qed.

Lemma match_reference_reference (k rest : string) :
  valid_key k →
  match_reference (reference k +:+ rest) = Some (String.length (reference k), k).
Proof.
  intros [Hne Hk]. rewrite length_reference. unfold reference. simpl.
  rewrite append_assoc. simpl. rewrite until_brace_append by done.
  by destruct k.
Qed.

Lemma match_reference_Some (s : string) (len : nat) (k : string) :
  match_reference s = Some (len, k) →
  valid_key k ∧ len = String.length (reference k)
  ∧ ∃ rest, s = reference k +:+ rest.
Proof.
  unfold match_reference. destruct s as [|c [|c' s]]; [done..|].
  destruct (Ascii.eqb c "$") eqn:Hc; [|done].
  destruct (Ascii.eqb c' "{") eqn:Hc'; [|done]. simpl.
  apply Ascii.eqb_eq in Hc as ->. apply Ascii.eqb_eq in Hc' as ->.
  destruct (Py.until_brace s) as [[|c k']|] eqn:Hs; [done| |done].
  intros [= <- <-]. apply until_brace_Some in Hs as (Hk & rest & ->).
  split; [by split|]. split.
  - simpl. rewrite length_append. simpl. lia.
  - exists rest. by rewrite append_assoc.
Qed.

Lemma match_shell_var_dollar_only (c : ascii) (s : string) :
  c ≠ "$"%char → Py.match_shell_var (String c s) = None.
Proof.
  intros Hc. apply Ascii.eqb_neq in Hc. unfold Py.match_shell_var.
  by rewrite Hc.
Qed.

Lemma match_shell_var_trigger_only (c : ascii) (s : string) :
  brace_or_word c = false →
  Py.match_shell_var (String "$" (String c s)) = None.
Proof.
  unfold brace_or_word, brace. intros Hc.
  apply orb_false_iff in Hc as [Hb Hw].
  unfold Py.match_shell_var. simpl. by rewrite Hw, Hb.
Qed.

Lemma match_shell_var_reference (k rest : string) :
  has_char "}" k = false →
  Py.match_shell_var (reference k +:+ rest)
  = Some (String.length (reference k), k).
Proof.
  intros Hk. rewrite length_reference. unfold reference. simpl.
  rewrite append_assoc. simpl. unfold Py.match_shell_var. simpl.
  by rewrite until_brace_append.
Qed.

(** The first pass: what [_expand_with] does to text and references. *)
Lemma expand_with_render (env : gmap string string) (ps : list piece) :
  Forall (wf_piece brace) ps →
  _expand_with env (render ps) = substitute env ps.
Proof.
  unfold _expand_with. induction 1 as [|p ps Hp _ IH]; [done|].
  destruct p as [t|k];
    cbn [render render_piece substitute substitute_piece wf_piece] in *.
  - rewrite (re_sub_text _ _ brace); [by rewrite IH| | |done].
    + apply match_reference_dollar_only.
    + apply match_reference_brace_only.
  - rewrite re_sub_match with (g := k).
    + rewrite IH. unfold repl. by destruct (env !! k).
    + done.
    + by apply match_reference_reference.
Qed.

(** The second pass changes nothing when the values put in have no dollar
    sign that could start a shell reference, and the keys left are not set
    in the process environment. *)
Lemma expandvars_substitute (environ env : gmap string string)
    (ps : list piece) :
  (∀ k, env !! k = None → environ !! k = None) →
  Forall (wf_piece brace_or_word) ps →
  (∀ k v, Ref k ∈ ps → env !! k = Some v →
          dollars_not_before brace_or_word v = true) →
  Py.expandvars environ (substitute env ps) = substitute env ps.
Proof.
  intros Hsub Hwf. unfold Py.expandvars.
  induction Hwf as [|p ps Hp _ IH]; intros Hval; [done|].
  assert (Py.re_sub Py.match_shell_var
            (λ text name, default text (environ !! name)) 0 (substitute env ps)
          = substitute env ps) as IH'.
  { apply IH. intros k v Hk. apply Hval. by right. }
  destruct p as [t|k];
    cbn [render render_piece substitute substitute_piece wf_piece] in *.
  - rewrite (re_sub_text _ _ brace_or_word); [by rewrite IH'| | |done].
    + apply match_shell_var_dollar_only.
    + apply match_shell_var_trigger_only.
  - destruct (env !! k) as [v|] eqn:Hk.
    + rewrite (re_sub_text _ _ brace_or_word); [by rewrite IH'| | |].
      * apply match_shell_var_dollar_only.
      * apply match_shell_var_trigger_only.
      * apply (Hval k v); [left|done].
    + rewrite re_sub_match with (g := k).
      * rewrite IH'. by rewrite (Hsub k Hk).
      * done.
      * apply match_shell_var_reference. by destruct Hp.
Qed.

Lemma load_env_lookup (environ vars : gmap string string)
    (name version k : string) :
  load_env environ name version vars !! k =
    match vars !! k with
    | Some v => Some v
    | None =>
        match base_vars name version !! k with
        | Some v => Some v
        | None => environ !! k
        end
    end.
Proof.
  unfold load_env. rewrite !lookup_union.
  destruct (vars !! k), (base_vars name version !! k), (environ !! k); done.
Qed.

Lemma base_vars_lookup (name version k : string) :
  base_vars name version !! k =
    if decide (k = "version") then Some version
    else if decide (k = "name") then Some name
    else None.
Proof.
  unfold base_vars. repeat case_decide; subst.
  - by rewrite lookup_insert_eq.
  - rewrite lookup_insert_ne by done. by rewrite lookup_insert_eq.
  - by rewrite !lookup_insert_ne, lookup_empty by done.
Qed.

(** Induction along the scan of a string: a character where the pattern
    does not match, or a whole reference. *)
Lemma scan_ind (P : string → Prop) :
  P "" →
  (∀ c s, match_reference (String c s) = None → P s → P (String c s)) →
  (∀ k rest, valid_key k → P rest → P (reference k +:+ rest)) →
  ∀ s, P s.
Proof.
  intros Hnil Hchar Href s.
  assert (∀ n s, (String.length s ≤ n)%nat → P s) as Hall;
    [|by apply (Hall (String.length s))].
  clear s. intros n. induction n as [|n IH]; intros s Hlen.
  { destruct s; [done|simpl in Hlen; lia]. }
  destruct s as [|c s]; [done|].
  destruct (match_reference (String c s)) as [[len k]|] eqn:Hm.
  - apply match_reference_Some in Hm as (Hk & _ & rest & Hs).
    rewrite Hs in Hlen |- *. apply Href; [done|]. apply IH.
    rewrite length_append, length_reference in Hlen. lia.
  - apply Hchar; [done|]. apply IH. simpl in Hlen. lia.
Qed.

Lemma tokenize_skip (u v : string) :
  tokenize (String.length u) (u +:+ v) = tokenize 0 v.
Proof. induction u as [|c u IH]; [done|]. exact IH. Qed.

Lemma tokenize_reference (k rest : string) :
  valid_key k → tokenize 0 (reference k +:+ rest) = Ref k :: tokenize 0 rest.
Proof.
  intros Hk. pose proof (match_reference_reference k rest Hk) as Hm.
  pose proof (tokenize_skip (String "{" (k +:+ "}")) rest) as Hskip.
  unfold reference in *. simpl in *. rewrite Hm. f_equal.
  rewrite length_append in *. simpl in *.
  rewrite ?Nat.add_1_r in Hskip |- *. exact Hskip.
Qed.

Lemma tokenize_char (c : ascii) (s : string) :
  match_reference (String c s) = None →
  tokenize 0 (String c s) = Text (String c "") :: tokenize 0 s.
Proof. intros Hm. cbn [tokenize]. by rewrite Hm. Qed.

(** The pieces found by the scan spell the string, and expansion acts on
    them piece by piece. *)
Lemma tokenize_spec (env : gmap string string) (s : string) :
  render (tokenize 0 s) = s
  ∧ Forall scanned_piece (tokenize 0 s)
  ∧ _expand_with env s = substitute env (tokenize 0 s).
Proof.
  unfold _expand_with. induction s as [|c s Hm (IH1 & IH2 & IH3)|k rest Hk (IH1 & IH2 & IH3)]
    using scan_ind.
  - done.
  - rewrite tokenize_char by done.
    cbn [render render_piece substitute substitute_piece].
    rewrite re_sub_no_match, IH1, IH3 by done.
    split; [done|]. split; [|done]. by constructor.
  - rewrite tokenize_reference by done.
    cbn [render render_piece substitute substitute_piece].
    rewrite re_sub_match with (g := k);
      [|done|by apply match_reference_reference].
    rewrite IH1, IH3. split; [done|]. split; [by constructor|].
    unfold repl. by destruct (env !! k).
Qed.

Lemma expand_strings (environ env : gmap string string) (doc : yaml) :
  strings_of (expand environ env doc)
  = (λ s, Py.expandvars environ (_expand_with env s)) <$> strings_of doc.
Proof.
  revert doc. fix IH 1. intros [s|items|items|r]; simpl; [done| | |done].
  - induction items as [|d items IHitems]; simpl; [done|].
    rewrite fmap_app, IH. f_equal. exact IHitems.
  - induction items as [|[k d] items IHitems]; simpl; [done|].
    rewrite fmap_app, IH. f_equal. exact IHitems.
Qed.

(** C4.  The expansion environment is the process environment overridden
    by [name]/[version], overridden by the [vars] block: a key of [vars] has
    the value given there; otherwise [version] and [name] stand for the
    recipe's version and name; every other key has the value of the process
    environment, if any.  [Recipe.load]
    maps every string value of the document through the two passes.  The
    first pass, on every string, puts the value of every defined key in the
    place of its reference and leaves every reference to an undefined key as
    written; in particular on a value written as text and [${K}]
    references.  The second pass changes nothing more when the values put
    in and the text carry no dollar sign that starts a shell reference. *)
Theorem variable_expansion (environ vars : gmap string string)
    (name version : string) :
  (∀ k, load_env environ name version vars !! k =
          match vars !! k with
          | Some v => Some v
          | None =>
              if decide (k = "version") then Some version
              else if decide (k = "name") then Some name
              else environ !! k
          end)
  ∧ (∀ doc,
       strings_of (expand environ (load_env environ name version vars) doc)
       = (λ s, Py.expandvars environ
                 (_expand_with (load_env environ name version vars) s))
           <$> strings_of doc)
  ∧ (∀ s, render (tokenize 0 s) = s
          ∧ Forall scanned_piece (tokenize 0 s)
          ∧ _expand_with (load_env environ name version vars) s
            = substitute (load_env environ name version vars) (tokenize 0 s))
  ∧ (∀ ps, Forall (wf_piece brace) ps →
       _expand_with (load_env environ name version vars) (render ps)
       = substitute (load_env environ name version vars) ps)
  ∧ (∀ ps, Forall (wf_piece brace_or_word) ps →
       (∀ k v, Ref k ∈ ps →
               load_env environ name version vars !! k = Some v →
               dollars_not_before brace_or_word v = true) →
       expand environ (load_env environ name version vars) (YStr (render ps))
       = YStr (substitute (load_env environ name version vars) ps)).
Proof.
  split.
  { intros k. rewrite load_env_lookup, base_vars_lookup.
    destruct (vars !! k); [done|]. by repeat case_decide. }
  split; [intros doc; apply expand_strings|].
  split; [intros s; apply tokenize_spec|].
  split; [intros ps Hps; by apply expand_with_render|].
  intros ps Hps Hvals. simpl. f_equal.
  rewrite expand_with_render.
  - apply expandvars_substitute; [|done..].
    intros k. rewrite load_env_lookup.
    by destruct (vars !! k), (base_vars name version !! k).
  - eapply Forall_impl; [exact Hps|]. intros [t|k]; simpl; [|done].
    apply dollars_not_before_weaken. unfold brace_or_word. intros c ->. done.
Qed.

Lemma variable_expansion_witness :
  expand environ_example (load_env environ_example "zlib" "1.3.1" vars_example)
    (YStr "${A}/${B}")
  = YStr "x/${B}"
  ∧ expand environ_example (load_env environ_example "zlib" "1.3.1" vars_example)
      (YStr "${name}-${version}.tar.xz in ${HOME}")
    = YStr "zlib-1.3.1.tar.xz in /root"
  ∧ load_env environ_example "zlib" "1.3.1" vars_example !! "A" = Some "x"
  ∧ load_env environ_example "zlib" "1.3.1" vars_example !! "name" = Some "zlib"
  ∧ load_env environ_example "zlib" "1.3.1" (<["name" := "libz"]> vars_example)
      !! "name" = Some "libz"
  ∧ load_env (<["version" := "0"]> environ_example) "zlib" "1.3.1" vars_example
      !! "version" = Some "1.3.1".
Proof.
  split; [|split; [|split; [|split; [|split]]]].
  - apply (proj2 (proj2 (proj2 (proj2
             (variable_expansion environ_example vars_example "zlib" "1.3.1"))))
             [Ref "A"; Text "/"; Ref "B"]).
    + repeat constructor; discriminate.
    + intros k v Hk Hv. apply list_elem_of_In in Hk. simpl in Hk.
      destruct Hk as [Hk|[Hk|[Hk|[]]]]; [|discriminate Hk|].
      * injection Hk as <-. vm_compute in Hv. injection Hv as <-. reflexivity.
      * injection Hk as <-. vm_compute in Hv. discriminate Hv.
  - apply (proj2 (proj2 (proj2 (proj2
             (variable_expansion environ_example vars_example "zlib" "1.3.1"))))
             [Ref "name"; Text "-"; Ref "version"; Text ".tar.xz in ";
              Ref "HOME"]).
    + repeat constructor; discriminate.
    + intros k v Hk Hv. apply list_elem_of_In in Hk. simpl in Hk.
      destruct Hk as [Hk|[Hk|[Hk|[Hk|[Hk|[]]]]]];
        try discriminate Hk; injection Hk as <-;
        vm_compute in Hv; injection Hv as <-; reflexivity.
  - exact (proj1 (variable_expansion environ_example vars_example
                    "zlib" "1.3.1") "A").
  - exact (proj1 (variable_expansion environ_example vars_example
                    "zlib" "1.3.1") "name").
  - exact (proj1 (variable_expansion environ_example
                    (<["name" := "libz"]> vars_example) "zlib" "1.3.1") "name").
  - exact (proj1 (variable_expansion (<["version" := "0"]> environ_example)
                    vars_example "zlib" "1.3.1") "version").
Defined.

(** ** Expanding twice *)

Lemma re_findall_skip (match_at : string → option (nat * string)) (u v : string) :
  Py.re_findall match_at (String.length u) (u +:+ v) = Py.re_findall match_at 0 v.
Proof. induction u as [|c u IH]; [done|]. exact IH. Qed.

Lemma references_reference (k rest : string) :
  valid_key k → references (reference k +:+ rest) = k :: references rest.
Proof.
  intros Hk. pose proof (match_reference_reference k rest Hk) as Hm.
  pose proof (re_findall_skip match_reference (String "{" (k +:+ "}")) rest)
    as Hskip.
  unfold references, reference in *. simpl in *. rewrite Hm. f_equal.
  rewrite length_append in *. simpl in *.
  rewrite ?Nat.add_1_r in Hskip |- *. exact Hskip.
Qed.

Lemma references_char (c : ascii) (s : string) :
  match_reference (String c s) = None →
  references (String c s) = references s.
Proof. intros Hm. unfold references. cbn [Py.re_findall]. by rewrite Hm. Qed.

Lemma dollars_closed_append (a b : string) :
  dollars_closed (a +:+ b) = true → dollars_closed b = true.
Proof.
  induction a as [|c a IH]; [done|]. simpl. intros Hab.
  apply andb_true_iff in Hab as [_ Hab]. by apply IH.
Qed.

Section Idempotence.
Variable env : gmap string string.
Hypothesis env_stable : ∀ k v, env !! k = Some v → stable_value env v.

Local Abbreviation E := (Py.re_sub match_reference (repl env) 0).

Lemma expand_cases (s : string) :
  s = ""
  ∨ (∃ c s', s = String c s' ∧ match_reference s = None
             ∧ E s = String c (E s'))
  ∨ (∃ k rest, valid_key k ∧ s = reference k +:+ rest
               ∧ E s = repl env (reference k) k +:+ E rest).
Proof.
  destruct s as [|c s']; [by left|]. right.
  destruct (match_reference (String c s')) as [[len k]|] eqn:Hm.
  - right. apply match_reference_Some in Hm as Hs.
    destruct Hs as (Hk & -> & rest & Hs). exists k, rest.
    split; [done|]. split; [done|]. rewrite Hs in Hm |- *.
    by apply re_sub_match.
  - left. exists c, s'. split; [done|]. split; [done|].
    by apply re_sub_no_match.
Qed.

Lemma repl_head (k : string) :
  starts_with_brace (repl env (reference k) k) = false
  ∧ repl env (reference k) k ≠ "".
Proof.
  unfold repl. destruct (env !! k) as [v|] eqn:Hk; simpl; [|done].
  destruct (env_stable k v Hk) as (? & ? & _). done.
Qed.

Lemma expand_head (s : string) :
  starts_with_brace s = false → starts_with_brace (E s) = false.
Proof.
  intros Hs. destruct (expand_cases s)
    as [->|[(c & s' & -> & _ & ->)|(k & rest & _ & -> & ->)]]; [done..|].
  destruct (repl_head k) as [Hhead Hne].
  by destruct (repl env (reference k) k).
Qed.

Lemma expand_no_closing_brace (s : string) :
  has_char "}" s = false → E s = s.
Proof.
  induction s as [|c s IH]; [done|]. simpl. intros Hs.
  apply orb_false_iff in Hs as [Hc Hs].
  rewrite re_sub_no_match, IH; [done..|].
  unfold match_reference. destruct s as [|c' s']; [done|].
  destruct (Ascii.eqb c "$" && Ascii.eqb c' "{"); [|done].
  simpl in Hs. apply orb_false_iff in Hs as [_ Hs].
  by rewrite (proj2 (until_brace_None s') Hs).
Qed.

(** Where the pattern did not match behind a dollar sign, it does not match
    behind it in the expanded text either. *)
Lemma no_match_after_expand (s : string) :
  match_reference (String "$" s) = None →
  match_reference (String "$" (E s)) = None.
Proof.
  intros Hm. destruct s as [|c s2]; [done|].
  destruct (brace c) eqn:Hc.
  - apply Ascii.eqb_eq in Hc as ->.
    rewrite re_sub_no_match by (by apply match_reference_dollar_only).
    rewrite match_reference_dollar_brace in Hm |- *.
    destruct (Py.until_brace s2) as [[|c k]|] eqn:Hs2; [|done|].
    + apply until_brace_Some in Hs2 as (_ & rest & ->). simpl.
      rewrite re_sub_no_match by (by apply match_reference_dollar_only).
      done.
    + apply until_brace_None in Hs2.
      rewrite expand_no_closing_brace by done.
      by rewrite (proj2 (until_brace_None s2) Hs2).
  - assert (starts_with_brace (E (String c s2)) = false) as Hhead
      by (by apply expand_head).
    destruct (E (String c s2)) as [|c' s']; [done|].
    by apply match_reference_brace_only.
Qed.

(** A value whose dollar signs are closed and whose references are all
    undefined is copied by the scan, whatever follows it, and the scan
    resumes behind it. *)
Lemma expand_closed_value (v rest : string) :
  dollars_closed v = true →
  (∀ k, k ∈ references v → env !! k = None) →
  E (v +:+ rest) = v +:+ E rest.
Proof.
  induction v as [|c v Hm IH|k v Hk IH] using scan_ind; intros Hclosed Hrefs.
  - done.
  - change (String c v +:+ rest) with (String c (v +:+ rest)).
    cbn [dollars_closed] in Hclosed.
    apply andb_true_iff in Hclosed as [Hc Hclosed].
    rewrite re_sub_no_match.
    + rewrite IH; [done|done|]. intros k Hk. apply Hrefs.
      by rewrite references_char.
    + destruct (Ascii.eqb c "$") eqn:Hd.
      2:{ apply match_reference_dollar_only. by apply Ascii.eqb_neq. }
      apply Ascii.eqb_eq in Hd as ->.
      destruct v as [|c' v2]; [done|].
      change (String c' v2 +:+ rest) with (String c' (v2 +:+ rest)).
      destruct (brace c') eqn:Hb; [|by apply match_reference_brace_only].
      apply Ascii.eqb_eq in Hb as ->.
      rewrite match_reference_dollar_brace in Hm |- *.
      destruct (Py.until_brace v2) as [[|c2 k2]|] eqn:Hv2; [|done|].
      * apply until_brace_Some in Hv2 as (_ & rest2 & ->).
        by rewrite append_assoc.
      * apply until_brace_None in Hv2. by rewrite Hv2 in Hc.
  - rewrite append_assoc.
    rewrite re_sub_match with (g := k);
      [|done|by apply match_reference_reference].
    rewrite references_reference in Hrefs by done.
    replace (repl env (reference k) k) with (reference k)
      by (unfold repl; by rewrite (Hrefs k) by left).
    rewrite IH; [by rewrite append_assoc| |].
    + by apply (dollars_closed_append (reference k)).
    + intros k' Hk'. apply Hrefs. by right.
Qed.

Lemma expand_twice_bounded (n : nat) (s : string) :
  (String.length s ≤ n)%nat → E (E s) = E s.
Proof.
  revert s. induction n as [|n IH]; intros s Hlen.
  { destruct s; [done|simpl in Hlen; lia]. }
  destruct (expand_cases s)
    as [->|[(c & s' & -> & Hm & ->)|(k & rest & Hk & -> & ->)]]; [done| |].
  - rewrite re_sub_no_match, IH; [done|simpl in Hlen; lia|].
    destruct (Ascii.eqb c "$") eqn:Hc.
    + apply Ascii.eqb_eq in Hc as ->. by apply no_match_after_expand.
    + apply match_reference_dollar_only. by apply Ascii.eqb_neq.
  - assert (E (E rest) = E rest) as IHrest.
    { apply IH. rewrite length_append, length_reference in Hlen. lia. }
    destruct (env !! k) as [v|] eqn:Hv.
    + replace (repl env (reference k) k) with v
        by (unfold repl; by rewrite Hv).
      destruct (env_stable k v Hv) as (_ & _ & Hclosed & Hrefs).
      by rewrite expand_closed_value, IHrest.
    + replace (repl env (reference k) k) with (reference k)
        by (unfold repl; by rewrite Hv).
      rewrite re_sub_match with (g := k).
      * rewrite IHrest. unfold repl. by rewrite Hv.
      * done.
      * by apply match_reference_reference.
Qed.
End Idempotence.

(** C5, as the code behaves.  Expanding the result of an expansion again
    with the same environment changes nothing, for every string, when no
    value of the environment contains a reference to a key of that
    environment and, in addition, every value is non-empty, does not begin
    with an opening brace, does not end in a dollar sign, and has every
    [${] of it followed, inside the value, by a closing brace. *)
Theorem expansion_idempotent (env : gmap string string) (s : string) :
  (∀ k v, env !! k = Some v →
          v ≠ ""
          ∧ starts_with_brace v = false
          ∧ dollars_closed v = true
          ∧ ∀ r, r ∈ references v → env !! r = None) →
  _expand_with env (_expand_with env s) = _expand_with env s.
Proof.
  intros Hstable. unfold _expand_with.
  by apply (expand_twice_bounded env Hstable (String.length s)).
Qed.

Lemma expansion_idempotent_witness :
  _expand_with env_open_reference
    (_expand_with env_open_reference "${A} ${B}{B}$${C}")
  = _expand_with env_open_reference "${A} ${B}{B}$${C}"
  ∧ _expand_with env_open_reference "${A} ${B}{B}$${C}"
    = "${Z}/$(nproc) $x ${} y{B}$${C}".
Proof.
  split; [|reflexivity].
  apply (expansion_idempotent env_open_reference "${A} ${B}{B}$${C}").
  intros k v Hv. unfold env_open_reference in Hv.
  apply lookup_insert_Some in Hv as [[_ <-]|[_ Hv]].
  { split; [discriminate|]. split; [reflexivity|]. split; [reflexivity|].
    intros r Hr. apply list_elem_of_In in Hr. simpl in Hr.
    destruct Hr as [<-|[]]. reflexivity. }
  apply lookup_insert_Some in Hv as [[_ <-]|[_ Hv]].
  { split; [discriminate|]. split; [reflexivity|]. split; [reflexivity|].
    intros r Hr. apply list_elem_of_In in Hr. destruct Hr. }
  by rewrite lookup_empty in Hv.
Defined.

(** C5, as stated, fails: no value of [env_dollar] contains a reference,
    yet ["${A}{B}"] expands to ["${B}"], which a second pass turns into
    ["y"]. *)
Lemma expansion_not_idempotent :
  (∀ k v, env_dollar !! k = Some v →
          ∀ r, r ∈ references v → env_dollar !! r = None)
  ∧ _expand_with env_dollar "${A}{B}" = "${B}"
  ∧ _expand_with env_dollar (_expand_with env_dollar "${A}{B}") = "y"
  ∧ _expand_with env_dollar (_expand_with env_dollar "${A}{B}")
    ≠ _expand_with env_dollar "${A}{B}".
Proof.
  split; [|split; [reflexivity|split; [reflexivity|discriminate]]].
  intros k v Hv r Hr. unfold env_dollar in Hv.
  apply lookup_insert_Some in Hv as [[_ <-]|[_ Hv]].
  { by apply elem_of_nil in Hr. }
  apply lookup_insert_Some in Hv as [[_ <-]|[_ Hv]].
  { by apply elem_of_nil in Hr. }
  by rewrite lookup_empty in Hv.
Qed.

(** Each of the further conditions is needed: an empty value, a value that
    begins with an opening brace, and a value that leaves a [${] open each
    form a reference with the text around them, as the value that ends in
    a dollar sign does. *)
Lemma expansion_conditions_needed :
  (_expand_with (<["A" := ""]> (<["B" := "y"]> ∅)) "$${A}{B}" = "${B}"
   ∧ _expand_with (<["A" := ""]> (<["B" := "y"]> ∅)) "${B}" = "y")
  ∧ (_expand_with (<["A" := "{B}"]> (<["B" := "y"]> ∅)) "$${A}" = "${B}"
     ∧ _expand_with (<["A" := "{B}"]> (<["B" := "y"]> ∅)) "${B}" = "y")
  ∧ (_expand_with (<["A" := "${"]> (<["B" := "y"]> ∅)) "${A}B}" = "${B}"
     ∧ _expand_with (<["A" := "${"]> (<["B" := "y"]> ∅)) "${B}" = "y").
Proof. repeat split; reflexivity. Qed.

(** ** The fetch stage *)

Lemma stage_for_app {A} (body : A → stage unit) (l1 l2 : list A)
    (done : list action) :
  stage_for body l1 = (done, inr tt) →
  stage_for body (l1 ++ l2)
  = (done ++ (stage_for body l2).1, (stage_for body l2).2).
Proof.
  revert done. induction l1 as [|x l1 IH]; intros done; simpl.
  { intros [= <-]. by destruct (stage_for body l2). }
  unfold mbind, stage_mbind, stage_bind.
  destruct (body x) as [done1 [e|[]]]; [done|].
  destruct (stage_for body l1) as [done2 [e|[]]] eqn:Hl1; simpl; [done|].
  intros [= <-]. rewrite (IH done2 eq_refl). simpl. by rewrite app_assoc.
Qed.


Lemma stage_bind_ok {A B} (done : list action) (a : A) (k : A → stage B) :
  ((done, inr a) : stage A) ≫= k = (done ++ (k a).1, (k a).2).
Proof. done. Qed.

Lemma stage_bind_error {A B} (done : list action) (e : error) (k : A → stage B) :
  ((done, inl e) : stage A) ≫= k = (done, inl e).
Proof. done. Qed.




(* ===================================================================== *)
(** * Part III.  Further properties of the code                           *)
(* ===================================================================== *)

(** ** Removal *)

Lemma elem_of_find_orphans (db : gmap string PackageRecord.t) (n : string) :
  n ∈ find_orphans db ↔
    is_Some (db !! n) ∧
    ∀ q rq, db !! q = Some rq → n ∉ PackageRecord.runtime_deps rq.
Proof.
  unfold find_orphans, DB_all.
  rewrite elem_of_sorted, elem_of_elements, elem_of_difference,
    elem_of_list_to_set, required_fold.
  split.
  - intros [Hin Hreq]. split.
    + apply list_elem_of_fmap in Hin as ([k r] & -> & Hkr).
      apply elem_of_map_to_list in Hkr. by eexists.
    + intros q rq Hq Hn. apply Hreq. right. exists (q, rq).
      split; [by apply elem_of_map_to_list|done].
  - intros [[r Hr] Hnone]. split.
    + apply list_elem_of_fmap. exists (n, r). split; [done|].
      by apply elem_of_map_to_list.
    + intros [Hempty|([q rq] & Hin & Hn)]; [set_solver|].
      apply elem_of_map_to_list in Hin. by apply (Hnone q rq).
Qed.

Lemma uninstall_unforced_iff {FS}
    (remove_file : string → FS → FS * list event)
    (db : gmap string PackageRecord.t) (fs : FS) (name : string)
    (rec : PackageRecord.t) :
  db !! name = Some rec →
  exit_of (uninstall remove_file name false db fs) = Returned
  ↔ ∀ q, ¬ is_dependent db name q.
Proof.
  intros Hrec. split.
  - intros Hexit q Hq.
    rewrite (uninstall_blocked remove_file name rec db fs q Hrec Hq) in Hexit.
    discriminate Hexit.
  - intros Hnone.
    by rewrite (uninstall_unblocked remove_file name rec db fs false Hrec
                  (or_intror Hnone)).
Qed.

(** X1.  Whatever the outcome, [uninstall name] leaves the registry entry
    of every other package as it was; and unless it returns having found
    [name] installed, registry and file system are exactly as before. *)
Theorem uninstall_touches_only_name {FS}
    (remove_file : string → FS → FS * list event)
    (db : gmap string PackageRecord.t) (fs : FS) (name : string) (force : bool) :
  (∀ q, q ≠ name →
        registry_of (uninstall remove_file name force db fs) !! q = db !! q)
  ∧ (db !! name = None ∨ exit_of (uninstall remove_file name force db fs) ≠ Returned →
     registry_of (uninstall remove_file name force db fs) = db
     ∧ files_of (uninstall remove_file name force db fs) = fs).
Proof.
  unfold uninstall, DB_get, DB_remove, registry_of, files_of, exit_of.
  destruct (db !! name) as [rec|] eqn:Hrec; simpl; [|by split].
  destruct (bool_decide _ && negb force) eqn:Hblock; simpl.
  { by split. }
  destruct (remove_files _ _ _) as [fs' evs]. simpl. split.
  - intros q Hq. by apply lookup_delete_ne.
  - intros [?|?]; done.
Qed.

Lemma uninstall_touches_only_name_witness :
  registry_of (uninstall log_removal "p" true db_pq []) !! "q" = db_pq !! "q"
  ∧ registry_of (uninstall log_removal "p" false db_pq []) = db_pq
  ∧ files_of (uninstall log_removal "ghost" true db_pq []) = [].
Proof.
  destruct (uninstall_touches_only_name log_removal db_pq [] "p" true) as [Hother _].
  destruct (uninstall_touches_only_name log_removal db_pq [] "p" false) as [_ Hsame].
  destruct (uninstall_touches_only_name log_removal db_pq [] "ghost" true) as [_ Hghost].
  split; [|split].
  - apply Hother. discriminate.
  - apply Hsame. right. vm_compute. discriminate.
  - apply Hghost. left. reflexivity.
Defined.

(** X2.  Without [force], removing an installed package succeeds exactly
    when no installed package records it as a runtime dependency -- the
    package itself included: one that lists itself can only be removed
    with [force]. *)
Theorem uninstall_unforced_outcome {FS}
    (remove_file : string → FS → FS * list event)
    (db : gmap string PackageRecord.t) (fs : FS) (name : string)
    (rec : PackageRecord.t) :
  db !! name = Some rec →
  (exit_of (uninstall remove_file name false db fs) = Returned
   ↔ ∀ q, ¬ is_dependent db name q)
  ∧ (name ∈ PackageRecord.runtime_deps rec →
     exit_of (uninstall remove_file name false db fs) ≠ Returned).
Proof.
  intros Hrec.
  pose proof (uninstall_unforced_iff remove_file db fs name rec Hrec) as Hiff.
  split; [done|]. intros Hself Hexit.
  apply (proj1 Hiff Hexit name). by exists rec.
Qed.

Lemma uninstall_unforced_outcome_witness :
  exit_of (uninstall log_removal "s" false db_self []) ≠ Returned
  ∧ exit_of (uninstall log_removal "q" false db_pq []) = Returned.
Proof.
  split.
  - apply (uninstall_unforced_outcome log_removal db_self [] "s" rec_self eq_refl).
    left.
  - apply (uninstall_unforced_outcome log_removal db_pq [] "q" rec_q eq_refl).
    intros q (rq & Hq & Hdep). unfold db_pq, DB_set in Hq. simpl in Hq.
    apply lookup_insert_Some in Hq as [[_ <-]|[_ Hq]].
    { apply list_elem_of_In in Hdep. simpl in Hdep.
      destruct Hdep as [Hdep|[]]. discriminate Hdep. }
    apply lookup_insert_Some in Hq as [[_ <-]|[_ Hq]].
    { by apply elem_of_nil in Hdep. }
    by rewrite lookup_empty in Hq.
Defined.

Lemma reverse_index_fold_None (items : list (string * PackageRecord.t))
    (rev : gmap string (gset string)) t :
  rev !! t = None →
  foldl (λ rev kv, foldl (add_dependent kv.1) rev
                         (PackageRecord.runtime_deps kv.2)) rev items !! t = None.
Proof.
  revert rev. induction items as [|[k r] items IH]; intros rev Hrev; [done|].
  simpl. apply IH. by rewrite add_dependent_fold, Hrev.
Qed.

Lemma list_to_map_const_lookup {A} (f : string → A) (l : list string) (t : string) :
  (list_to_map ((λ t, (t, f t)) <$> l) : gmap string A) !! t
  = if decide (t ∈ l) then Some (f t) else None.
Proof.
  induction l as [|x l IH]; [done|].
  rewrite fmap_cons, list_to_map_cons.
  destruct (decide (x = t)) as [->|Hne].
  - rewrite lookup_insert_eq. by rewrite decide_True by left.
  - rewrite lookup_insert_ne, IH by done. repeat case_decide; set_solver.
Qed.

(** X3.  [reverse_deps targets] has exactly the targets as keys.  For an
    installed target the set holds the installed packages that record it as
    a runtime dependency; for a target that is not installed the set is
    empty, even when installed packages record it. *)
Theorem reverse_deps_lookup (db : gmap string PackageRecord.t)
    (targets : list string) (t : string) :
  (t ∉ targets → reverse_deps db targets !! t = None)
  ∧ (t ∈ targets →
     ∃ s, reverse_deps db targets !! t = Some s
          ∧ (∀ q, q ∈ s ↔ is_Some (db !! t) ∧ is_dependent db t q)).
Proof.
  unfold reverse_deps, DB_all. rewrite list_to_map_const_lookup. split.
  - intros Ht. by rewrite decide_False.
  - intros Ht. rewrite decide_True by done. eexists. split; [done|].
    intros q. destruct (db !! t) as [rec|] eqn:Hrec.
    + destruct (reverse_index_fold (map_to_list db) ((λ _, ∅) <$> db) t ∅)
        as (s' & -> & Hmem).
      { by rewrite lookup_fmap, Hrec. }
      simpl. rewrite Hmem. unfold is_dependent. split.
      * intros [Hq|(rq & Hin & Hd)]; [set_solver|].
        split; [by eexists|]. exists rq. by apply elem_of_map_to_list in Hin.
      * intros (_ & rq & Hq & Hd). right. exists rq.
        by rewrite elem_of_map_to_list.
    + rewrite reverse_index_fold_None by (by rewrite lookup_fmap, Hrec).
      simpl. split; [set_solver|]. intros [[? ?] _]. done.
Qed.

Lemma reverse_deps_lookup_witness :
  reverse_deps db_pq ["p"; "ghost"] !! "q" = None
  ∧ reverse_deps db_pq ["p"; "ghost"] !! "p" = Some {["q"]}
  ∧ reverse_deps (delete "p" db_pq) ["p"] !! "p" = Some ∅.
Proof.
  destruct (reverse_deps_lookup db_pq ["p"; "ghost"] "q") as [Hnone _].
  split; [|split].
  - apply Hnone. intros Hin. apply list_elem_of_In in Hin. simpl in Hin.
    destruct Hin as [H|[H|[]]]; discriminate H.
  - vm_compute. reflexivity.
  - vm_compute. reflexivity.
Defined.

(** X4.  [find_orphans] returns its names in ascending order, each once. *)
Theorem find_orphans_sorted (db : gmap string PackageRecord.t) :
  Sorted String.le (find_orphans db) ∧ NoDup (find_orphans db).
Proof.
  unfold find_orphans. split; [apply sorted_Sorted|].
  apply NoDup_sorted, NoDup_elements.
Qed.

(** X5.  The orphans are exactly the installed packages that [uninstall]
    removes without [force]. *)
Theorem orphans_are_removable {FS}
    (remove_file : string → FS → FS * list event)
    (db : gmap string PackageRecord.t) (fs : FS) (n : string) :
  n ∈ find_orphans db
  ↔ is_Some (db !! n)
    ∧ exit_of (uninstall remove_file n false db fs) = Returned.
Proof.
  rewrite elem_of_find_orphans. split.
  - intros [[rec Hrec] Hnone]. split; [by eexists|].
    apply (uninstall_unforced_iff remove_file db fs n rec Hrec).
    intros q (rq & Hq & Hd). by apply (Hnone q rq).
  - intros [[rec Hrec] Hexit]. split; [by eexists|].
    intros q rq Hq Hd.
    apply (proj1 (uninstall_unforced_iff remove_file db fs n rec Hrec) Hexit q).
    by exists rq.
Qed.

Lemma orphans_are_removable_witness :
  "q" ∈ find_orphans db_pq
  ∧ exit_of (uninstall log_removal "q" false db_pq []) = Returned.
Proof.
  assert ("q" ∈ find_orphans db_pq) as Hq.
  { refine (bool_decide_unpack _ _). vm_compute. exact I. }
  split; [exact Hq|].
  exact (proj2 (proj1 (orphans_are_removable log_removal db_pq [] "q") Hq)).
Defined.

(** X6.  After [p] is removed, the orphans are the other installed
    packages that no remaining package records as a runtime dependency:
    every earlier orphan but [p] stays one, and a package that only [p]
    needed becomes one. *)
Theorem orphans_after_uninstall {FS}
    (remove_file : string → FS → FS * list event)
    (db : gmap string PackageRecord.t) (fs : FS) (p : string)
    (rec : PackageRecord.t) (n : string) :
  db !! p = Some rec →
  (n ∈ find_orphans (registry_of (uninstall remove_file p true db fs))
   ↔ n ≠ p ∧ is_Some (db !! n)
     ∧ ∀ q rq, q ≠ p → db !! q = Some rq → n ∉ PackageRecord.runtime_deps rq)
  ∧ (n ∈ find_orphans db → n ≠ p →
     n ∈ find_orphans (registry_of (uninstall remove_file p true db fs))).
Proof.
  intros Hrec. rewrite (uninstall_forced remove_file p rec db fs Hrec).
  unfold registry_of. simpl.
  assert (n ∈ find_orphans (delete p db)
          ↔ n ≠ p ∧ is_Some (db !! n)
            ∧ ∀ q rq, q ≠ p → db !! q = Some rq
                      → n ∉ PackageRecord.runtime_deps rq) as Hiff.
  { rewrite elem_of_find_orphans. split.
    - intros [[r Hn] Hnone]. apply lookup_delete_Some in Hn as [Hne Hn].
      split; [done|]. split; [by eexists|].
      intros q rq Hq Hdb. apply (Hnone q rq). by apply lookup_delete_Some.
    - intros (Hne & [r Hn] & Hnone). split.
      + exists r. by apply lookup_delete_Some.
      + intros q rq Hq. apply lookup_delete_Some in Hq as [Hq Hdb].
        by apply (Hnone q rq). }
  split; [exact Hiff|].
  intros Horphan Hne. apply Hiff.
  apply elem_of_find_orphans in Horphan as [Hn Hnone].
  split; [done|]. split; [done|]. intros q rq _. apply Hnone.
Qed.

Lemma orphans_after_uninstall_witness :
  "p" ∉ find_orphans db_pq
  ∧ "p" ∈ find_orphans (registry_of (uninstall log_removal "q" true db_pq [])).
Proof.
  split.
  - refine (bool_decide_unpack _ _). vm_compute. exact I.
  - apply (proj1 (orphans_after_uninstall log_removal db_pq [] "q" rec_q "p" eq_refl)).
    split; [discriminate|]. split; [by exists rec_p|].
    intros q rq Hq Hdb. unfold db_pq, DB_set in Hdb. simpl in Hdb.
    apply lookup_insert_Some in Hdb as [[Heq _]|[_ Hdb]]; [by destruct Hq|].
    apply lookup_insert_Some in Hdb as [[_ <-]|[_ Hdb]].
    { apply not_elem_of_nil. }
    by rewrite lookup_empty in Hdb.
Defined.

(** X7.  Among recorded paths with the same number of segments the order of
    the record is kept: the removal order only moves deeper paths forward. *)
Theorem removal_order_stable (files : list string) (d : nat) :
  filter (λ f, depth f = d) (removal_order files)
  = filter (λ f, depth f = d) files.
Proof.
  unfold removal_order, Py.sorted_key_reverse.
  induction files as [|x files IH]; [done|]. simpl.
  rewrite filter_cons, <- IH. clear IH.
  generalize (foldr (Py.insert_desc depth) [] files). intros l.
  induction l as [|y l IHl]; simpl.
  { by rewrite filter_cons. }
  destruct (depth x <? depth y)%nat eqn:Hlt.
  - apply Nat.ltb_lt in Hlt. rewrite !filter_cons, IHl.
    repeat case_decide; try done; lia.
  - by rewrite (filter_cons _ x).
Qed.

(** ** The dependency resolver *)

(** X8.  [topo_sort] never lists a package twice, and lists only packages
    the request needs: those reachable from a requested name that has a
    recipe. *)
Theorem topo_sort_no_duplicates (iter_order : list string → list string)
    (reqs : list string) (recipes : list (string * Recipe.t)) :
  (∀ l, iter_order l ≡ₚ l) → wf_recipes recipes →
  ∃ out, topo_sort iter_order reqs recipes = Some out
         ∧ NoDup out
         ∧ ∀ m, m ∈ out → needed_for recipes reqs m.
Proof.
  intros Hperm Hwf.
  destruct (topo_sort_result iter_order Hperm reqs recipes Hwf)
    as (out & Hout & Hnd & Hneeded & _).
  by exists out.
Qed.

Lemma topo_sort_no_duplicates_witness :
  ∃ out, topo_sort insertion_order ["c"; "b"; "c"] recipes_abc = Some out
         ∧ NoDup out
         ∧ ∀ m, m ∈ out → needed_for recipes_abc ["c"; "b"; "c"] m.
Proof.
  exact (topo_sort_no_duplicates insertion_order ["c"; "b"; "c"] recipes_abc
           iter_insertion_order wf_recipes_abc).
Defined.

(** A needed package that is not listed has a dependency that is not
    listed either. *)
Lemma topo_sort_blocked (iter_order : list string → list string)
    (reqs : list string) (recipes : list (string * Recipe.t)) (out : list string) :
  (∀ l, iter_order l ≡ₚ l) → wf_recipes recipes →
  topo_sort iter_order reqs recipes = Some out →
  ∀ m, needed_for recipes reqs m → m ∉ out →
       ∃ a, edge recipes m a ∧ needed_for recipes reqs a ∧ a ∉ out.
Proof.
  intros Hperm Hwf Hout m Hm Hnot.
  destruct (topo_sort_result iter_order Hperm reqs recipes Hwf)
    as (out' & Hout' & _ & _ & Hready & _).
  rewrite Hout in Hout'. injection Hout' as <-.
  destruct (decide (Forall (λ a, a ∈ recipes.*1 → a ∈ out)
                      (graph_get (build_graph iter_order recipes) m)))
    as [Hall|Hex].
  - exfalso. apply Hnot, (Hready m Hm). intros a Hma.
    apply (graph_edge_iff iter_order Hperm recipes m a Hwf) in Hma as [Ha Hrec].
    rewrite Forall_forall in Hall. by apply Hall.
  - apply not_Forall_Exists in Hex; [|apply _].
    apply Exists_exists in Hex as (a & Ha & Hna). simpl in Hna.
    destruct (decide (a ∈ recipes.*1)) as [Hrec|Hrec]; [|by destruct Hna].
    assert (edge recipes m a) as Hma.
    { by apply (graph_edge_iff iter_order Hperm recipes m a Hwf). }
    exists a. split; [done|]. split.
    + destruct Hm as (t & ? & ? & Hrtc). exists t.
      split; [done|]. split; [done|]. by eapply rtc_r.
    + intros Hin. by apply Hna.
Qed.

Lemma chain_reaches (recipes : list (string * Recipe.t)) (x y : string)
    (l : list string) :
  chain recipes (x :: l) → y ∈ l → tc (edge recipes) x y.
Proof.
  revert x. induction l as [|a l IH]; intros x Hchain Hy.
  { by apply elem_of_nil in Hy. }
  destruct Hchain as [Hxa Hchain].
  apply elem_of_cons in Hy as [->|Hy]; [by apply tc_once|].
  eapply tc_l; [exact Hxa|]. by apply IH.
Qed.

Lemma chain_tail (recipes : list (string * Recipe.t)) (x : string)
    (l : list string) :
  chain recipes (x :: l) → chain recipes l.
Proof. destruct l as [|a l]; [done|]. by intros [_ ?]. Qed.

(** A chain longer than the set of names it stays in passes through a cycle. *)
Lemma long_chain_cycle (recipes : list (string * Recipe.t))
    (l keys : list string) :
  chain recipes l → l ⊆ keys → (length keys < length l)%nat →
  ∃ c, c ∈ l ∧ on_cycle recipes c.
Proof.
  revert keys. induction l as [|x l IH]; intros keys Hchain Hsub Hlen.
  { simpl in Hlen. lia. }
  destruct (decide (x ∈ l)) as [Hx|Hx].
  { exists x. split; [left|]. by apply (chain_reaches recipes x x l). }
  destruct (IH (filter (λ k, k ≠ x) keys)) as (c & Hc & Hcycle).
  - by eapply chain_tail.
  - intros y Hy. apply list_elem_of_filter. split; [set_solver|].
    apply Hsub. by right.
  - assert (length (filter (λ k, k ≠ x) keys) < length keys)%nat.
    { apply (length_filter_lt _ _ x); [apply Hsub; left|]. by intros ?. }
    simpl in Hlen. lia.
  - exists c. split; [by right|done].
Qed.

(** X9.  On a recipe map without dependency cycles the order is complete:
    [topo_sort] lists exactly the needed packages, so every requested name
    with a recipe and every dependency (with a recipe) they reach. *)
Theorem topo_sort_complete (iter_order : list string → list string)
    (reqs : list string) (recipes : list (string * Recipe.t)) :
  (∀ l, iter_order l ≡ₚ l) → wf_recipes recipes →
  (∀ c, ¬ on_cycle recipes c) →
  ∃ out, topo_sort iter_order reqs recipes = Some out
         ∧ (∀ m, m ∈ out ↔ needed_for recipes reqs m)
         ∧ (∀ t, t ∈ reqs → t ∈ recipes.*1 → t ∈ out).
Proof.
  intros Hperm Hwf Hacyclic.
  destruct (topo_sort_result iter_order Hperm reqs recipes Hwf)
    as (out & Hout & Hnd & Hneeded & _).
  assert (∀ n m, needed_for recipes reqs m → m ∉ out →
            ∃ l, length l = S n ∧ chain recipes (m :: l)
                 ∧ (m :: l) ⊆ recipes.*1) as Hchains.
  { intros n. induction n as [|n IH]; intros m Hm Hnot;
      destruct (topo_sort_blocked iter_order reqs recipes out Hperm Hwf Hout
                  m Hm Hnot) as (a & Hma & Ha & Hna).
    - exists [a]. split; [done|]. split; [by split|].
      intros y Hy. apply elem_of_cons in Hy as [->|Hy].
      + destruct Hma as [(r & Hr & _) _].
        apply list_elem_of_fmap. by exists (m, r).
      + apply list_elem_of_singleton in Hy as ->. by destruct Hma.
    - destruct (IH a Ha Hna) as (l & Hlen & Hchain & Hsub).
      exists (a :: l). split; [simpl; by rewrite Hlen|]. split; [by split|].
      intros y Hy. apply elem_of_cons in Hy as [->|Hy]; [|by apply Hsub].
      destruct Hma as [(r & Hr & _) _].
      apply list_elem_of_fmap. by exists (m, r). }
  assert (∀ m, needed_for recipes reqs m → m ∈ out) as Hall.
  { intros m Hm. destruct (decide (m ∈ out)) as [|Hnot]; [done|]. exfalso.
    destruct (Hchains (length recipes.*1) m Hm Hnot) as (l & Hlen & Hchain & Hsub).
    destruct (long_chain_cycle recipes (m :: l) recipes.*1 Hchain Hsub)
      as (c & _ & Hcycle); [simpl; lia|].
    by apply (Hacyclic c). }
  exists out. split; [done|]. split.
  - intros m. split; [apply Hneeded|apply Hall].
  - intros t Ht Hrec. apply Hall. exists t.
    split; [done|]. split; [done|apply rtc_refl].
Qed.

Lemma acyclic_of_resolvable (recipes : list (string * Recipe.t)) :
  (∀ k, k ∈ recipes.*1 → resolvable recipes k) → ∀ c, ¬ on_cycle recipes c.
Proof.
  intros Hres c Hcycle. apply (resolvable_not_on_cycle recipes c); [|done].
  apply Hres. unfold on_cycle in Hcycle.
  assert (∃ a, edge recipes c a) as (a & (r & Hr & _) & _).
  { inversion Hcycle; eauto. }
  apply list_elem_of_fmap. by exists (c, r).
Qed.

(** Every listed package has only ending dependency chains. *)
Lemma topo_sort_listed_resolvable (iter_order : list string → list string)
    (reqs : list string) (recipes : list (string * Recipe.t)) (out : list string) :
  (∀ l, iter_order l ≡ₚ l) → wf_recipes recipes →
  topo_sort iter_order reqs recipes = Some out →
  ∀ m, m ∈ out → resolvable recipes m.
Proof.
  intros Hperm Hwf Hout.
  destruct (topo_sort_result iter_order Hperm reqs recipes Hwf)
    as (out' & Hout' & Hnd & _ & _ & Hbefore).
  rewrite Hout in Hout'. injection Hout' as <-.
  assert (∀ i m, out !! i = Some m → resolvable recipes m) as Hres.
  { intros i. induction (lt_wf i) as [i _ IH]. intros m Hi.
    constructor. intros a Hma.
    destruct (Hbefore a m) as (i' & j' & Hi' & Hj' & Hlt);
      [by eapply list_elem_of_lookup_2|done|].
    assert (j' = i) as -> by (by eapply NoDup_lookup).
    by apply (IH i'). }
  intros m Hm. apply list_elem_of_lookup_1 in Hm as [i Hi]. by apply (Hres i).
Qed.

Lemma acyclic_recipes_abc : ∀ c, ¬ on_cycle recipes_abc c.
Proof.
  apply acyclic_of_resolvable. intros k Hk.
  apply (topo_sort_listed_resolvable insertion_order ["a"; "b"; "c"] recipes_abc
           ["a"; "b"; "c"] iter_insertion_order wf_recipes_abc).
  - vm_compute. reflexivity.
  - exact Hk.
Qed.

Lemma topo_sort_complete_witness :
  ∃ out, topo_sort insertion_order ["c"; "ghost"] recipes_abc = Some out
         ∧ (∀ m, m ∈ out ↔ needed_for recipes_abc ["c"; "ghost"] m)
         ∧ (∀ t, t ∈ ["c"; "ghost"] → t ∈ recipes_abc.*1 → t ∈ out).
Proof.
  exact (topo_sort_complete insertion_order ["c"; "ghost"] recipes_abc
           iter_insertion_order wf_recipes_abc acyclic_recipes_abc).
Defined.

Lemma strictly_before_trans (out : list string) (a b c : string) :
  NoDup out → strictly_before out a b → strictly_before out b c →
  strictly_before out a c.
Proof.
  intros Hnd (i & j & Hi & Hj & Hij) (j' & k & Hj' & Hk & Hjk).
  assert (j' = j) as -> by (by eapply NoDup_lookup).
  exists i, k. split; [done|]. split; [done|lia].
Qed.

(** X10.  When one package is requested and all its dependency chains end,
    it is the last of the order: everything else listed is one of its
    (direct or indirect) dependencies and stands before it. *)
Theorem topo_sort_target_last (iter_order : list string → list string)
    (t : string) (recipes : list (string * Recipe.t)) :
  (∀ l, iter_order l ≡ₚ l) → wf_recipes recipes →
  t ∈ recipes.*1 → resolvable recipes t →
  ∃ out, topo_sort iter_order [t] recipes = Some out
         ∧ last out = Some t
         ∧ ∀ m, m ∈ out → m ≠ t →
                tc (edge recipes) t m ∧ strictly_before out m t.
Proof.
  intros Hperm Hwf Ht Hres.
  destruct (topo_sort_result iter_order Hperm [t] recipes Hwf)
    as (out & Hout & Hnd & Hneeded & Hready & Hbefore).
  assert (∀ m, resolvable recipes m → needed_for recipes [t] m → m ∈ out) as Hin.
  { induction 1 as [m _ IH]. intros Hm. apply (Hready m Hm).
    intros a Hma. apply (IH a Hma).
    destruct Hm as (t' & ? & ? & Hrtc). exists t'. split; [done|]. split; [done|].
    by eapply rtc_r. }
  assert (t ∈ out) as Htout.
  { apply Hin; [done|]. exists t. split; [left|]. split; [done|apply rtc_refl]. }
  assert (∀ b m, tc (edge recipes) b m → b ∈ out →
                 m ∈ out ∧ strictly_before out m b) as Hchain.
  { intros b m Htc. induction Htc as [b m Hbm|b a m Hba _ IH]; intros Hb.
    - pose proof (Hbefore m b Hb Hbm) as Hsb. split; [|done].
      destruct Hsb as (i & _ & Hi & _). by eapply list_elem_of_lookup_2.
    - pose proof (Hbefore a b Hb Hba) as Hsb.
      assert (a ∈ out) as Ha.
      { destruct Hsb as (i & _ & Hi & _). by eapply list_elem_of_lookup_2. }
      destruct (IH Ha) as [Hm Hma]. split; [done|].
      by apply (strictly_before_trans out m a b). }
  assert (∀ m, m ∈ out → m ≠ t →
               tc (edge recipes) t m ∧ strictly_before out m t) as Hothers.
  { intros m Hm Hne. destruct (Hneeded m Hm) as (t' & Ht' & _ & Hrtc).
    apply list_elem_of_singleton in Ht' as ->.
    apply rtc_tc in Hrtc as [->|Htc]; [done|].
    split; [done|]. by apply (Hchain t m). }
  exists out. split; [done|]. split; [|done].
  apply list_elem_of_lookup_1 in Htout as [j Hj].
  rewrite last_lookup.
  destruct (decide (j = pred (length out))) as [->|Hnl]; [done|]. exfalso.
  pose proof (lookup_lt_Some _ _ _ Hj) as Hlt.
  destruct (lookup_lt_is_Some_2 out (S j)) as [m Hm]; [lia|].
  assert (m ≠ t) as Hne.
  { intros ->. pose proof (NoDup_lookup _ _ _ _ Hnd Hm Hj). lia. }
  destruct (Hothers m (list_elem_of_lookup_2 _ _ _ Hm) Hne)
    as [_ (i & j' & Hi & Hj' & Hij)].
  assert (i = S j) as -> by (by eapply NoDup_lookup).
  assert (j' = j) as -> by (by eapply NoDup_lookup).
  lia.
Qed.

Lemma resolvable_recipes_abc (k : string) :
  k ∈ recipes_abc.*1 → resolvable recipes_abc k.
Proof.
  intros Hk.
  apply (topo_sort_listed_resolvable insertion_order ["a"; "b"; "c"] recipes_abc
           ["a"; "b"; "c"] iter_insertion_order wf_recipes_abc).
  - vm_compute. reflexivity.
  - exact Hk.
Qed.

Lemma topo_sort_target_last_witness :
  ∃ out, topo_sort insertion_order ["c"] recipes_abc = Some out
         ∧ last out = Some "c"
         ∧ ∀ m, m ∈ out → m ≠ "c" →
                tc (edge recipes_abc) "c" m ∧ strictly_before out m "c".
Proof.
  apply (topo_sort_target_last insertion_order "c" recipes_abc
           iter_insertion_order wf_recipes_abc).
  - right. right. left.
  - apply resolvable_recipes_abc. right. right. left.
Defined.

(** ** Variable expansion *)

(** A string changes only where it refers to a defined key. *)
Lemma expand_with_undefined (env : gmap string string) (s : string) :
  (∀ k, k ∈ references s → env !! k = None) → _expand_with env s = s.
Proof.
  unfold _expand_with.
  induction s as [|c s Hm IH|k rest Hk IH] using scan_ind; intros Hnone.
  - done.
  - rewrite re_sub_no_match by done. f_equal. apply IH.
    intros k Hk. apply Hnone. by rewrite references_char.
  - rewrite references_reference in Hnone by done.
    rewrite re_sub_match with (g := k);
      [|done|by apply match_reference_reference].
    replace (repl env (reference k) k) with (reference k)
      by (unfold repl; by rewrite (Hnone k) by left).
    rewrite IH; [done|]. intros k' Hk'. apply Hnone. by right.
Qed.

(** X11.  [_expand_with] changes a string only where it refers to a key
    that is defined: when none of the keys referred to is defined the
    string comes back as it is; so with the empty environment, which is
    what [apply_patches] passes for a [dir] entry, nothing is ever
    expanded. *)
Theorem expand_with_only_defined (env : gmap string string) (s : string) :
  ((∀ k, k ∈ references s → env !! k = None) → _expand_with env s = s)
  ∧ _expand_with ∅ s = s.
Proof.
  split; [apply expand_with_undefined|].
  apply expand_with_undefined. intros k _. apply lookup_empty.
Qed.

Lemma expand_with_only_defined_witness :
  _expand_with vars_example "make DESTDIR=${DESTDIR} -j$(nproc) install"
  = "make DESTDIR=${DESTDIR} -j$(nproc) install"
  ∧ _expand_with ∅ "patches/${name}/" = "patches/${name}/".
Proof.
  split.
  - apply (proj1 (expand_with_only_defined vars_example
                    "make DESTDIR=${DESTDIR} -j$(nproc) install")).
    intros k Hk. apply list_elem_of_In in Hk. vm_compute in Hk.
    destruct Hk as [<-|[]]. reflexivity.
  - apply (proj2 (expand_with_only_defined ∅ "patches/${name}/")).
Defined.

(** X12.  Expansion is one pass: the value put in the place of a reference
    is taken as it is, also when it contains a reference to a defined key
    itself. *)
Theorem expand_with_single_pass (env : gmap string string)
    (k v rest : string) :
  valid_key k → env !! k = Some v →
  _expand_with env (reference k +:+ rest) = v +:+ _expand_with env rest.
Proof.
  intros Hk Hv. unfold _expand_with.
  rewrite re_sub_match with (g := k);
    [|done|by apply match_reference_reference].
  unfold repl. by rewrite Hv.
Qed.

Lemma expand_with_single_pass_witness :
  _expand_with env_chained "${A}/${B}" = "${B}/y".
Proof.
  apply (expand_with_single_pass env_chained "A" "${B}" "/${B}").
  - split; [discriminate|reflexivity].
  - reflexivity.
Defined.

Lemma word_prefix_all_word (w : string) :
  all_word w = true → Py.word_prefix w = w.
Proof.
  induction w as [|c w IH]; [done|]. simpl. intros Hw.
  apply andb_true_iff in Hw as [Hc Hw]. by rewrite Hc, IH.
Qed.

Lemma all_word_no_brace (w : string) :
  all_word w = true → has_char "}" w = false.
Proof.
  induction w as [|c w IH]; [done|]. simpl. intros Hw.
  apply andb_true_iff in Hw as [Hc Hw]. rewrite IH by done.
  rewrite orb_false_r. destruct (Ascii.eqb c "}") eqn:Heq; [|done].
  apply Ascii.eqb_eq in Heq as ->. discriminate Hc.
Qed.

Lemma re_sub_nil (match_at : string → option (nat * string))
    (rp : string → string → string) (n : nat) :
  Py.re_sub match_at rp n "" = "".
Proof. done. Qed.

(** X13.  The form without braces, [$NAME], is resolved by [Recipe.load]
    from the process environment only: a name set there is replaced by its
    value, any other is left as written, whatever [vars], [name] and
    [version] define. *)
Theorem expand_braceless (environ env : gmap string string) (w : string) :
  w ≠ "" → all_word w = true →
  expand environ env (YStr (String "$" w))
  = YStr (default (String "$" w) (environ !! w)).
Proof.
  intros Hne Hw. simpl. f_equal.
  rewrite expand_with_undefined.
  - unfold Py.expandvars.
    pose proof (re_sub_match Py.match_shell_var
                  (λ text name, default text (environ !! name))
                  (String "$" w) "" w) as Hsub.
    rewrite !append_nil_r in Hsub.
    rewrite Hsub; [done|done|].
    unfold Py.match_shell_var. simpl. rewrite word_prefix_all_word by done.
    by destruct w.
  - intros k Hk. exfalso. unfold references in Hk.
    assert (∀ s, has_char "}" s = false → Py.re_findall match_reference 0 s = [])
      as Hnone.
    { clear. induction s as [|c s IH]; [done|]. intros Hs.
      cbn [has_char] in Hs. apply orb_false_iff in Hs as [Hc Hs].
      assert (match_reference (String c s) = None) as Hm.
      { unfold match_reference. destruct s as [|c' s']; [done|].
        destruct (Ascii.eqb c "$" && Ascii.eqb c' "{"); [|done].
        cbn [has_char] in Hs. apply orb_false_iff in Hs as [_ Hs].
        by rewrite (proj2 (until_brace_None s') Hs). }
      cbn [Py.re_findall]. rewrite Hm. by apply IH. }
    rewrite Hnone in Hk; [by apply elem_of_nil in Hk|].
    simpl. by apply all_word_no_brace.
Qed.

Lemma expand_braceless_witness :
  expand environ_example (load_env environ_example "zlib" "1.3.1" vars_example)
    (YStr "$HOME") = YStr "/root"
  ∧ expand environ_example (load_env environ_example "zlib" "1.3.1" vars_example)
      (YStr "$version") = YStr "$version".
Proof.
  split.
  - apply (expand_braceless environ_example _ "HOME"); [discriminate|reflexivity].
  - apply (expand_braceless environ_example _ "version"); [discriminate|reflexivity].
Defined.

(** ** The fetch stage, further *)

(** Every action of a loop is an action of its body at some element. *)
Lemma stage_for_actions {A} (body : A → stage unit) (l : list A) (a : action) :
  a ∈ (stage_for body l).1 → ∃ x, x ∈ l ∧ a ∈ (body x).1.
Proof.
  induction l as [|x l IH]; simpl.
  { intros Ha. by apply elem_of_nil in Ha. }
  unfold mbind, stage_mbind, stage_bind.
  destruct (body x) as [done1 [e|[]]] eqn:Hx; simpl.
  - intros Ha. exists x. split; [left|]. by rewrite Hx.
  - rewrite elem_of_app. intros [Ha|Ha].
    + exists x. split; [left|]. by rewrite Hx.
    + destruct (IH Ha) as (y & Hy & Hay). exists y. split; [by right|done].
Qed.

(** A failing element ends the loop: the elements behind it play no part. *)
Lemma stage_for_fail {A} (body : A → stage unit) (pre post : list A) (x : A)
    (before done : list action) (e : error) :
  stage_for body pre = (before, inr tt) →
  body x = (done, inl e) →
  stage_for body (pre ++ x :: post) = (before ++ done, inl e).
Proof.
  intros Hpre Hx. rewrite (stage_for_app body pre (x :: post) before Hpre).
  simpl. unfold mbind, stage_mbind, stage_bind. by rewrite Hx.
Qed.


(** An action of [m] followed by [k] is one of [m] or one of [k]. *)
Lemma stage_bind_actions {A B} (m : stage A) (k : A → stage B) (a : action) :
  a ∈ (m ≫= k).1 → a ∈ m.1 ∨ ∃ x, a ∈ (k x).1.
Proof.
  unfold mbind, stage_mbind, stage_bind.
  destruct m as [done1 [e|x]]; simpl; [by left|].
  rewrite elem_of_app. intros [?|?]; [by left|right; by exists x].
Qed.

Lemma download_to_actions (w : world) (url : string) (dest : list string)
    (a : action) :
  a ∈ (download_to w url dest).1 →
  a = MkDir (removelast dest) ∨ a = Download url dest.
Proof.
  unfold download_to, check_status.
  destruct (curl_status w url dest =? 0)%Z; simpl; set_solver.
Qed.

Lemma verify_hash_actions (w : world) (url : string) (path : list string)
    (spec : string) (a : action) :
  a ∈ (verify_hash w url path spec).1 →
  ∃ algo expected,
    Py.split_once ":" spec = Some (algo, expected) ∧ a = HashFile algo path.
Proof.
  unfold verify_hash.
  destruct (Py.split_once ":" spec) as [[algo expected]|];
    [|by intros ?%elem_of_nil].
  destruct (downloaded_digest w algo url) as [got|];
    [|by intros ?%elem_of_nil].
  intros Ha. exists algo, expected. split; [done|].
  revert Ha. case_bool_decide; simpl; set_solver.
Qed.

Lemma extract_actions (w : world) (archive dest : list string) (a : action) :
  a ∈ (extract w archive dest).1 → a = MkDir dest ∨ a = Extract archive dest.
Proof.
  unfold extract. destruct (extract_error w archive dest); simpl; set_solver.
Qed.

(** Where each action of the body of [fetch_sources] comes from. *)
Lemma fetch_source_actions (path_name path_stem : string → string)
    (w : world) (srcdir : list string) (src : source) (a : action) :
  a ∈ (fetch_source path_name path_stem w srcdir src).1 →
  (default "curl" (src_type src) = "curl"
   ∧ (a = MkDir srcdir
      ∨ a = Download (src_url src) (srcdir ++ [source_filename path_name src])
      ∨ (∃ algo expected spec,
           src_hash src = Some spec
           ∧ Py.split_once ":" spec = Some (algo, expected)
           ∧ a = HashFile algo (srcdir ++ [source_filename path_name src]))
      ∨ (is_archive_name (source_filename path_name src) = true
         ∧ a = Extract (srcdir ++ [source_filename path_name src]) srcdir)))
  ∨ (default "curl" (src_type src) = "git"
     ∧ a = GitClone (src_url src)
             (srcdir ++ [or_else (src_dir src) (path_stem (src_url src))])
             (src_ref src)).
Proof.
  unfold fetch_source.
  destruct (String.eqb (default "curl" (src_type src)) "curl") eqn:Hcurl.
  - apply String.eqb_eq in Hcurl. intros Ha. left. split; [done|].
    cbv zeta in Ha.
    apply stage_bind_actions in Ha as [Ha|[_ Ha]].
    { apply download_to_actions in Ha as [->| ->];
        [left; by rewrite removelast_last|by right; left]. }
    apply stage_bind_actions in Ha as [Ha|[_ Ha]].
    + destruct (src_hash src) as [[|c spec]|] eqn:Hhash;
        [by apply elem_of_nil in Ha| |by apply elem_of_nil in Ha].
      apply verify_hash_actions in Ha as (algo & expected & Hs & ->).
      right; right; left. by exists algo, expected, (String c spec).
    + destruct (is_archive_name _) eqn:Harch; [|by apply elem_of_nil in Ha].
      apply extract_actions in Ha as [->| ->]; [by left|].
      by right; right; right.
  - destruct (String.eqb (default "curl" (src_type src)) "git") eqn:Hgit.
    + apply String.eqb_eq in Hgit. intros Ha. right. split; [done|].
      revert Ha. unfold git_clone, check_status.
      destruct (git_status w _ _ _ =? 0)%Z; simpl; set_solver.
    + by intros ?%elem_of_nil.
Qed.

(** X14.  A source that fails ends [fetch_sources] with that source's
    error: the actions are those of the sources before it and its own, and
    no source listed behind it is touched. *)
Theorem fetch_sources_fail_fast (path_name path_stem : string → string)
    (w : world) (recipe : Recipe.t) (srcdir : list string)
    (pre post : list source) (src : source)
    (before done : list action) (e : error) :
  Recipe.source recipe = pre ++ src :: post →
  stage_for (fetch_source path_name path_stem w srcdir) pre = (before, inr tt) →
  fetch_source path_name path_stem w srcdir src = (done, inl e) →
  fetch_sources path_name path_stem w recipe srcdir
  = ([MkDir srcdir] ++ before ++ done, inl e).
Proof.
  intros Hsrc Hpre Hfail. unfold fetch_sources. rewrite Hsrc.
  by rewrite (stage_for_fail _ pre post src before done e Hpre Hfail).
Qed.

Lemma fetch_sources_fail_fast_witness :
  fetch_sources url_basename url_basename (world_with_digest "38ef96b8")
    mixed_recipe ["work"; "src"]
  = ([MkDir ["work"; "src"]; MkDir ["work"; "src"];
      Download "https://zlib.net/zlib-1.3.1.tar.xz"
        ["work"; "src"; "zlib-1.3.1.tar.xz"];
      HashFile "sha256" ["work"; "src"; "zlib-1.3.1.tar.xz"];
      MkDir ["work"; "src"];
      Extract ["work"; "src"; "zlib-1.3.1.tar.xz"] ["work"; "src"]],
     inl (ExitMessage "Fonte desconhecida: svn")).
Proof.
  apply (fetch_sources_fail_fast url_basename url_basename
           (world_with_digest "38ef96b8") mixed_recipe ["work"; "src"]
           [zlib_source] [zlib_source] svn_source
           [MkDir ["work"; "src"];
            Download "https://zlib.net/zlib-1.3.1.tar.xz"
              ["work"; "src"; "zlib-1.3.1.tar.xz"];
            HashFile "sha256" ["work"; "src"; "zlib-1.3.1.tar.xz"];
            MkDir ["work"; "src"];
            Extract ["work"; "src"; "zlib-1.3.1.tar.xz"] ["work"; "src"]]
           []);
    reflexivity.
Defined.



(** X16.  [fetch_sources] hashes a file only for a [curl] source of the
    recipe that declares a hash of the form [algo:expected], and then it is
    the file that source was downloaded to, hashed with that [algo]: a
    [git] source, and a source with no hash or an empty one, is never
    checked. *)
Theorem hash_only_as_declared (path_name path_stem : string → string)
    (w : world) (recipe : Recipe.t) (srcdir : list string)
    (algo : string) (file : list string) :
  HashFile algo file ∈ (fetch_sources path_name path_stem w recipe srcdir).1 →
  ∃ src spec expected,
    src ∈ Recipe.source recipe
    ∧ default "curl" (src_type src) = "curl"
    ∧ src_hash src = Some spec
    ∧ Py.split_once ":" spec = Some (algo, expected)
    ∧ file = srcdir ++ [source_filename path_name src].
Proof.
  unfold fetch_sources, mbind, stage_mbind, stage_bind. simpl.
  destruct (stage_for _ _) as [tr r] eqn:Hloop. simpl.
  rewrite elem_of_cons. intros [?|Ha]; [done|].
  assert (HashFile algo file
            ∈ (stage_for (fetch_source path_name path_stem w srcdir)
                 (Recipe.source recipe)).1) as Hin by (by rewrite Hloop).
  apply stage_for_actions in Hin as (src & Hsrc & Hact).
  apply fetch_source_actions in Hact
    as [[Htype [?|[?|[(al & ex & spec & Hh & Hs & [= -> ->])|[_ ?]]]]]|[_ ?]];
    try done.
  by exists src, spec, ex.
Qed.

Lemma hash_only_as_declared_witness :
  ∃ src spec expected,
    src ∈ Recipe.source zlib_recipe
    ∧ default "curl" (src_type src) = "curl"
    ∧ src_hash src = Some spec
    ∧ Py.split_once ":" spec = Some ("sha256", expected)
    ∧ ["work"; "src"; "zlib-1.3.1.tar.xz"]
      = ["work"; "src"] ++ [source_filename url_basename src].
Proof.
  apply (hash_only_as_declared url_basename url_basename
           (world_with_digest "38ef96b8") zlib_recipe ["work"; "src"]).
  vm_compute. do 3 right. left.
Defined.





(** ** Build-root selection, further *)

(** What a list with exactly one element yields does not depend on how the
    list is ordered. *)
Lemma only_element_Permutation {A B} (f : A → B) (d : B) (l l' : list A) :
  l ≡ₚ l' →
  match l with [p] => f p | _ => d end = match l' with [p] => f p | _ => d end.
Proof.
  intros Hperm. destruct l as [|p [|p2 l]].
  - by apply Permutation_nil_l in Hperm as <-.
  - by apply Permutation_singleton_l in Hperm as <-.
  - apply Permutation_length in Hperm. by destruct l' as [|q [|q2 l']].
Qed.

(** X19.  [iterdir] lists a directory in no particular order;
    [pick_build_root] does not depend on it. *)
Theorem pick_build_root_order_independent (srcdir : list string)
    (listing listing' : list dir_entry) :
  listing ≡ₚ listing' →
  pick_build_root srcdir listing = pick_build_root srcdir listing'.
Proof.
  intros Hperm. unfold pick_build_root.
  apply only_element_Permutation. by rewrite Hperm.
Qed.

Lemma pick_build_root_order_independent_witness :
  pick_build_root ["work"; "src"] (reverse listing_one)
  = pick_build_root ["work"; "src"] listing_one.
Proof.
  apply (pick_build_root_order_independent ["work"; "src"]
           (reverse listing_one) listing_one).
  apply reverse_Permutation.
Defined.

(** ** Registration and removal *)

(** X20.  Recording a package that was not installed and then removing it
    gives the registry back as it was; without [force] this needs that
    neither the package itself nor an installed one lists it as a runtime
    dependency. *)
Theorem uninstall_undoes_registration {FS}
    (remove_file : string → FS → FS * list event)
    (db : gmap string PackageRecord.t) (fs : FS) (rec : PackageRecord.t)
    (force : bool) :
  DB_get db (PackageRecord.name rec) = None →
  force = true
  ∨ (PackageRecord.name rec ∉ PackageRecord.runtime_deps rec
     ∧ ∀ q rq, DB_get db q = Some rq →
               PackageRecord.name rec ∉ PackageRecord.runtime_deps rq) →
  exit_of (uninstall remove_file (PackageRecord.name rec) force
             (DB_set rec db) fs) = Returned
  ∧ registry_of (uninstall remove_file (PackageRecord.name rec) force
                   (DB_set rec db) fs) = db.
Proof.
  unfold DB_get, DB_set. intros Hnew Hfree.
  rewrite (uninstall_unblocked remove_file (PackageRecord.name rec) rec
             (<[PackageRecord.name rec := rec]> db) fs force).
  - unfold exit_of, registry_of. simpl. split; [done|].
    by apply delete_insert_id.
  - apply lookup_insert_eq.
  - destruct Hfree as [->|[Hself Hothers]]; [by left|right].
    intros q (rq & Hq & Hdep).
    destruct (decide (q = PackageRecord.name rec)) as [->|Hne].
    + rewrite lookup_insert_eq in Hq. by injection Hq as <-.
    + rewrite lookup_insert_ne in Hq by done. by apply (Hothers q rq).
Qed.

Lemma uninstall_undoes_registration_witness :
  exit_of (uninstall log_removal "q" false db_pq []) = Returned
  ∧ registry_of (uninstall log_removal "q" false db_pq []) = DB_set rec_p ∅.
Proof.
  apply (uninstall_undoes_registration log_removal (DB_set rec_p ∅) [] rec_q false).
  - reflexivity.
  - right. split.
    + simpl. intros H. apply list_elem_of_singleton in H. discriminate H.
    + intros q rq. unfold DB_get, DB_set. simpl. intros Hq.
      destruct (decide (q = "p")) as [->|Hne].
      * rewrite lookup_insert_eq in Hq. injection Hq as <-. simpl.
        apply not_elem_of_nil.
      * rewrite lookup_insert_ne, lookup_empty in Hq by done. discriminate Hq.
Defined.

(** ** Expansion of a whole document *)

Lemma re_sub_no_dollar (match_at : string → option (nat * string))
    (rp : string → string → string) (s : string) :
  (∀ c s', c ≠ "$"%char → match_at (String c s') = None) →
  has_char "$" s = false → Py.re_sub match_at rp 0 s = s.
Proof.
  intros Hdollar. induction s as [|c s IH]; [done|]. intros Hs.
  cbn [has_char] in Hs. apply orb_false_iff in Hs as [Hc Hs].
  rewrite re_sub_no_match, IH; [done..|].
  apply Hdollar. by apply Ascii.eqb_neq.
Qed.

(** X21.  [expand] of [Recipe.load] changes nothing but strings that
    contain a dollar sign: a document none of whose string values has one
    comes back as it is, whatever the environment -- mapping keys are never
    expanded, and scalars that are not strings are passed through. *)
Theorem expand_plain_document (environ env : gmap string string) (doc : yaml) :
  Forall (λ s, has_char "$" s = false) (strings_of doc) →
  expand environ env doc = doc.
Proof.
  revert doc. fix IH 1. intros [s|items|items|r] Hdoc; simpl; [| | |done].
  - apply Forall_cons in Hdoc as [Hs _]. f_equal.
    unfold _expand_with, Py.expandvars.
    rewrite (re_sub_no_dollar match_reference);
      [|apply match_reference_dollar_only|done].
    by apply re_sub_no_dollar; [apply match_shell_var_dollar_only|].
  - f_equal. simpl in Hdoc.
    induction items as [|d items IHitems]; [done|].
    simpl in Hdoc. apply Forall_app in Hdoc as [Hd Hitems].
    simpl. f_equal; [by apply IH|by apply IHitems].
  - f_equal. simpl in Hdoc.
    induction items as [|[k d] items IHitems]; [done|].
    simpl in Hdoc. apply Forall_app in Hdoc as [Hd Hitems].
    simpl. f_equal; [f_equal; by apply IH|by apply IHitems].
Qed.

Lemma expand_plain_document_witness :
  expand environ_example
    (load_env environ_example "zlib" "1.3.1" vars_example) plain_document
  = plain_document.
Proof.
  apply (expand_plain_document environ_example _ plain_document).
  repeat constructor.
Defined.

(** ** Building and installing *)

Lemma copied_files_app (new1 new2 : list step) :
  copied_files (new1 ++ new2) = copied_files new1 ++ copied_files new2.
Proof. apply omap_app. Qed.

Lemma copied_files_MakeDirs {A} (f : A → list string) (l : list A) :
  copied_files ((λ x, MakeDirs (f x)) <$> l) = [].
Proof. induction l as [|x l IH]; [done|exact IH]. Qed.

Lemma quiet_ret {A} (a : A) : quiet (mret a : builder A).
Proof. intros st. split; [done|]. exists []. by rewrite app_nil_r. Qed.

Lemma quiet_bind {A B} (m : builder A) (k : A → builder B) :
  quiet m → (∀ a, quiet (k a)) → quiet (m ≫= k).
Proof.
  intros Hm Hk st. unfold mbind, builder_mbind, builder_bind.
  destruct (Hm st) as (Hi & new & Hs & Hc).
  destruct (m st) as [st1 [e|a]]; simpl in *.
  - split; [done|]. by exists new.
  - destruct (Hk a st1) as (Hi2 & new2 & Hs2 & Hc2). split; [congruence|].
    exists (new ++ new2). rewrite Hs2, Hs, app_assoc. split; [done|].
    by rewrite copied_files_app, Hc, Hc2.
Qed.

Lemma quiet_do (s : step) : copied_files [s] = [] → quiet (builder_do s).
Proof. intros Hs st. split; [done|]. by exists [s]. Qed.

Lemma quiet_stage {A} (m : stage A) : quiet (builder_stage m).
Proof.
  intros st. split; [done|]. exists (Fetching <$> m.1). split; [done|].
  unfold copied_files. by induction (m.1).
Qed.

Lemma quiet_for {A} (body : A → builder unit) (l : list A) :
  (∀ x, quiet (body x)) → quiet (builder_for body l).
Proof.
  intros Hbody. induction l as [|x l IH]; [apply quiet_ret|].
  apply quiet_bind; [apply Hbody|done].
Qed.

Lemma quiet_finally {A} (body : builder A) (cleanup : builder unit) :
  quiet body → quiet cleanup → quiet (builder_finally body cleanup).
Proof.
  intros Hbody Hcleanup st. unfold builder_finally.
  destruct (Hbody st) as (Hi & new & Hs & Hc).
  destruct (body st) as [st1 r]; simpl in *.
  destruct (Hcleanup st1) as (Hi2 & new2 & Hs2 & Hc2). split; [congruence|].
  exists (new ++ new2). rewrite Hs2, Hs, app_assoc. split; [done|].
  by rewrite copied_files_app, Hc, Hc2.
Qed.

Lemma builder_for_do {A} (f : A → step) (l : list A) (st : build_state) :
  builder_for (λ x, builder_do (f x)) l st
  = ({| steps := steps st ++ (f <$> l); installed := installed st |}, inr tt).
Proof.
  revert st. induction l as [|x l IH]; intros st; simpl.
  { rewrite app_nil_r. by destruct st. }
  unfold mbind, builder_mbind, builder_bind. simpl. rewrite IH. simpl.
  by rewrite <- app_assoc.
Qed.

Lemma builder_bind_ok {A B} (m : builder A) (k : A → builder B)
    (st st1 : build_state) (a : A) :
  m st = (st1, inr a) → (m ≫= k) st = k a st1.
Proof. intros Hm. unfold mbind, builder_mbind, builder_bind. by rewrite Hm. Qed.

Section BuildFacts.
Variable path_of : string → list string.
Variable path_name path_stem : string → string.
Variable D : dirs.
Variable w : build_world.

Lemma quiet_run (c : command) : quiet (run w c).
Proof.
  intros st. unfold run, builder_bind, builder_do. simpl.
  destruct (returncode w (steps st) c =? 0)%Z; simpl;
    (split; [done|]; by exists [Run c]).
Qed.

Lemma quiet_apply_patches (patches : list patch) (cwd : list string) :
  quiet (apply_patches path_of path_name w patches cwd).
Proof.
  apply quiet_for. intros [url|dir|p]; simpl.
  - intros st. unfold with_temporary_directory.
    refine (quiet_bind (builder_do _) (λ _, builder_finally _ _) _ _ st).
    + by apply quiet_do.
    + intros _. apply quiet_finally; [|by apply quiet_do].
      apply quiet_bind; [apply quiet_stage|]. intros _. apply quiet_run.
  - apply quiet_for. intros f. apply quiet_run.
  - apply quiet_run.
Qed.

Lemma quiet_run_lines (kind : string) (lines : list string)
    (root logdir : list string) (env : list (string * string)) :
  quiet (run_lines w kind lines root logdir env).
Proof. apply quiet_for. intros ic. apply quiet_run. Qed.

Lemma copying_collect {A} (body : A → builder (list string)) (l : list A) :
  (∀ x, copying (body x)) → copying (builder_collect body l).
Proof.
  intros Hbody. induction l as [|x l IH]; intros st; simpl.
  { split; [done|]. exists []. by rewrite app_nil_r. }
  unfold mbind, builder_mbind, builder_bind.
  destruct (Hbody x st) as (Hi & new & Hs & Hr).
  destruct (body x st) as [st1 r]; simpl in *. subst r.
  destruct (IH st1) as (Hi2 & new2 & Hs2 & Hr2).
  destruct (builder_collect body l st1) as [st2 r2]; simpl in *. subst r2.
  unfold mret, builder_mret, builder_ret. simpl.
  split; [congruence|]. exists (new ++ new2).
  by rewrite Hs2, Hs, app_assoc, copied_files_app.
Qed.

Lemma copying_install_walked (destdir : list string)
    (walked : list string * list string * list string) :
  copying (install_walked destdir walked).
Proof.
  destruct walked as [[relroot subdirs] files]. intros st.
  unfold install_walked.
  rewrite (builder_bind_ok _ _ st _ tt (builder_for_do _ subdirs st)).
  match goal with
  | |- context [builder_collect ?b files] =>
      assert (copying (builder_collect b files)) as Hfiles
  end.
  { apply copying_collect. intros f st'. split; [done|].
    exists [MakeDirs (removelast (["/"] ++ relroot ++ [f]));
            Copy (destdir ++ relroot ++ [f]) (["/"] ++ relroot ++ [f])].
    split; [|done].
    unfold mbind, builder_mbind, builder_bind, builder_do. cbn [fst snd steps].
    by rewrite <- app_assoc. }
  match goal with
  | |- context [builder_collect ?b files ?st1] =>
      destruct (Hfiles st1) as (Hi & new & Hs & Hr)
  end.
  cbn [steps installed] in Hi, Hs.
  split; [done|].
  exists (((λ d, MakeDirs (["/"] ++ relroot ++ [d])) <$> subdirs) ++ new).
  rewrite Hs, Hr, app_assoc, copied_files_app. split; [done|].
  f_equal.
  by rewrite (copied_files_MakeDirs (λ d, ["/"] ++ relroot ++ [d])).
Qed.

Lemma build_outcome_after_quiet (recipe : Recipe.t) (install : bool)
    (m k : builder unit) :
  quiet m → build_outcome recipe install k → build_outcome recipe install (m ;; k).
Proof.
  intros Hm Hk st. unfold mbind, builder_mbind, builder_bind.
  destruct (Hm st) as (Hi & new & Hs & Hc).
  destruct (m st) as [st1 [e|[]]]; cbn [fst snd] in *.
  { exists new. split; [done|]. right. split; [right; by exists e|done]. }
  destruct (Hk st1) as (new2 & Hs2 & Hcases).
  exists (new ++ new2). rewrite Hs2, Hs, app_assoc. split; [done|].
  rewrite copied_files_app, Hc, Hi in *. done.
Qed.

(** What [do_build] leaves behind, in every case. *)
Lemma do_build_outcome (recipe : Recipe.t) (install : bool) :
  build_outcome recipe install
    (do_build path_of path_name path_stem D w recipe install).
Proof.
  unfold do_build, stage_paths. cbv zeta.
  apply build_outcome_after_quiet.
  { apply quiet_for. intros d. by apply quiet_do. }
  apply build_outcome_after_quiet.
  { destruct (path_exists w _); [by apply quiet_do|apply quiet_ret]. }
  apply build_outcome_after_quiet; [by apply quiet_do|].
  apply build_outcome_after_quiet; [apply quiet_stage|].
  apply build_outcome_after_quiet; [apply quiet_apply_patches|].
  apply build_outcome_after_quiet; [by apply quiet_do|].
  apply build_outcome_after_quiet; [apply quiet_run_lines|].
  destruct install.
  2:{ intros st. exists []. rewrite app_nil_r. split; [done|]. right.
      split; [by left|done]. }
  unfold install_built.
  apply build_outcome_after_quiet; [apply quiet_run_lines|].
  apply build_outcome_after_quiet; [apply quiet_run|].
  intros st. unfold mbind, builder_mbind, builder_bind.
  match goal with
  | |- context [builder_collect ?b ?l st] =>
      destruct (copying_collect b l (copying_install_walked _) st)
        as (Hi & new & Hs & Hr);
      destruct (builder_collect b l st) as [st1 r]
  end.
  cbn [fst snd] in *. subst r. exists new. split; [done|]. left.
  split; [done|]. split; [done|]. cbn [builder_set fst installed]. by rewrite Hi.
Qed.
End BuildFacts.



(** X23.  A build without [install], and one that ends with [SystemExit]
    or with the [ValueError] of an unusable hash -- a failed download,
    patch or command, a wrong hash, a source of unknown type -- leaves the
    registry as it was and copies no file into the system. *)
Theorem do_build_installs_nothing (path_of : string → list string)
    (path_name path_stem : string → string) (D : dirs) (w : build_world)
    (recipe : Recipe.t) (install : bool) (st : build_state) :
  install = false
  ∨ (∃ e, (do_build path_of path_name path_stem D w recipe install st).2
          = inl e) →
  installed (do_build path_of path_name path_stem D w recipe install st).1
  = installed st
  ∧ ∃ new,
      steps (do_build path_of path_name path_stem D w recipe install st).1
      = steps st ++ new
      ∧ copied_files new = [].
Proof.
  intros Hcase.
  destruct (do_build_outcome path_of path_name path_stem D w recipe install st)
    as (new & Hs & [(Hinst & Hok & _)|(_ & Hi & Hc)]).
  - exfalso. destruct Hcase as [->|[e He]]; [done|]. by rewrite Hok in He.
  - split; [done|]. by exists new.
Qed.

Lemma do_build_installs_nothing_witness :
  installed (do_build (Py.split "/") url_basename url_basename dirs_example
               (build_world_example 2) zlib_build_recipe true state_pq).1
  = installed state_pq
  ∧ ∃ new,
      steps (do_build (Py.split "/") url_basename url_basename dirs_example
               (build_world_example 2) zlib_build_recipe true state_pq).1
      = steps state_pq ++ new
      ∧ copied_files new = [].
Proof.
  apply (do_build_installs_nothing (Py.split "/") url_basename url_basename
           dirs_example (build_world_example 2) zlib_build_recipe true state_pq).
  right. exists (ExitStatus 2). reflexivity.
Defined.

(** X24.  Installing a package that was not installed and then removing
    it with [force] gives the registry back as it was; and the removal
    handles exactly the files the installation copied, one after the
    other, in an order in which a path with more segments comes before
    every path with fewer. *)
Theorem install_then_remove {FS}
    (remove_file : string → FS → FS * list event)
    (path_of : string → list string) (path_name path_stem : string → string)
    (D : dirs) (w : build_world) (recipe : Recipe.t) (st : build_state)
    (fs : FS) :
  (do_build path_of path_name path_stem D w recipe true st).2 = inr tt →
  DB_get (installed st) (Recipe.name recipe) = None →
  ∃ new order,
    steps (do_build path_of path_name path_stem D w recipe true st).1
    = steps st ++ new
    ∧ registry_of
        (uninstall remove_file (Recipe.name recipe) true
           (installed (do_build path_of path_name path_stem D w recipe true st).1)
           fs)
      = installed st
    ∧ order ≡ₚ copied_files new
    ∧ (∀ i j f g, order !! i = Some f → order !! j = Some g →
                  (segment_count g < segment_count f)%nat → (i < j)%nat)
    ∧ files_of
        (uninstall remove_file (Recipe.name recipe) true
           (installed (do_build path_of path_name path_stem D w recipe true st).1)
           fs)
      = foldl (λ fs' f, (remove_file f fs').1) fs order.
Proof.
  intros Hok Hnew.
  destruct (do_build_outcome path_of path_name path_stem D w recipe true st)
    as (new & Hs & [(_ & _ & Hi)|([?|[e He]] & _)]);
    [|done|by rewrite Hok in He].
  exists new, (removal_order (copied_files new)). split; [done|].
  rewrite Hi. unfold DB_set.
  rewrite (uninstall_forced remove_file (Recipe.name recipe)
             (record_of recipe (copied_files new)));
    [|apply lookup_insert_eq].
  unfold registry_of, files_of. simpl.
  destruct (removal_order_deepest_first (copied_files new)) as [Hperm Hdeep].
  split; [by apply delete_insert_id|]. split; [done|]. split; [done|].
  rewrite remove_files_foldl.
  generalize (removal_order (copied_files new)). intros l.
  generalize (@nil event). revert fs.
  induction l as [|f l IH]; intros fs evs; [done|]. simpl. apply IH.
Qed.

Lemma install_then_remove_witness :
  (∃ new order,
     steps (do_build (Py.split "/") url_basename url_basename dirs_example
              (build_world_two_files 0) zlib_build_recipe true state_empty).1
     = steps state_empty ++ new
     ∧ registry_of
         (uninstall log_removal (Recipe.name zlib_build_recipe) true
            (installed
               (do_build (Py.split "/") url_basename url_basename dirs_example
                  (build_world_two_files 0) zlib_build_recipe true
                  state_empty).1)
            [])
       = installed state_empty
     ∧ order ≡ₚ copied_files new
     ∧ (∀ i j f g, order !! i = Some f → order !! j = Some g →
                   (segment_count g < segment_count f)%nat → (i < j)%nat)
     ∧ files_of
         (uninstall log_removal (Recipe.name zlib_build_recipe) true
            (installed
               (do_build (Py.split "/") url_basename url_basename dirs_example
                  (build_world_two_files 0) zlib_build_recipe true
                  state_empty).1)
            [])
       = foldl (λ fs' f, (log_removal f fs').1) [] order)
  ∧ copied_files
      (steps (do_build (Py.split "/") url_basename url_basename dirs_example
                (build_world_two_files 0) zlib_build_recipe true
                state_empty).1)
    = ["/README"; "/usr/bin/zlib-demo"]
  ∧ files_of
      (uninstall log_removal (Recipe.name zlib_build_recipe) true
         (installed
            (do_build (Py.split "/") url_basename url_basename dirs_example
               (build_world_two_files 0) zlib_build_recipe true
               state_empty).1)
         [])
    = ["/usr/bin/zlib-demo"; "/README"].
Proof.
  split; [|split; reflexivity].
  apply (install_then_remove log_removal (Py.split "/") url_basename
           url_basename dirs_example (build_world_two_files 0)
           zlib_build_recipe state_empty []);
    reflexivity.
Defined.

Section Only.
Variable P : step → Prop.









End Only.

